(** * bgdrive-sync: the object manager and the sync orchestrator

    A shallow embedding of [cmd/object_manager.go] and of the task bodies of
    [syncFiles], with the properties of the reconciliation engine proved
    about it.

    The Go code works on one shared [ObjectManager]: a map from local paths
    to pointers to [Object]s, guarded by a reader/writer mutex.  Pointers
    matter: [updateStoredObject] mutates through the pointer it is handed,
    not through a key.  So the embedding keeps a heap of objects and a map
    from paths to heap addresses.  Every mutex-protected method is one
    atomic operation; a Go function is a tree of such operations, which is
    run sequentially by [run] and interleaved with other workers by
    [turn] and [schedule]. *)

From Stdlib Require Import ZArith NArith Ascii String Lia.
From stdpp Require Import base option list gmap strings sorting pretty.

Local Open Scope Z_scope.

(** ** Data model *)

(** [type Object struct]: [gd_id], [gdp_id], [last_mod], [size]. The two
    integers are [int64] in Go; the code only compares and copies them. *)
Record Object := mkObject {
  GDId : string;
  GDPId : string;
  LastMod : Z;
  Size : Z
}.

#[global] Instance Object_eq_dec : EqDecision Object.
Proof. solve_decision. Defined.

#[global] Instance Object_inhabited : Inhabited Object :=
  populate (mkObject "" "" 0 0).

(** [type Config struct].  [object_manager.go] reads the remote root folder
    identifier as [cfg.RootFolderID]. *)
Record Config := mkConfig {
  GDAccountName : string;
  RootFolderID : string;
  SyncTargetPath : string;
  SyncDelayMinute : Z;
  SyncWorker : Z;
  SyncRetry : Z;
  TestMode : bool;
  TestModeOpDelayMillis : Z
}.

Definition set_RootFolderID (v : string) (c : Config) : Config :=
  mkConfig (GDAccountName c) v (SyncTargetPath c) (SyncDelayMinute c)
           (SyncWorker c) (SyncRetry c) (TestMode c) (TestModeOpDelayMillis c).

(** [type WalkResp struct] of the orchestrator. *)
Record WalkResp := mkWalkResp {
  wr_loc : string;
  wr_modTimeUnix : Z;
  wr_isDir : bool;
  wr_size : Z
}.

(** What the code uses of an [os.FileInfo]. *)
Record FileInfo := mkFileInfo {
  fi_IsDir : bool;
  fi_ModTimeUnix : Z;
  fi_Size : Z
}.

(** A [*Object]: an address in the heap of objects. *)
Definition ptr := nat.

(** One invocation of [execCommand]: the program and its arguments. The tag
    is a label of the call site (which path the command is for); the
    backend never sees more than [call_name] and [call_args]. *)
Inductive CallTag :=
| TagCreate (loc : string)
| TagUpdate (loc : string)
| TagDelete (loc : string).

Record Call := mkCall {
  call_tag : CallTag;
  call_name : string;
  call_args : list string
}.

#[global] Instance CallTag_eq_dec : EqDecision CallTag.
Proof. solve_decision. Defined.

(** ** JSON, as [encoding/json] writes and reads it for this map type

    [json.MarshalIndent] of a [map[string]*Object] writes one JSON object
    whose members are the map's keys in sorted order, each with an object of
    the four tagged fields. A file's bytes are represented by the document
    they spell; content of any other shape is [Malformed]. *)
Inductive jvalue :=
| JStr (s : string)
| JInt (z : Z).

Definition jobject := list (string * jvalue).
Definition jdoc := list (string * jobject).

Inductive file_data :=
| EmptyFile
| JsonText (j : jdoc)
| Malformed (raw : string).

(** The state of the process and of what it acts on. [cfg], [objectMap] and
    [ObjectMapFilePath] are the fields of the [ObjectManager]; [heap] holds
    the objects its pointers refer to; [files] is the disk; [calls] lists
    the [execCommand] invocations so far; [console] the printed lines;
    [ntr] the orchestrator's pending list for the next pass. *)
Record World := mkWorld {
  cfg : Config;
  ObjectMapFilePath : string;
  heap : list Object;
  objectMap : gmap string ptr;
  files : gmap string file_data;
  calls : list Call;
  console : list string;
  ntr : list WalkResp
}.

Definition set_cfg (c : Config) (w : World) : World :=
  mkWorld c (ObjectMapFilePath w) (heap w) (objectMap w) (files w) (calls w) (console w) (ntr w).
Definition set_heap (h : list Object) (w : World) : World :=
  mkWorld (cfg w) (ObjectMapFilePath w) h (objectMap w) (files w) (calls w) (console w) (ntr w).
Definition set_objectMap (m : gmap string ptr) (w : World) : World :=
  mkWorld (cfg w) (ObjectMapFilePath w) (heap w) m (files w) (calls w) (console w) (ntr w).
Definition set_files (f : gmap string file_data) (w : World) : World :=
  mkWorld (cfg w) (ObjectMapFilePath w) (heap w) (objectMap w) f (calls w) (console w) (ntr w).
Definition set_calls (l : list Call) (w : World) : World :=
  mkWorld (cfg w) (ObjectMapFilePath w) (heap w) (objectMap w) (files w) l (console w) (ntr w).
Definition set_console (l : list string) (w : World) : World :=
  mkWorld (cfg w) (ObjectMapFilePath w) (heap w) (objectMap w) (files w) (calls w) l (ntr w).
Definition set_ntr (l : list WalkResp) (w : World) : World :=
  mkWorld (cfg w) (ObjectMapFilePath w) (heap w) (objectMap w) (files w) (calls w) (console w) l.

(** [*o]: the object at an address. *)
Definition deref (w : World) (o : ptr) : Object := heap w !!! o.

(** [&Object{...}]: a fresh address holding [v]. *)
Definition alloc (v : Object) (w : World) : ptr * World :=
  (length (heap w), set_heap (heap w ++ [v]) w).

(** *** String coercion of the encoder

    Go strings are byte sequences, and so are local file names. The encoder
    writes a string "coerced to valid UTF-8, replacing invalid bytes with
    the Unicode replacement rune" (documentation of [json.Marshal]; map keys
    are "subject to the UTF-8 coercion described for string values"), and
    the decoder turns what was written back into bytes. Escapes are undone
    by the decoder, so on the way out and back in a string changes exactly
    by this coercion.

    [utf8_tail c t] is the number of continuation bytes of the rune that
    starts with the non-ASCII byte [c] when [c] followed by [t] starts with
    a well-formed rune ([utf8.DecodeRuneInString] returns a size above 1),
    and [None] when the byte is invalid there. *)
Definition byte_in (lo hi : N) (c : ascii) : bool :=
  ((lo <=? N_of_ascii c) && (N_of_ascii c <=? hi))%N.

Definition utf8_cont (c : ascii) : bool := byte_in 128 191 c.

Definition utf8_tail (c : ascii) (t : string) : option nat :=
  let n := N_of_ascii c in
  match t with
  | String c1 t1 =>
      if byte_in 194 223 c then
        if utf8_cont c1 then Some 1%nat else None
      else
        match t1 with
        | String c2 t2 =>
            if byte_in 224 239 c then
              if (if (n =? 224)%N then byte_in 160 191 c1
                  else if (n =? 237)%N then byte_in 128 159 c1
                  else utf8_cont c1) && utf8_cont c2
              then Some 2%nat else None
            else
              match t2 with
              | String c3 _ =>
                  if byte_in 240 244 c then
                    if (if (n =? 240)%N then byte_in 144 191 c1
                        else if (n =? 244)%N then byte_in 128 143 c1
                        else utf8_cont c1) && utf8_cont c2 && utf8_cont c3
                    then Some 3%nat else None
                  else None
              | EmptyString => None
              end
        | EmptyString => None
        end
  | EmptyString => None
  end.

(** U+FFFD in UTF-8: EF BF BD. *)
Definition replacement_rune : string :=
  String (ascii_of_N 239) (String (ascii_of_N 191) (String (ascii_of_N 189) EmptyString)).

(** [skip] counts the continuation bytes of the current rune still to copy. *)
Fixpoint utf8_coerce_from (skip : nat) (s : string) : string :=
  match s with
  | EmptyString => EmptyString
  | String c t =>
      match skip with
      | S k => String c (utf8_coerce_from k t)
      | O =>
          if (N_of_ascii c <? 128)%N then String c (utf8_coerce_from 0 t)
          else match utf8_tail c t with
               | Some n => String c (utf8_coerce_from n t)
               | None => replacement_rune +:+ utf8_coerce_from 0 t
               end
      end
  end.

Definition utf8_coerce (s : string) : string := utf8_coerce_from 0 s.

(** A recogniser of well-formed UTF-8, independent of the coercion. *)
Fixpoint utf8_valid_from (skip : nat) (s : string) : bool :=
  match s with
  | EmptyString => true
  | String c t =>
      match skip with
      | S k => utf8_valid_from k t
      | O =>
          if (N_of_ascii c <? 128)%N then utf8_valid_from 0 t
          else match utf8_tail c t with
               | Some n => utf8_valid_from n t
               | None => false
               end
      end
  end.

Definition utf8_valid (s : string) : bool := utf8_valid_from 0 s.

(** *** Encoding and decoding the map *)

Definition encode_Object (o : Object) : jobject :=
  [ ("gd_id", JStr (utf8_coerce (GDId o)));
    ("gdp_id", JStr (utf8_coerce (GDPId o)));
    ("last_mod", JInt (LastMod o));
    ("size", JInt (Size o)) ].

(** Keys are written in the byte order of the key strings. *)
Definition key_le (a b : string * Object) : Prop := String.leb a.1 b.1 = true.

#[global] Instance key_le_dec a b : Decision (key_le a b).
Proof. unfold key_le. apply _. Defined.

Definition json_Marshal (m : gmap string Object) : jdoc :=
  (λ kv : string * Object, (utf8_coerce kv.1, encode_Object kv.2))
    <$> merge_sort key_le (map_to_list m).

(** One member of an object into the struct: fields are found by their tag,
    unknown members are skipped, a value of the wrong type is an error. *)
Definition decode_field (o : Object) (f : string * jvalue) : option Object :=
  if decide (f.1 = "gd_id") then
    match f.2 with JStr s => Some (mkObject s (GDPId o) (LastMod o) (Size o)) | _ => None end
  else if decide (f.1 = "gdp_id") then
    match f.2 with JStr s => Some (mkObject (GDId o) s (LastMod o) (Size o)) | _ => None end
  else if decide (f.1 = "last_mod") then
    match f.2 with JInt z => Some (mkObject (GDId o) (GDPId o) z (Size o)) | _ => None end
  else if decide (f.1 = "size") then
    match f.2 with JInt z => Some (mkObject (GDId o) (GDPId o) (LastMod o) z) | _ => None end
  else Some o.

Definition decode_Object (fs : jobject) : option Object :=
  foldl (λ acc f, o ← acc; decode_field o f) (Some (mkObject "" "" 0 0)) fs.

(** Members are stored in the order they are read: of two members with the
    same key the later one stays. *)
Definition json_Unmarshal (d : jdoc) (m : gmap string Object) : option (gmap string Object) :=
  foldl (λ acc kv, m' ← acc; o ← decode_Object kv.2; Some (<[kv.1 := o]> m')) (Some m) d.

(** ** The environment

    What the code calls but does not define: the package-level [binPath]
    (the sync root, whose declaration is outside the sources), path
    functions of [path/filepath], the file system, the [gdrive] backend and
    the size formatter (whose output is only printed). [backend] answers a
    call given the calls made before it; [inl] is a failing exit with the
    captured output, [inr] the trimmed output. *)
Record Env := mkEnv {
  binPath : string;
  filepath_Dir : string → string;
  filepath_Base : string → string;
  os_Stat : string → string + FileInfo;
  os_OpenFile : string → option string;
  os_WriteFile : string → jdoc → option string;
  backend : list Call → Call → string + string;
  getFileSizeFormatted : Z → string
}.

(** [strings.TrimPrefix]. *)
Definition strings_TrimPrefix (s pre : string) : string :=
  if String.prefix pre s
  then String.substring (String.length pre) (String.length s - String.length pre) s
  else s.

(** ** The metadata store: the methods of [ObjectManager] *)
Section store.
Context (E : Env).

(** The map with its pointers followed: what the store holds. *)
Definition snapshot (w : World) : gmap string Object := deref w <$> objectMap w.

Definition storeObject (key : string) (object : ptr) (w : World) : bool * World :=
  match objectMap w !! key with
  | Some _ => (false, w)
  | None => (true, set_objectMap (<[key := object]> (objectMap w)) w)
  end.

Definition isLocked (o : ptr) (w : World) : bool :=
  bool_decide (GDId (deref w o) = "").

Definition updateStoredObject (o : ptr) (f : Object → Object) (w : World) : World :=
  set_heap (alter f o (heap w)) w.

Definition loadObject (key : string) (w : World) : option ptr * World :=
  if decide (key = binPath E) then
    let w1 := if decide (RootFolderID (cfg w) = "")
              then set_cfg (set_RootFolderID "." (cfg w)) w else w in
    let '(o, w2) := alloc (mkObject (RootFolderID (cfg w1)) "" 0 0) w1 in
    (Some o, w2)
  else (objectMap w !! key, w).

Definition deleteObject (key : string) (w : World) : World :=
  set_objectMap (delete key (objectMap w)) w.

(** A deep copy through JSON; both error results are dropped. *)
Definition CopyObjects (w : World) : gmap string Object :=
  default ∅ (json_Unmarshal (json_Marshal (snapshot w)) ∅).

Definition execCommand (c : Call) (w : World) : (string + string) * World :=
  let w' := set_calls (calls w ++ [c]) w in
  if TestMode (cfg w) then (inr "0", w') else (backend E (calls w) c, w').
End store.

(** ** Programs over atomic operations

    An [event] is one step a worker takes on the shared state: a call of a
    mutex-protected method, an allocation, an unsynchronised read through a
    pointer, or a call to the outside. [X] is the type of what the step
    returns. Errors are [inl] with the message. *)
Inductive event : Type → Type :=
| EvLoadObject (key : string) : event (option ptr)
| EvIsLocked (o : ptr) : event bool
| EvStoreObject (key : string) (o : ptr) : event bool
| EvUpdateStoredObject (o : ptr) (f : Object → Object) : event unit
| EvDeleteObject (key : string) : event unit
| EvCopyObjects : event (gmap string Object)
| EvNew (v : Object) : event ptr
| EvRead (o : ptr) : event Object
| EvStat (loc : string) : event (string + FileInfo)
| EvExecCommand (c : Call) : event (string + string)
| EvPrint (line : string) : event unit
| EvRequeue (wr : WalkResp) : event unit
| EvWriteObjectMapFile (data : jdoc) : event (option string).

Inductive prog (R : Type) : Type :=
| Ret (r : R)
| Vis {X : Type} (e : event X) (k : X → prog R).
Arguments Ret {R} r.
Arguments Vis {R X} e k.

Fixpoint prog_bind {A B : Type} (f : A → prog B) (p : prog A) : prog B :=
  match p with
  | Ret r => f r
  | Vis e k => Vis e (λ x, prog_bind f (k x))
  end.

#[global] Instance prog_ret : MRet prog := @Ret.
#[global] Instance prog_mbind : MBind prog := @prog_bind.

Definition call {X : Type} (e : event X) : prog X := Vis e Ret.

(** Which lock of [objectMapRWMu] a step holds while it runs. *)
Inductive lock_mode := NoLock | RLock | WLock.

Definition lock_of {X : Type} (e : event X) : lock_mode :=
  match e with
  | EvLoadObject _ | EvIsLocked _ | EvCopyObjects => RLock
  | EvStoreObject _ _ | EvUpdateStoredObject _ _ | EvDeleteObject _ => WLock
  | _ => NoLock
  end.

Section semantics.
Context (E : Env).

(** The effect of one step and what it returns. *)
Definition sem {X : Type} (e : event X) (w : World) : X * World :=
  match e in event T return T * World with
  | EvLoadObject key => loadObject E key w
  | EvIsLocked o => (isLocked o w, w)
  | EvStoreObject key o => storeObject key o w
  | EvUpdateStoredObject o f => (tt, updateStoredObject o f w)
  | EvDeleteObject key => (tt, deleteObject key w)
  | EvCopyObjects => (CopyObjects w, w)
  | EvNew v => alloc v w
  | EvRead o => (deref w o, w)
  | EvStat loc => (os_Stat E loc, w)
  | EvExecCommand c => execCommand E c w
  | EvPrint line => (tt, set_console (console w ++ [line]) w)
  | EvRequeue wr => (tt, set_ntr (ntr w ++ [wr]) w)
  | EvWriteObjectMapFile data =>
      match os_WriteFile E (ObjectMapFilePath w) data with
      | Some err => (Some err, w)
      | None => (None, set_files (<[ObjectMapFilePath w := JsonText data]> (files w)) w)
      end
  end.

(** One worker alone: the steps in order. *)
Fixpoint run {R : Type} (p : prog R) (w : World) : R * World :=
  match p with
  | Ret r => (r, w)
  | Vis e k => let '(x, w') := sem e w in run (k x) w'
  end.
End semantics.

(** ** The object resolver and the modification check *)

(** The four results of [NewObject]: the object, [loaded], [locked] and the
    error. *)
Record Resolved := mkResolved {
  res_obj : option ptr;
  res_loaded : bool;
  res_locked : bool;
  res_err : option string
}.

(** The four results of [Sync]. *)
Record Synced := mkSynced {
  syn_created : bool;
  syn_updated : bool;
  syn_locked : bool;
  syn_err : option string
}.

Section resolver.
Context (E : Env).

(** [fmt.Sprintf] of the two creation commands. *)
Definition create_args (d op b parent : string) : string :=
  "cd " +:+ d +:+ " && gdrive files " +:+ op +:+ " " +:+ b +:+ " --parent " +:+ parent +:+ " --print-only-id".
Definition create_args_root (d op b : string) : string :=
  "cd " +:+ d +:+ " && gdrive files " +:+ op +:+ " " +:+ b +:+ " --print-only-id".
Definition update_args (d id b : string) : string :=
  "cd " +:+ d +:+ " && gdrive files update " +:+ id +:+ " " +:+ b.

(** [NewObject], in three parts. [NewObject_rest] is the function from the
    check of the parent's lock (line 120) to its end, with the parent
    [pObj] in hand. *)
Definition NewObject_rest (loc : string) (pObj : ptr) : prog (option Resolved) :=
  let d := filepath_Dir E loc in
  let b := filepath_Base E loc in
  l ← call (EvIsLocked pObj);
  if l : bool then mret (Some (mkResolved (Some pObj) false true None))
  else
    st ← call (EvStat loc);
    match st with
    | inl err => mret (Some (mkResolved None false false (Some err)))
    | inr wr =>
        let op := if fi_IsDir wr then "mkdir" else "upload" in
        let lastMod := if fi_IsDir wr then 0 else fi_ModTimeUnix wr in
        p ← call (EvRead pObj);
        lockedNObj ← call (EvNew (mkObject "" (GDId p) lastMod (fi_Size wr)));
        stored ← call (EvStoreObject loc lockedNObj);
        if negb stored then mret (Some (mkResolved (Some pObj) false true None))
        else
          p1 ← call (EvRead pObj);
          p2 ← call (EvRead pObj);
          let execArgs := if decide (GDId p2 = ".")
                          then create_args_root d op b
                          else create_args d op b (GDId p1) in
          r ← call (EvExecCommand (mkCall (TagCreate loc) "sh" ["-c"; execArgs]));
          match r with
          | inl err =>
              _ ← call (EvDeleteObject loc);
              mret (Some (mkResolved None false false (Some err)))
          | inr nGDId =>
              _ ← call (EvUpdateStoredObject lockedNObj
                         (λ o, mkObject nGDId (GDPId o) (LastMod o) (Size o)));
              let op' := if decide (op = "upload") then "created" else op in
              _ ← call (EvPrint (op' +:+ ": " +:+ strings_TrimPrefix loc (binPath E)
                                  +:+ " (" +:+ getFileSizeFormatted E (fi_Size wr) +:+ ")"));
              mret (Some (mkResolved (Some lockedNObj) false false None))
          end
    end.

(** What the function does with the results of its recursive call for the
    parent (lines 111 to 117): return early ([inl]), or go on with the
    parent it got ([inr]). *)
Definition after_parent (r : option Resolved) : option Resolved + ptr :=
  match r with
  | None => inl None
  | Some r =>
      match res_err r with
      | Some err => inl (Some (mkResolved None false false (Some err)))
      | None =>
          if res_loaded r || res_locked r
          then inl (Some (mkResolved (res_obj r) (res_loaded r) (res_locked r) None))
          else match res_obj r with
               | Some pObj => inr pObj
               | None => inl None
               end
      end
  end.

(** The recursion on the parent directory has no bound in the code;
    [fuel] bounds its depth here, and [None] is a call that does not
    return (the recursion never ends, or it would go on through a nil
    pointer). *)
Fixpoint NewObject (fuel : nat) (loc : string) : prog (option Resolved) :=
  match fuel with
  | O => mret None
  | S fuel' =>
      eObj ← call (EvLoadObject loc);
      match eObj with
      | Some eObj =>
          l ← call (EvIsLocked eObj);
          mret (Some (mkResolved (Some eObj) true l None))
      | None =>
          pObj ← call (EvLoadObject (filepath_Dir E loc));
          parent ← match pObj with
                   | Some pObj => mret (inr pObj)
                   | None => r ← NewObject fuel' (filepath_Dir E loc); mret (after_parent r)
                   end;
          match parent with
          | inl early => mret early
          | inr pObj => NewObject_rest loc pObj
          end
      end
  end.

(** [UpdateObjectIfModTimeChanged]. The fields of [object] are read
    without the lock, each where the code reads it. *)
Definition UpdateObjectIfModTimeChanged (wr : WalkResp) (object : ptr)
  : prog (bool * option string) :=
  if wr_isDir wr then mret (false, None)
  else
    let currMod := wr_modTimeUnix wr in
    o1 ← call (EvRead object);
    if bool_decide (currMod ≤ LastMod o1)%Z then mret (false, None)
    else
      o2 ← call (EvRead object);
      if bool_decide (wr_size wr = Size o2) then mret (false, None)
      else
        let d := filepath_Dir E (wr_loc wr) in
        let b := filepath_Base E (wr_loc wr) in
        o3 ← call (EvRead object);
        r ← call (EvExecCommand (mkCall (TagUpdate (wr_loc wr)) "sh"
                                   ["-c"; update_args d (GDId o3) b]));
        match r with
        | inl _ => mret (false, None)
        | inr _ =>
            o4 ← call (EvRead object);
            let originSize := Size o4 in
            _ ← call (EvUpdateStoredObject object
                       (λ o, mkObject (GDId o) (GDPId o) currMod (wr_size wr)));
            _ ← call (EvPrint ("updated: " +:+ strings_TrimPrefix (wr_loc wr) (binPath E)
                                +:+ " (" +:+ getFileSizeFormatted E originSize +:+ " -> "
                                +:+ getFileSizeFormatted E (wr_size wr) +:+ ")"));
            mret (true, None)
        end.

(** [Sync]. *)
Definition Sync (fuel : nat) (wr : WalkResp) : prog (option Synced) :=
  r ← NewObject fuel (wr_loc wr);
  match r with
  | None => mret None
  | Some r =>
      match res_err r with
      | Some err => mret (Some (mkSynced false false false (Some err)))
      | None =>
          if res_locked r then mret (Some (mkSynced false false true None))
          else if negb (res_loaded r) then mret (Some (mkSynced true false false None))
          else match res_obj r with
               | None => mret None
               | Some object =>
                   u ← UpdateObjectIfModTimeChanged wr object;
                   mret (Some (mkSynced false u.1 false u.2))
               end
      end
  end.

(** The task [syncFiles] hands to the pool for one entry of a resolve
    pass: the result is the task's [error]. *)
Definition resolveTask (fuel : nat) (wrCp : WalkResp) : prog (option (option string)) :=
  r ← Sync fuel wrCp;
  match r with
  | None => mret None
  | Some r =>
      match syn_err r with
      | Some err => mret (Some (Some err))
      | None =>
          if syn_locked r
          then (_ ← call (EvRequeue wrCp); mret (Some None))
          else mret (Some None)
      end
  end.

(** [DeleteObjectGDrive]. [object] points into the private copy made by
    [CopyObjects], which nothing else refers to: it is passed by value.
    The deferred [deleteObject] runs last. *)
Definition DeleteObjectGDrive (loc : string) (object : Object) : prog unit :=
  _ ← call (EvExecCommand (mkCall (TagDelete loc) "gdrive"
                             ["files"; "delete"; GDId object; "--recursive"]));
  _ ← call (EvPrint ("deleted: " +:+ strings_TrimPrefix loc (binPath E)
                      +:+ " (" +:+ getFileSizeFormatted E (Size object) +:+ ")"));
  call (EvDeleteObject loc).

(** [SaveToFile]. *)
Definition SaveToFile : prog (option string) :=
  copy ← call EvCopyObjects;
  call (EvWriteObjectMapFile (json_Marshal copy)).
End resolver.

(** ** Start-up: reading the persisted map *)
Section startup.
Context (E : Env).

(** [readObjectMap]: the file is created when absent, and empty content
    reads as the empty JSON object. *)
Definition readObjectMap (sourceLoc : string) (fs : gmap string file_data)
  : (string + file_data) * gmap string file_data :=
  match os_OpenFile E sourceLoc with
  | Some err => (inl err, fs)
  | None =>
      let fs' := match fs !! sourceLoc with
                 | Some _ => fs
                 | None => <[sourceLoc := EmptyFile]> fs
                 end in
      let data := default EmptyFile (fs' !! sourceLoc) in
      (inr (match data with EmptyFile => JsonText [] | _ => data end), fs')
  end.

(** The decoder allocates one object per member it reads. *)
Definition load_entries (l : list (string * Object)) : list Object * gmap string ptr :=
  (l.*2, list_to_map (zip l.*1 (seq 0 (length l)))).

(** [NewObjectManager], on the disk [fs]: the error, or the process state
    with the freshly loaded store. *)
Definition NewObjectManager (c : Config) (fs : gmap string file_data) : string + World :=
  let objectMapFilePath := binPath E +:+ "/object_map.json" in
  let '(raw, fs') := readObjectMap objectMapFilePath fs in
  match raw with
  | inl err => inl err
  | inr (JsonText d) =>
      match json_Unmarshal d ∅ with
      | Some m =>
          let '(h, om) := load_entries (map_to_list m) in
          inr (mkWorld c objectMapFilePath h om fs' [] [] [])
      | None => inl "json: cannot unmarshal"
      end
  | inr _ => inl "invalid character"
  end.
End startup.

(** ** Workers running together

    A worker is [Running] its program, or [Waiting] for the backend to
    answer the [execCommand] it has issued (with the rest of its program,
    already given the answer, stored). A worker's turn is one step: an
    atomic operation, or the return of the backend's answer. *)
Inductive thread (R : Type) : Type :=
| Running (p : prog R)
| Waiting (p : prog R).
Arguments Running {R} p.
Arguments Waiting {R} p.

Definition is_exec {X : Type} (e : event X) : bool :=
  match e with EvExecCommand _ => true | _ => false end.

Definition is_waiting {R : Type} (t : thread R) : bool :=
  match t with Waiting _ => true | Running _ => false end.

Definition returned {R : Type} (t : thread R) : option R :=
  match t with Running (Ret r) => Some r | _ => None end.

Section workers.
Context (E : Env) {R : Type}.

Definition thread_step (t : thread R) (w : World) : option (thread R * World) :=
  match t with
  | Running (Ret _) => None
  | Running (Vis e k) =>
      let '(x, w') := sem E e w in
      Some (if is_exec e then Waiting (k x) else Running (k x), w')
  | Waiting p => Some (Running p, w)
  end.

(** Worker [i] takes a turn; nothing happens when it has returned. *)
Definition turn (i : nat) (s : list (thread R) * World) : list (thread R) * World :=
  match s.1 !! i with
  | Some t =>
      match thread_step t s.2 with
      | Some (t', w') => (<[i := t']> s.1, w')
      | None => s
      end
  | None => s
  end.

(** A turn in which no backend answer returns: a waiting worker stays. *)
Definition turn_nr (i : nat) (s : list (thread R) * World) : list (thread R) * World :=
  match s.1 !! i with
  | Some (Waiting _) => s
  | _ => turn i s
  end.

Definition schedule (sched : list nat) (s : list (thread R) * World) :=
  foldl (λ s i, turn i s) s sched.

Definition schedule_nr (sched : list nat) (s : list (thread R) * World) :=
  foldl (λ s i, turn_nr i s) s sched.
End workers.

(** ** The deletion phase of [syncFiles] *)
Section deletion.
Context (E : Env).

(** [deletedQueue]: the copy of the store, less every path the walk
    visits. *)
Definition deletedQueue (copy : gmap string Object) (walked : list string)
  : gmap string Object :=
  foldl (λ q loc, delete loc q) copy walked.

(** The deletion tasks, one after the other in the order [order] of the
    [range] over [deletedQueue] (Go leaves it unspecified). *)
Fixpoint deleteAll (order : list (string * Object)) : prog unit :=
  match order with
  | [] => mret tt
  | (loc, object) :: rest => _ ← DeleteObjectGDrive E loc object; deleteAll rest
  end.

(** [printSep]. *)
Definition separator : string :=
  "------------------------------------------------------------------".

(** The end of [syncFiles], from the copy of the store on: [walk] is what
    the second [filepath.Walk] gives (an error, or the paths it visits) and
    [order] the order in which [range] goes through a map. *)
Definition deletionPhase (walk : string + list string)
    (order : gmap string Object → list (string * Object)) : prog (option string) :=
  copy ← call EvCopyObjects;
  match walk with
  | inl err => mret (Some err)
  | inr walked =>
      let dq := deletedQueue copy walked in
      _ ← (if decide (dq = ∅) then mret tt
           else (_ ← deleteAll (order dq); call (EvPrint separator)));
      SaveToFile
  end.

(** The command a deletion task issues. *)
Definition delete_call (kv : string * Object) : Call :=
  mkCall (TagDelete kv.1) "gdrive" ["files"; "delete"; GDId kv.2; "--recursive"].
End deletion.

(** The calls made for [loc] at one kind of call site. *)
Definition calls_tagged (t : CallTag) (l : list Call) : list Call :=
  filter (λ c, call_tag c = t) l.

(** ** A concrete environment, for the examples

    [filepath.Dir] and [filepath.Base] on cleaned slash-separated paths, as
    [filepath.Walk] hands them out. *)
Fixpoint split_last (s : string) : option (string * string) :=
  match s with
  | EmptyString => None
  | String c t =>
      match split_last t with
      | Some (a, b) => Some (String c a, b)
      | None => if decide (c = "/"%char) then Some (EmptyString, t) else None
      end
  end.

Definition posix_Dir (p : string) : string :=
  match split_last p with
  | None => "."
  | Some (EmptyString, _) => "/"
  | Some (a, _) => a
  end.

Definition posix_Base (p : string) : string :=
  match split_last p with
  | None => if decide (p = "") then "." else p
  | Some (_, EmptyString) => "/"
  | Some (_, b) => b
  end.

(** ** Sequences of store operations

    Any steps by any workers, in the order they take effect. *)
Definition any_event := sigT event.

(** What a step answers when it is an insert attempt for [key]. *)
Definition store_result (key : string) {X : Type} (e : event X) : X → option bool :=
  match e in event T return T → option bool with
  | EvStoreObject k _ => λ b, if decide (k = key) then Some b else None
  | _ => λ _, None
  end.

Definition is_delete_of (key : string) (a : any_event) : bool :=
  match projT2 a with
  | EvDeleteObject k => bool_decide (k = key)
  | _ => false
  end.

Section sequences.
Context (E : Env).

(** The answers to the insert attempts for [key] among the steps [es]. *)
Fixpoint attempts (key : string) (es : list any_event) (w : World) : list bool :=
  match es with
  | [] => []
  | existT _ e :: rest =>
      let xw := sem E e w in
      match store_result key e xw.1 with
      | Some b => b :: attempts key rest xw.2
      | None => attempts key rest xw.2
      end
  end.

(** The steps of a program run alone, each with the state it starts in. *)
Fixpoint steps {R : Type} (p : prog R) (w : World) : list (World * any_event) :=
  match p with
  | Ret _ => []
  | Vis e k => (w, existT _ e) :: steps (k (sem E e w).1) (sem E e w).2
  end.

(** What a lookup of [key] would find: the stored object, or for the sync
    root the synthesized one. *)
Definition peekObject (key : string) (w : World) : option Object :=
  if decide (key = binPath E) then
    Some (mkObject (if decide (RootFolderID (cfg w) = "") then "."
                    else RootFolderID (cfg w)) "" 0 0)
  else deref w <$> objectMap w !! key.
End sequences.

(** A sync root [/r] holding a directory [a] with one file [f]; the backend
    answers a creation with an identifier made of the path. *)
Definition ex_stat (p : string) : string + FileInfo :=
  if decide (p = "/r/a") then inr (mkFileInfo true 50 4096)
  else if decide (p = "/r/a/f") then inr (mkFileInfo false 100 5)
  else inl "stat: no such file or directory".

Definition ex_backend (h : list Call) (c : Call) : string + string :=
  match call_tag c with
  | TagCreate l => inr ("id:" +:+ l)
  | _ => inr ""
  end.

Definition ex_env : Env :=
  mkEnv "/r" posix_Dir posix_Base ex_stat (λ _, None) (λ _ _, None) ex_backend (λ _, "-").

(** The same with a backend that refuses everything. *)
Definition ex_env_down : Env :=
  mkEnv "/r" posix_Dir posix_Base ex_stat (λ _, None) (λ _ _, None)
        (λ _ _, inl "backend down") (λ _, "-").

Definition ex_cfg : Config := mkConfig "acct" "" "/r" 1 2 0 false 0.

(** Nothing tracked yet. *)
Definition ex_w0 : World := mkWorld ex_cfg "/r/object_map.json" [] ∅ ∅ [] [] [].

(** [/r/a] tracked and resolved, [/r/a/f] not yet known. *)
Definition ex_w1 : World :=
  mkWorld ex_cfg "/r/object_map.json" [mkObject "idA" "." 0 4096]
          {[ "/r/a" := 0%nat ]} ∅ [] [] [].

(** [/r/a] and [/r/a/f] both tracked and resolved. *)
Definition ex_w2 : World :=
  mkWorld ex_cfg "/r/object_map.json"
          [mkObject "idA" "." 0 4096; mkObject "idF" "idA" 100 5]
          {[ "/r/a" := 0%nat; "/r/a/f" := 1%nat ]} ∅ [] [] [].

Definition ex_wr_a : WalkResp := mkWalkResp "/r/a" 50 true 4096.
Definition ex_wr_f : WalkResp := mkWalkResp "/r/a/f" 100 false 5.

(** Three insert attempts for [/r/a] with a lookup in between. *)
Definition ex_attempts : list any_event :=
  [existT _ (EvStoreObject "/r/a" 0%nat); existT _ (EvLoadObject "/r/a");
   existT _ (EvStoreObject "/r/a" 1%nat); existT _ (EvStoreObject "/r/a" 2%nat)].

(** [/r/a/f] seen again, later and larger; and later with the size it had. *)
Definition ex_wr_f_changed : WalkResp := mkWalkResp "/r/a/f" 200 false 9.
Definition ex_wr_f_touched : WalkResp := mkWalkResp "/r/a/f" 200 false 5.

(** The creation command [NewObject] issues for [loc], a directory or not,
    under a parent with the identifier [parent]. *)
Definition create_call (E : Env) (loc : string) (isdir : bool) (parent : string) : Call :=
  let d := filepath_Dir E loc in
  let b := filepath_Base E loc in
  let op := if isdir then "mkdir" else "upload" in
  mkCall (TagCreate loc) "sh"
    ["-c"; if decide (parent = ".") then create_args_root d op b
           else create_args d op b parent].

(** A backend that refuses its first call and serves the later ones. *)
Definition ex_env_flaky : Env :=
  mkEnv "/r" posix_Dir posix_Base ex_stat (λ _, None) (λ _ _, None)
        (λ h c, match h with [] => inl "quota exceeded" | _ => ex_backend h c end)
        (λ _, "-").

(** Parent before child, as a property of one step taken in the state
    [s.1]. An insert that goes through is for a path other than the sync
    root whose parent, looked up in that state, has a non-empty identifier,
    and the inserted object names that identifier as its parent. A creation
    command is the one [NewObject] builds from the parent's identifier in
    that state, which is not empty. *)
Definition parent_before_child (E : Env) (s : World * any_event) : Prop :=
  match projT2 s.2 with
  | EvStoreObject k o =>
      objectMap s.1 !! k = None →
      k ≠ binPath E ∧
      ∃ po, peekObject E (filepath_Dir E k) s.1 = Some po ∧ GDId po ≠ "" ∧
            GDPId (deref s.1 o) = GDId po
  | EvExecCommand c =>
      ∀ k, call_tag c = TagCreate k →
           ∃ po isdir, peekObject E (filepath_Dir E k) s.1 = Some po ∧ GDId po ≠ "" ∧
                       c = create_call E k isdir (GDId po)
  | _ => True
  end.

(** What [NewObject] knows of the parent [pObj] of [loc] when it goes on to
    create [loc] in the state [w]: it is what a lookup of the parent
    directory finds. *)
Definition parent_known (E : Env) (loc : string) (pObj : ptr) (w : World) : Prop :=
  (filepath_Dir E loc = binPath E ∧ RootFolderID (cfg w) ≠ "" ∧
   (pObj < length (heap w))%nat ∧ GDId (deref w pObj) = RootFolderID (cfg w)) ∨
  (filepath_Dir E loc ≠ binPath E ∧ objectMap w !! filepath_Dir E loc = Some pObj).

(** What a string field and an object become on the way through JSON. *)
Definition coerce_Object (o : Object) : Object :=
  mkObject (utf8_coerce (GDId o)) (utf8_coerce (GDPId o)) (LastMod o) (Size o).

(** A store all of whose paths and identifiers are well-formed UTF-8. *)
Definition store_utf8 (w : World) : Prop :=
  ∀ k o, objectMap w !! k = Some o →
         utf8_valid k = true ∧ utf8_valid (GDId (deref w o)) = true ∧
         utf8_valid (GDPId (deref w o)) = true.

(** Every pointer of the map refers to an object. *)
Definition store_live (w : World) : Prop :=
  ∀ k o, objectMap w !! k = Some o → (o < length (heap w))%nat.

(** A file under [/r] whose name is the single byte 255, which is not
    UTF-8, tracked and resolved. *)
Definition ex_bad_name : string := "/r/" +:+ String (ascii_of_N 255) EmptyString.

Definition ex_w_bad : World :=
  mkWorld ex_cfg "/r/object_map.json" [mkObject "idX" "." 100 5]
          {[ ex_bad_name := 0%nat ]} ∅ [] [] [].

(** One resolve pass over the fresh tree with two workers: worker 0 has the
    task of [/r/a/f], worker 1 the task of [/r/a]. Worker 0 takes two turns
    (its two lookups, which both miss), worker 1 then runs to its end, and
    worker 0 goes on. *)
Definition ex_race_pool : list (thread (option (option string))) :=
  [Running (resolveTask ex_env 3 ex_wr_f); Running (resolveTask ex_env 3 ex_wr_a)].

Definition ex_race_schedule : list nat :=
  [0; 0]%nat ++ replicate 14 1%nat ++ replicate 14 0%nat.

(** ** Workers racing for one path

    What a worker racing to create [loc] may rely on while the others run.
    As long as no backend answer returns, nobody removes an entry or writes
    to an object: a later state [w'] extends an earlier state [w]. *)
Definition root_id (w : World) : string :=
  if decide (RootFolderID (cfg w) = "") then "." else RootFolderID (cfg w).

Record ext (w w' : World) : Prop := mk_ext {
  ext_heap : ∃ l, heap w' = heap w ++ l;
  ext_map : ∀ k p, objectMap w !! k = Some p → objectMap w' !! k = Some p;
  ext_root : root_id w' = root_id w
}.

(** The steps that keep to that: all but a removal and a write to an
    object. *)
Definition benign {X : Type} (e : event X) : bool :=
  match e with
  | EvUpdateStoredObject _ _ | EvDeleteObject _ => false
  | _ => true
  end.

Definition exec_call {X : Type} (e : event X) : option Call :=
  match e with EvExecCommand c => Some c | _ => None end.

(** Where a worker stands: it has not seen an entry for [loc] ([Fresh]); it
    has seen one, not its own ([Known]); it has inserted the placeholder
    itself ([Owner]). *)
Inductive mode := Fresh | Known | Owner.

Definition deferred (r : option Resolved) : Prop :=
  ∃ r', r = Some r' ∧ res_err r' = None ∧ (res_locked r' = true ∨ res_loaded r' = true).

Section racing.
Context (E : Env) (loc : string) (c : Call).

(** [safe n st w p]: from any state that extends [w], the program [p] of a
    worker in mode [st] takes at most [n] steps until it returns or waits
    for the backend; every step is benign; it becomes [Owner] only by the
    insert for [loc] going through, and [Known] only when [loc] has an
    entry; the only command it issues is [c], as [Owner]; and when it
    returns, it is [Known] and returns a deferral. *)
Fixpoint safe (n : nat) (st : mode) (w : World) (p : prog (option Resolved))
    {struct p} : Prop :=
  match p with
  | Ret r => st = Known ∧ deferred r
  | Vis e k =>
      match n with
      | O => False
      | S n' =>
          benign e = true ∧
          ∀ w', ext w w' →
            if is_exec e then st = Owner ∧ exec_call e = Some c
            else
              match store_result loc e (sem E e w').1 with
              | Some true => st = Fresh ∧ safe n' Owner (sem E e w').2 (k (sem E e w').1)
              | _ =>
                  ∃ st', (st' = st ∨
                          (st = Fresh ∧ st' = Known ∧
                           is_Some (objectMap (sem E e w').2 !! loc))) ∧
                         safe n' st' (sem E e w').2 (k (sem E e w').1)
              end
      end
  end.

(** The workers [ts] with their modes and step budgets [ms] in the state
    [w], started from [w0]: at most one is [Owner], and exactly then [loc]
    has an entry; only the owner may be waiting, and then its command is the
    one call made since [w0]. *)
Definition worker_ok (w : World) (t : thread (option Resolved)) (m : nat * mode) : Prop :=
  match t with
  | Running p => safe m.1 m.2 w p
  | Waiting _ => m.2 = Owner
  end.

Record race_inv (w0 : World) (ts : list (thread (option Resolved)))
       (ms : list (nat * mode)) (w : World) : Prop := mk_race_inv {
  ri_workers : Forall2 (worker_ok w) ts ms;
  ri_owner : ∀ i j mi mj, ms !! i = Some mi → ms !! j = Some mj →
                          mi.2 = Owner → mj.2 = Owner → i = j;
  ri_entry : is_Some (objectMap w !! loc) ↔ ∃ i m, ms !! i = Some m ∧ m.2 = Owner;
  ri_known : ∀ i m, ms !! i = Some m → m.2 = Known → is_Some (objectMap w !! loc);
  ri_calls : (Forall (λ t, is_waiting t = false) ts ∧ calls w = calls w0) ∨
             (Exists (λ t, is_waiting t = true) ts ∧ calls w = calls w0 ++ [c])
}.
End racing.

(** A worker that has returned or waits for the backend. *)
Definition is_quiescent {R : Type} (t : thread R) : bool :=
  match t with
  | Waiting _ | Running (Ret _) => true
  | Running (Vis _ _) => false
  end.

(** What the race for [loc] starts from and keeps: [loc] is not the sync
    root, it is there on the disk as [fi], and what a lookup of its parent
    directory finds has the identifier [pid], which is not empty. *)
Definition race_ready (E : Env) (loc : string) (fi : FileInfo) (pid : string)
    (w : World) : Prop :=
  loc ≠ binPath E ∧ os_Stat E loc = inr fi ∧ pid ≠ "" ∧
  ((filepath_Dir E loc = binPath E ∧ root_id w = pid) ∨
   (filepath_Dir E loc ≠ binPath E ∧
    ∃ dp, objectMap w !! filepath_Dir E loc = Some dp ∧ GDId (deref w dp) = pid)).

(** The parent object a worker holds. *)
Definition holds_parent (pid : string) (pObj : ptr) (w : World) : Prop :=
  (pObj < length (heap w))%nat ∧ GDId (deref w pObj) = pid.

(** Three workers on [/r/a/f], taking turns one after the other, ten rounds;
    and two workers likewise. *)
Definition ex_round_robin3 : list nat := concat (replicate 10 [0; 1; 2]%nat).
Definition ex_round_robin2 : list nat := concat (replicate 10 [0; 1]%nat).

(** ** Workers of a pass, with backend answers returning

    The steps that workers take, in the order of the schedule, each with the
    state it is taken in. *)
Fixpoint taken (E : Env) {R : Type} (sched : list nat) (s : list (thread R) * World)
    : list (World * any_event) :=
  match sched with
  | [] => []
  | i :: rest =>
      match s.1 !! i with
      | Some (Running (Vis e k)) => (s.2, existT _ e) :: taken E rest (turn E i s)
      | _ => taken E rest (turn E i s)
      end
  end.

Definition thread_prog {R : Type} (t : thread R) : prog R :=
  match t with Running p | Waiting p => p end.

(** What a worker has in hand of the store: nothing; an object it has
    allocated and not inserted; or the placeholder it has inserted under
    [k] and neither completed nor removed. *)
Inductive own := Idle | Held (o : ptr) | Placed (k : string) (o : ptr).

Definition own_obj (me : own) : option ptr :=
  match me with Idle => None | Held o | Placed _ o => Some o end.

(** The placeholders removed so far, [ret], are never touched again. *)
Definition dead_ok (w : World) (ret : gset ptr) : Prop :=
  ∀ o, o ∈ ret → (o < length (heap w))%nat ∧ GDId (deref w o) = "".

(** What a worker holding [me] relies on while the others take steps, from
    the state [w] with the removed placeholders [ret] to [w'] with [ret']:
    objects are only added; an identifier that is set stays; an entry stays
    unless its placeholder is removed; the root identifier stays; and what
    the worker has in hand is left alone. *)
Record rely (me : own) (w : World) (ret : gset ptr) (w' : World) (ret' : gset ptr)
    : Prop := mk_rely {
  r_len : (length (heap w) ≤ length (heap w'))%nat;
  r_res : ∀ o, GDId (deref w o) ≠ "" → GDId (deref w' o) = GDId (deref w o);
  r_map : ∀ k o, objectMap w !! k = Some o → objectMap w' !! k = Some o ∨ o ∈ ret';
  r_root : root_id w' = root_id w;
  r_ret : ret ⊆ ret';
  r_mine : match me with
           | Idle => True
           | Held o =>
               (o < length (heap w))%nat →
               deref w' o = deref w o ∧ (o ∉ ret → o ∉ ret')
           | Placed k o =>
               (o < length (heap w))%nat → objectMap w !! k = Some o → o ∉ ret →
               deref w' o = deref w o ∧ objectMap w' !! k = Some o ∧ o ∉ ret'
           end
}.

(** What a worker holding [me] may do in the state [w]: allocate a
    placeholder when it holds nothing; insert what it holds; complete or
    remove the placeholder it has placed, while that is still an unset
    entry; change the other fields of an object whose identifier is set. *)
Definition allowed {X : Type} (me : own) (e : event X) (w : World) (ret : gset ptr) : Prop :=
  match e with
  | EvNew v => me = Idle ∧ GDId v = ""
  | EvStoreObject k o => me = Held o ∧ (o < length (heap w))%nat ∧ o ∉ ret
  | EvUpdateStoredObject o f =>
      (∃ k, me = Placed k o ∧ (o < length (heap w))%nat ∧ objectMap w !! k = Some o ∧
            GDId (deref w o) = "" ∧ o ∉ ret) ∨
      (me = Idle ∧ GDId (deref w o) ≠ "" ∧ ∀ x, GDId (f x) = GDId x)
  | EvDeleteObject k =>
      ∃ o, me = Placed k o ∧ (o < length (heap w))%nat ∧ objectMap w !! k = Some o ∧
           GDId (deref w o) = ""
  | _ => True
  end.

Definition next_own {X : Type} (me : own) (e : event X) (w : World) : own :=
  match e with
  | EvNew _ => Held (length (heap w))
  | EvStoreObject k o =>
      match objectMap w !! k with None => Placed k o | Some _ => Idle end
  | EvUpdateStoredObject _ _ | EvDeleteObject _ => Idle
  | _ => me
  end.

Definition next_ret {X : Type} (me : own) (e : event X) (ret : gset ptr) : gset ptr :=
  match e with
  | EvDeleteObject _ => match me with Placed _ o => ret ∪ {[o]} | _ => ret end
  | _ => ret
  end.

Section protocol.
Context (E : Env).

(** [wp me w ret p Q]: the program [p] of a worker holding [me], started in
    [w], takes only allowed steps, each of them keeping parent before child
    in the state it is taken in, whatever the others do in between; and it
    ends with [Q]. *)
Fixpoint wp {A : Type} (me : own) (w : World) (ret : gset ptr) (p : prog A)
    (Q : A → own → World → gset ptr → Prop) {struct p} : Prop :=
  match p with
  | Ret x => Q x me w ret
  | Vis e k =>
      ∀ w' ret', rely me w ret w' ret' → dead_ok w' ret' →
        parent_before_child E (w', existT _ e) ∧
        allowed me e w' ret' ∧
        wp (next_own me e w') (sem E e w').2 (next_ret me e ret') (k (sem E e w').1) Q
  end.

(** The workers [ts] holding [owns], with the removed placeholders [ret]. *)
Record conc_inv {R : Type} (ts : list (thread R)) (owns : list own) (ret : gset ptr)
    (w : World) : Prop := mk_conc_inv {
  ci_wp : Forall2 (λ t me, wp me w ret (thread_prog t) (λ _ _ _ _, True)) ts owns;
  ci_dead : dead_ok w ret;
  ci_held : ∀ i me o, owns !! i = Some me → own_obj me = Some o →
                      (o < length (heap w))%nat ∧ GDId (deref w o) = "";
  ci_distinct : ∀ i j mi mj o, owns !! i = Some mi → owns !! j = Some mj →
                               own_obj mi = Some o → own_obj mj = Some o → i = j
}.
End protocol.

(** What a worker knows of the parent [pObj] it has looked up for [loc]:
    for the sync root it is the synthesized object; otherwise it is the
    entry of the parent directory, unless that was a placeholder which has
    been removed since. *)
Definition found (E : Env) (loc : string) (pObj : ptr) (w : World) (ret : gset ptr) : Prop :=
  (filepath_Dir E loc = binPath E ∧ GDId (deref w pObj) = root_id w) ∨
  (filepath_Dir E loc ≠ binPath E ∧
   (objectMap w !! filepath_Dir E loc = Some pObj ∨ pObj ∈ ret)).

(** The same once the parent's identifier [g] has been seen set. *)
Definition parent_held (E : Env) (loc : string) (pObj : ptr) (g : string)
    (w : World) (ret : gset ptr) : Prop :=
  g ≠ "" ∧ GDId (deref w pObj) = g ∧ found E loc pObj w ret.

(** The placeholder [o] with the fields [v], allocated and not inserted;
    and inserted under [loc]. *)
Definition held_ok (o : ptr) (v : Object) (w : World) (ret : gset ptr) : Prop :=
  (o < length (heap w))%nat ∧ deref w o = v ∧ o ∉ ret.

Definition placed_ok (loc : string) (o : ptr) (v : Object) (w : World) (ret : gset ptr)
    : Prop :=
  (o < length (heap w))%nat ∧ objectMap w !! loc = Some o ∧ deref w o = v ∧ o ∉ ret.

(** What [NewObject] has established when it returns: it holds nothing;
    and when it returns an object without error and not locked, that object
    has its identifier set if it was loaded, and else is the entry of
    [loc] unless removed since. *)
Definition resolved_post (loc : string) (r : option Resolved) (me : own) (w : World)
    (ret : gset ptr) : Prop :=
  me = Idle ∧
  ∀ r0, r = Some r0 → res_err r0 = None → res_locked r0 = false →
        ∃ o, res_obj r0 = Some o ∧
             if res_loaded r0 then GDId (deref w o) ≠ ""
             else objectMap w !! loc = Some o ∨ o ∈ ret.

(** A worker of the pool runs the tasks it takes from the queue one after
    the other; [jobs] are the ones it takes in a resolve pass, each with the
    bound on the depth of its recursion. A task that failed and is tried
    again ([pool.WithRetry]) is taken once more. A task that does not return
    ends the worker. *)
Fixpoint poolWorker (E : Env) (jobs : list (nat * WalkResp)) : prog (option unit) :=
  match jobs with
  | [] => mret (Some tt)
  | job :: rest =>
      r ← resolveTask E job.1 job.2;
      match r with
      | None => mret None
      | Some _ => poolWorker E rest
      end
  end.

(** ** The deletion tasks on the pool *)

(** Where a worker of the pool stands in the deletion tasks it takes: about
    to start the tasks [js]; waiting for the backend's answer in the task of
    [loc]; about to print; about to run the deferred [deleteObject]. *)
Inductive dconf :=
| CStart (js : list (string * Object))
| CAnswer (loc : string) (object : Object) (js : list (string * Object))
| CPrint (loc : string) (object : Object) (js : list (string * Object))
| CRemove (loc : string) (object : Object) (js : list (string * Object)).

Definition pend_exec (c : dconf) : list (string * Object) :=
  match c with
  | CStart js | CAnswer _ _ js | CPrint _ _ js | CRemove _ _ js => js
  end.

Definition pend_remove (c : dconf) : list (string * Object) :=
  match c with
  | CStart js => js
  | CAnswer loc object js | CPrint loc object js | CRemove loc object js => (loc, object) :: js
  end.

Definition dstep (c : dconf) : dconf :=
  match c with
  | CStart [] => CStart []
  | CStart ((loc, object) :: js) => CAnswer loc object js
  | CAnswer loc object js => CPrint loc object js
  | CPrint loc object js => CRemove loc object js
  | CRemove _ _ js => CStart js
  end.

Section deletion_pool.
Context (E : Env).

(** The line a deletion task prints. *)
Definition deleted_line (loc : string) (object : Object) : string :=
  "deleted: " +:+ strings_TrimPrefix loc (binPath E)
    +:+ " (" +:+ getFileSizeFormatted E (Size object) +:+ ")".

Definition deletion_thread (c : dconf) : thread unit :=
  match c with
  | CStart js => Running (deleteAll E js)
  | CAnswer loc object js =>
      Waiting (_ ← (_ ← call (EvPrint (deleted_line loc object)); call (EvDeleteObject loc));
               deleteAll E js)
  | CPrint loc object js =>
      Running (_ ← (_ ← call (EvPrint (deleted_line loc object)); call (EvDeleteObject loc));
               deleteAll E js)
  | CRemove loc object js =>
      Running (_ ← call (EvDeleteObject loc); deleteAll E js)
  end.

Definition deffect (c : dconf) (w : World) : World :=
  match c with
  | CStart [] => w
  | CStart (kv :: _) => set_calls (calls w ++ [delete_call kv]) w
  | CAnswer _ _ _ => w
  | CPrint loc object _ => set_console (console w ++ [deleted_line loc object]) w
  | CRemove loc _ _ => deleteObject loc w
  end.

(** What the pool has done so far to the state [w0] it started in, with
    the tasks [all]: [executed] are the tasks whose command has been issued,
    [removed] those whose entry has been deleted, in that order. *)
Record del_inv (all : list (string * Object)) (w0 : World) (cs : list dconf) (w : World)
    (executed removed : list (string * Object)) : Prop := mk_del_inv {
  di_calls : calls w = calls w0 ++ (delete_call <$> executed);
  di_map : objectMap w = foldl (λ m kv, delete kv.1 m) (objectMap w0) removed;
  di_heap : heap w = heap w0;
  di_exec : executed ++ concat (pend_exec <$> cs) ≡ₚ all;
  di_remove : removed ++ concat (pend_remove <$> cs) ≡ₚ all
}.

(** The deletion phase of [syncFiles] on the pool, from the copy of the
    store on. [walk] is what the second [filepath.Walk] gives; [share q] are
    the tasks of the queue [q] as the workers take them, one list for each
    worker; [sched] is the order of the workers' turns until [bw.Wait]
    returns, which it does when every worker has finished: [None] is a wait
    that does not return. *)
Definition deletionPool (walk : string + list string)
    (share : gmap string Object → list (list (string * Object)))
    (sched : list nat) (w : World) : option (option string * World) :=
  let copy := CopyObjects w in
  match walk with
  | inl err => Some (Some err, w)
  | inr walked =>
      let dq := deletedQueue copy walked in
      if decide (dq = ∅) then Some (run E SaveToFile w)
      else
        let s := schedule E sched ((λ js, Running (deleteAll E js)) <$> share dq, w) in
        if forallb (λ t, bool_decide (returned t = Some tt)) s.1
        then Some (run E (_ ← call (EvPrint separator); SaveToFile) s.2)
        else None
  end.

End deletion_pool.

(** Two workers: the first takes the first task of the queue, the second
    the others. *)
Definition ex_share (q : gmap string Object) : list (list (string * Object)) :=
  [take 1 (map_to_list q); drop 1 (map_to_list q)].

(** ** The size formatter

    [getFileSizeFormatted], which the environment above leaves open because
    its result is only printed. [byteSize] is an [int64]. The two
    divisions are by powers of two, so in [float64] they are exact; what
    rounds is the conversion [float64(byteSize)], above [2 ^ 53], and the
    printing with [%.2f], which gives the decimal nearest to the exact
    value, a tie going to the even digit.

    [a / b] rounded to the nearest integer, ties to the even one, for
    [0 ≤ a] and [0 < b]. *)
Definition round_half_even (a b : Z) : Z :=
  let q := a / b in
  let r := a mod b in
  if 2 * r <? b then q
  else if b <? 2 * r then q + 1
  else if Z.even q then q else q + 1.

(** [float64(n)] for [0 ≤ n]: the nearest value with a significand of 53
    bits, ties to even; it is an integer again. *)
Definition float64_of_int (n : Z) : Z :=
  if n <? 2 ^ 53 then n
  else let e := Z.log2 n - 52 in round_half_even n (2 ^ e) * 2 ^ e.

(** What [%.2f] prints for [h] hundredths, with the sign in front. *)
Definition format_f2 (neg : bool) (h : Z) : string :=
  (if neg then "-" else "") +:+ pretty (h / 100) +:+ "." +:+
  pretty (h mod 100 / 10) +:+ pretty (h mod 10).

(** [fmt.Sprintf("%.2f", float64(n)/d)] for [d] the power [2 ^ k]. The
    sign is printed for every negative value, also when the digits are all
    zero. *)
Definition Sprintf_f2 (n k : Z) : string :=
  format_f2 (n <? 0) (round_half_even (float64_of_int (Z.abs n) * 100) (2 ^ k)).

Module size_format.
Definition getFileSizeFormatted (byteSize : Z) : string :=
  let fileSizeMB := Sprintf_f2 byteSize 20 in
  if decide (fileSizeMB ≠ "0.00") then fileSizeMB +:+ " MB"
  else
    let fileSizeKB := Sprintf_f2 byteSize 10 in
    if decide (fileSizeKB ≠ "0.00") then fileSizeKB +:+ " KB"
    else pretty byteSize +:+ " B".
End size_format.

(** ** Resolve tasks run by one worker

    What resolve tasks run one after the other leave as it is, from [w] to
    [w']: the entries there are, the identifiers of the objects there are,
    the disk; and the commands they add are no deletions. *)
Record kept (w w' : World) : Prop := mk_kept {
  kept_map : ∀ k o, objectMap w !! k = Some o → objectMap w' !! k = Some o;
  kept_heap : (length (heap w) ≤ length (heap w'))%nat;
  kept_ids : ∀ o, (o < length (heap w))%nat →
               GDId (deref w' o) = GDId (deref w o) ∧
               GDPId (deref w' o) = GDPId (deref w o);
  kept_files : files w' = files w;
  kept_calls : ∃ l, calls w' = calls w ++ l ∧
                    Forall (λ c, ∀ k, call_tag c ≠ TagDelete k) l
}.

(** Every entry refers to an object and has its identifier set. *)
Definition store_resolved (w : World) : Prop :=
  ∀ k o, objectMap w !! k = Some o →
         (o < length (heap w))%nat ∧ GDId (deref w o) ≠ "".

(** The paths [tr] in an order that has every directory before what it
    holds, as [filepath.Walk] lists them: each path is the sync root, or
    directly below it, or below a path that is tracked ([known]) or comes
    earlier in the list. *)
Fixpoint parents_first (E : Env) (known : gset string) (tr : list WalkResp) : bool :=
  match tr with
  | [] => true
  | wr :: rest =>
      (bool_decide (wr_loc wr = binPath E)
       || bool_decide (filepath_Dir E (wr_loc wr) = binPath E)
       || bool_decide (filepath_Dir E (wr_loc wr) ∈ known))
      && parents_first E ({[wr_loc wr]} ∪ known) rest
  end.

(** The number of creation commands for [loc] among [l]. *)
Definition creations (loc : string) (l : list Call) : nat :=
  length (calls_tagged (TagCreate loc) l).

(** The same surroundings with another backend. *)
Definition with_backend (b : list Call → Call → string + string) (E : Env) : Env :=
  mkEnv (binPath E) (filepath_Dir E) (filepath_Base E) (os_Stat E) (os_OpenFile E)
        (os_WriteFile E) b (getFileSizeFormatted E).

(** [/r/a] tracked with an empty identifier. *)
Definition ex_w_stuck : World :=
  mkWorld ex_cfg "/r/object_map.json" [mkObject "" "." 0 4096]
          {[ "/r/a" := 0%nat ]} ∅ [] [] [].

(** The empty store in test mode. *)
Definition ex_w_test : World :=
  mkWorld (mkConfig "acct" "" "/r" 1 2 0 true 0) "/r/object_map.json" [] ∅ ∅ [] [] [].

(** The walk of the tree of the examples. *)
Definition ex_walk : list WalkResp := [mkWalkResp "/r" 10 true 4096; ex_wr_a; ex_wr_f].

(** Two paths that differ in a byte that is not UTF-8. *)
Definition ex_w_twins : World :=
  mkWorld ex_cfg "/r/object_map.json"
          [mkObject "idX" "." 100 5; mkObject "idY" "." 100 5]
          {[ "/r/" +:+ String (ascii_of_N 255) EmptyString := 0%nat;
             "/r/" +:+ String (ascii_of_N 254) EmptyString := 1%nat ]} ∅ [] [] [].

(** ** The race for one path, with backend answers returning

    The path [loc] and the directories above it that have no entry yet:
    [anc i] is the [i]-th directory above [loc]. A worker that finds none
    of them goes up to the first directory that is tracked, or the sync
    root, and creates them from the top down.

    What a worker relies on while the others run and no creation is
    refused: objects are only added, an identifier that is set stays set,
    and an entry stays. *)
Record grown (w w' : World) : Prop := mk_grown {
  g_len : (length (heap w) ≤ length (heap w'))%nat;
  g_set : ∀ o, GDId (deref w o) ≠ "" → GDId (deref w' o) ≠ "";
  g_map : ∀ key o, objectMap w !! key = Some o → objectMap w' !! key = Some o
}.

Definition removes {X : Type} (e : event X) : bool :=
  match e with EvDeleteObject _ => true | _ => false end.

(** The step is the creation command for [key]. *)
Definition creates (key : string) {X : Type} (e : event X) : bool :=
  match e with
  | EvExecCommand c => bool_decide (call_tag c = TagCreate key)
  | _ => false
  end.

(** Where a worker stands in the race for the path: it has not inserted
    the placeholder; it has, and has not issued the command yet; it has
    issued the command. *)
Inductive phase := Seeking | Holding | Issued.

#[global] Instance phase_eq_dec : EqDecision phase.
Proof. solve_decision. Defined.

(** [NewObject] returns the object it has created. *)
Definition created (r : option Resolved) : Prop :=
  ∃ r' o, r = Some r' ∧ res_obj r' = Some o ∧ res_loaded r' = false ∧
          res_locked r' = false ∧ res_err r' = None.

(** The steps that worker [me] takes, in the order of the schedule, each
    with the state it is taken in. *)
Fixpoint taken_by (E : Env) {R : Type} (me : nat) (sched : list nat)
    (s : list (thread R) * World) : list (World * any_event) :=
  match sched with
  | [] => []
  | i :: rest =>
      match s.1 !! i with
      | Some (Running (Vis e k)) =>
          (if decide (i = me) then [(s.2, existT _ e)] else []) ++
          taken_by E me rest (turn E i s)
      | _ => taken_by E me rest (turn E i s)
      end
  end.

Definition creation_of (key : string) (a : World * any_event) : bool :=
  creates key (projT2 a.2).

(** A program that returns after at most [n] steps. *)
Fixpoint within {A : Type} (n : nat) (p : prog A) {struct p} : Prop :=
  match p with
  | Ret _ => True
  | Vis e k => match n with O => False | S n' => ∀ x, within n' (k x) end
  end.

Section chain.
Context (E : Env) (loc : string) (k : nat).

(** The path and the directories above it: [anc 0] is the path, [anc 1]
    its parent directory, and so on. *)
Definition anc (i : nat) : string := Nat.iter i (filepath_Dir E) loc.

Definition present (i : nat) (w : World) : Prop := is_Some (objectMap w !! anc i).

(** Among the path and its first [k] ancestors a directory has its entry
    before what it holds. *)
Definition parents_present (w : World) : Prop :=
  ∀ i, (i < k)%nat → present i w → present (S i) w.

(** The directory above the chain is the sync root, or tracked with its
    identifier set. *)
Definition base_ok (w : World) : Prop :=
  anc (S k) = binPath E ∨
  (anc (S k) ≠ binPath E ∧
   ∃ dp, objectMap w !! anc (S k) = Some dp ∧ GDId (deref w dp) ≠ "").

(** What the race for [loc] starts from: neither the path nor its first
    [k] ancestors is tracked or the sync root, the next ancestor is the
    sync root or tracked with its identifier set; [os.Stat] finds each of
    them; and the backend accepts the creation command of each, answering
    with an identifier that is not empty for the directories. *)
Record chain_ready (w0 : World) : Prop := mk_chain_ready {
  cr_root : ∀ i, (i ≤ k)%nat → anc i ≠ binPath E;
  cr_absent : ∀ i, (i ≤ k)%nat → objectMap w0 !! anc i = None;
  cr_stat : ∀ i, (i ≤ k)%nat → ∃ fi, os_Stat E (anc i) = inr fi;
  cr_backend : ∀ i h c, (i ≤ k)%nat → call_tag c = TagCreate (anc i) →
                 ∃ id, backend E h c = inr id ∧ ((1 ≤ i)%nat → id ≠ "");
  cr_base : base_ok w0
}.

(** [NRq j w p Q]: started in [w], and whatever the others do, the program
    [p] does not return as long as [anc j] has no entry, unless with [Q]. *)
Fixpoint NRq {A : Type} (j : nat) (w : World) (p : prog A) (Q : A → World → Prop)
    {struct p} : Prop :=
  present j w ∨
  match p with
  | Ret r => Q r w
  | Vis e k' =>
      ∀ w', grown w w' → parents_present w' → ¬ present j w' →
            NRq j (sem E e w').2 (k' (sem E e w').1) Q
  end.

Definition next_phase (g : phase) {X : Type} (e : event X) (x : X) : phase :=
  match store_result loc e x with
  | Some true => Holding
  | _ => if creates loc e then Issued else g
  end.

(** [Tq g w p Q Qn]: started in [w] by a worker in phase [g], and whatever
    the others do, the program [p] removes no entry; inserts the
    placeholder of [loc] only when [Seeking] and issues the creation
    command of [loc] only when [Holding]; inserts an entry only when the
    directory above has one; after inserting the placeholder of an ancestor
    does not return before the directory below has its entry, unless with
    [Qn]; and ends with [Q]. *)
Fixpoint Tq {A : Type} (g : phase) (w : World) (p : prog A)
    (Q : A → phase → World → Prop) (Qn : nat → A → World → Prop) {struct p} : Prop :=
  match p with
  | Ret r => Q r g w
  | Vis e k' =>
      ∀ w', grown w w' →
        removes e = false ∧
        (store_result loc e (sem E e w').1 = Some true → g = Seeking) ∧
        (creates loc e = true → g = Holding) ∧
        (∀ i, (i < k)%nat → store_result (anc i) e (sem E e w').1 = Some true →
              present (S i) w') ∧
        (∀ j, (j < k)%nat → store_result (anc (S j)) e (sem E e w').1 = Some true →
              NRq j (sem E e w').2 (k' (sem E e w').1) (Qn j)) ∧
        Tq (next_phase g e (sem E e w').1) (sem E e w').2 (k' (sem E e w').1) Q Qn
  end.

(** What the call for [anc i] returns with: a deferral; or the object it
    has created, which is the entry of [anc i], with its identifier set
    when [anc i] is a directory of the chain. *)
Definition created_at (i : nat) (r : option Resolved) (w : World) : Prop :=
  ∃ r' o, r = Some r' ∧ res_obj r' = Some o ∧ res_loaded r' = false ∧
          res_locked r' = false ∧ res_err r' = None ∧
          objectMap w !! anc i = Some o ∧ ((1 ≤ i)%nat → GDId (deref w o) ≠ "").

Definition level_post (i : nat) (r : option Resolved) (g : phase) (w : World) : Prop :=
  (g = Seeking ∧ deferred r) ∨
  (g = (if decide (i = 0%nat) then Issued else Seeking) ∧ created_at i r w).

Definition level_postn (i : nat) (j : nat) (r : option Resolved) (w : World) : Prop :=
  S j = i ∧ created_at i r w.

(** The workers [ts] in their phases [gs], started from [w0]. *)
(** What the call for the parent directory hands to the level below. *)
Definition parent_post (i : nat) (x : option Resolved + ptr) (g : phase) (w : World) : Prop :=
  ∃ r, x = after_parent r ∧ level_post (S i) r g w.

Definition parent_postn (i j : nat) (x : option Resolved + ptr) (w : World) : Prop :=
  ∃ r, x = after_parent r ∧ level_postn (S i) j r w.

(** The worker that has inserted the placeholder for [loc], if any, and
    whether it has issued the creation command. *)
Definition phase_of (h : option (nat * bool)) (i : nat) : phase :=
  match h with
  | Some (j, b) => if decide (i = j) then (if b then Issued else Holding) else Seeking
  | None => Seeking
  end.

Definition next_holder (h : option (nat * bool)) (i : nat) {X : Type} (e : event X) (x : X)
    : option (nat * bool) :=
  match store_result loc e x with
  | Some true => Some (i, false)
  | _ => if creates loc e then Some (i, true) else h
  end.

Definition issued_by (h : option (nat * bool)) (me : nat) : nat :=
  match h with
  | Some (j, true) => if decide (j = me) then 1 else 0
  | _ => 0
  end.

(** The creation commands for [loc] in the step that worker [i] takes. *)
Definition step_made (i me : nat) (t : option (thread (option Resolved))) : nat :=
  match t with
  | Some (Running (Vis e _)) => if decide (i = me) then (if creates loc e then 1 else 0) else 0
  | _ => 0
  end.

(** The workers [ts] between two steps, [c0] creation commands for [loc]
    having been issued before they started. *)
Record chain_inv (c0 : nat) (ts : list (thread (option Resolved)))
    (h : option (nat * bool)) (w : World) : Prop := mk_chain_inv {
  ch_prot : ∃ owns ret, conc_inv E ts owns ret w;
  ch_workers : ∀ i t, ts !! i = Some t →
                 Tq (phase_of h i) w (thread_prog t) (level_post 0) (level_postn 0);
  ch_parents : parents_present w;
  ch_holder : ∀ j b, h = Some (j, b) → is_Some (ts !! j);
  ch_entry : present 0 w ↔ is_Some h;
  ch_calls : creations loc (calls w) = (c0 + match h with Some (_, true) => 1 | _ => 0 end)%nat;
  ch_live : ∀ j, (j ≤ k)%nat →
              present j w ∨ ((j < k)%nat ∧ ¬ present (S j) w) ∨
              ∃ i t, ts !! i = Some t ∧ NRq j w (thread_prog t) (λ _ _, False)
}.
End chain.

(** [NewObject] from the creation command to its end (lines 147 to 168),
    with the placeholder [lockedNObj] inserted under [loc]. *)
Definition NewObject_placed (E : Env) (loc : string) (pObj lockedNObj : ptr)
    (wr : FileInfo) : prog (option Resolved) :=
  let d := filepath_Dir E loc in
  let b := filepath_Base E loc in
  let op := if fi_IsDir wr then "mkdir" else "upload" in
  p1 ← call (EvRead pObj);
  p2 ← call (EvRead pObj);
  let execArgs := if decide (GDId p2 = ".")
                  then create_args_root d op b
                  else create_args d op b (GDId p1) in
  r ← call (EvExecCommand (mkCall (TagCreate loc) "sh" ["-c"; execArgs]));
  match r with
  | inl err =>
      _ ← call (EvDeleteObject loc);
      mret (Some (mkResolved None false false (Some err)))
  | inr nGDId =>
      _ ← call (EvUpdateStoredObject lockedNObj
                 (λ o, mkObject nGDId (GDPId o) (LastMod o) (Size o)));
      let op' := if decide (op = "upload") then "created" else op in
      _ ← call (EvPrint (op' +:+ ": " +:+ strings_TrimPrefix loc (binPath E)
                          +:+ " (" +:+ getFileSizeFormatted E (fi_Size wr) +:+ ")"));
      mret (Some (mkResolved (Some lockedNObj) false false None))
  end.

(** The creation commands for [loc] that worker [me] issues in the run of
    [sched]. *)
Definition made (E : Env) (loc : string) (me : nat) (sched : list nat)
    (s : list (thread (option Resolved)) * World) : nat :=
  length (filter (λ a, creation_of loc a = true) (taken_by E me sched s)).

(** Three workers in turn, 48 turns each. *)
Definition ex_round_robin3_long : list nat := concat (replicate 48 [0; 1; 2]%nat).

(** The second worker takes its first step, then the first worker runs to
    its end, then the second. *)
Definition ex_late : list nat := ([1] ++ replicate 20 0 ++ replicate 20 1)%nat.

(** A backend that accepts everything and prints no identifier. *)
Definition ex_env_mute : Env := with_backend (λ _ _, inr "") ex_env.

(** What a run of workers leaves: their results, and the tags of the
    commands issued. *)
Definition outcome (s : list (thread (option Resolved)) * World)
    : list (option (option Resolved)) * list CallTag :=
  (returned <$> s.1, call_tag <$> calls s.2).

(** * Properties *)

(** ** Running programs *)

Lemma run_bind (E : Env) {A B : Type} (p : prog A) (f : A → prog B) (w : World) :
  run E (p ≫= f) w = run E (f (run E p w).1) (run E p w).2.
Proof.
  revert w. induction p as [r | X e k IH]; intros w; [done |].
  change (Vis e k ≫= f) with (Vis e (λ x, k x ≫= f)).
  simpl. destruct (sem E e w) as [x w']. apply IH.
Qed.

Lemma run_ret (E : Env) {R : Type} (r : R) (w : World) : run E (mret r) w = (r, w).
Proof. done. Qed.

Lemma steps_ret (E : Env) {R : Type} (r : R) (w : World) : steps E (mret r) w = [].
Proof. done. Qed.

Lemma run_call (E : Env) {X R : Type} (e : event X) (f : X → prog R) (w : World) :
  run E (call e ≫= f) w = run E (f (sem E e w).1) (sem E e w).2.
Proof. rewrite run_bind. simpl. by destruct (sem E e w). Qed.

Lemma steps_bind (E : Env) {A B : Type} (p : prog A) (f : A → prog B) (w : World) :
  steps E (p ≫= f) w = steps E p w ++ steps E (f (run E p w).1) (run E p w).2.
Proof.
  revert w. induction p as [r | X e k IH]; intros w; [done |].
  change (Vis e k ≫= f) with (Vis e (λ x, k x ≫= f)).
  simpl. rewrite IH. destruct (sem E e w) as [x w']. done.
Qed.

(** ** The compare-and-insert primitive *)

Lemma storeObject_absent key o w :
  objectMap w !! key = None →
  storeObject key o w = (true, set_objectMap (<[key := o]> (objectMap w)) w).
Proof. intros H. unfold storeObject. by rewrite H. Qed.

Lemma storeObject_present key o w :
  is_Some (objectMap w !! key) → storeObject key o w = (false, w).
Proof. intros [p H]. unfold storeObject. by rewrite H. Qed.

(** No step but a removal of [key] or a successful insert for [key] changes
    whether the store has an entry for [key]. *)
Lemma sem_keeps_entry (E : Env) {X : Type} (e : event X) key w :
  is_delete_of key (existT X e) = false →
  store_result key e (sem E e w).1 ≠ Some true →
  objectMap (sem E e w).2 !! key = objectMap w !! key.
Proof.
  destruct e; simpl; intros Hd Hs; try done.
  - unfold loadObject. by repeat case_decide.
  - unfold storeObject in *. destruct (objectMap w !! key0) eqn:Hk; [done |].
    simpl in *. case_decide; [congruence |]. by rewrite lookup_insert_ne.
  - apply bool_decide_eq_false in Hd. by rewrite lookup_delete_ne.
  - unfold execCommand. by destruct (TestMode (cfg w)).
  - by destruct (os_WriteFile E (ObjectMapFilePath w) data).
Qed.

Lemma attempts_present (E : Env) key es w :
  Forall (λ a, is_delete_of key a = false) es →
  is_Some (objectMap w !! key) →
  Forall (λ b, b = false) (attempts E key es w).
Proof.
  intros Hes. revert w. induction Hes as [| [X e] rest Hd _ IH]; intros w Hw; simpl; [done |].
  assert (store_result key e (sem E e w).1 ≠ Some true) as Hns.
  { destruct e; simpl; try done. case_decide; [subst | done].
    rewrite storeObject_present; simpl; [congruence | done]. }
  pose proof (sem_keeps_entry E e key w Hd Hns) as Hk.
  destruct (store_result key e (sem E e w).1) as [b |] eqn:Hr.
  - constructor; [by destruct b | apply IH; by rewrite Hk].
  - apply IH. by rewrite Hk.
Qed.

(** C2. [storeObject] returns true exactly when the store had no entry for
    the key; then the candidate is what the key holds and nothing else
    changed; otherwise it returns false and the whole state is as it was.
    And among the insert attempts for one key in any sequence of steps that
    does not remove the key, none after the first succeeds, and the first
    succeeds exactly when the key was absent: from a store without the key,
    exactly the first attempt succeeds. *)
Theorem storeObject_compare_and_insert (E : Env) :
  (∀ key o w,
     ((storeObject key o w).1 = true ↔ objectMap w !! key = None) ∧
     (objectMap w !! key = None →
        objectMap (storeObject key o w).2 = <[key := o]> (objectMap w) ∧
        objectMap (storeObject key o w).2 !! key = Some o ∧
        heap (storeObject key o w).2 = heap w ∧
        cfg (storeObject key o w).2 = cfg w) ∧
     (objectMap w !! key ≠ None →
        storeObject key o w = (false, w))) ∧
  (∀ key es w,
     Forall (λ a, is_delete_of key a = false) es →
     match attempts E key es w with
     | [] => True
     | first :: others =>
         first = bool_decide (objectMap w !! key = None) ∧
         Forall (λ b, b = false) others
     end).
Proof.
  split.
  - intros key o w. split; [| split].
    + unfold storeObject. destruct (objectMap w !! key); simpl; split; done.
    + intros H. rewrite storeObject_absent by done. simpl.
      by rewrite lookup_insert_eq.
    + intros H. apply storeObject_present. by destruct (objectMap w !! key).
  - intros key es w Hes. revert w.
    induction Hes as [| [X e] rest Hd Hrest IH]; intros w; simpl; [done |].
    destruct (store_result key e (sem E e w).1) as [b |] eqn:Hr.
    + destruct e; simpl in Hr; try done. case_decide; [subst | done].
      injection Hr as <-. simpl. unfold storeObject.
      destruct (objectMap w !! key) eqn:Hk; simpl.
      * split; [done |]. apply attempts_present; [done | by rewrite Hk].
      * split; [done |]. apply attempts_present; [done |].
        simpl. by rewrite lookup_insert_eq.
    + assert (objectMap (sem E e w).2 !! key = objectMap w !! key) as Hk.
      { apply sem_keeps_entry; [done | by rewrite Hr]. }
      specialize (IH (sem E e w).2).
      destruct (attempts E key rest (sem E e w).2); [done |].
      by rewrite <- Hk.
Qed.

Lemma storeObject_witness :
  Forall (λ a, is_delete_of "/r/a" a = false) ex_attempts ∧
  match attempts ex_env "/r/a" ex_attempts ex_w0 with
  | [] => True
  | first :: others =>
      first = bool_decide (objectMap ex_w0 !! "/r/a" = None) ∧
      Forall (λ b, b = false) others
  end.
Proof.
  split; [by repeat constructor |].
  apply (proj2 (storeObject_compare_and_insert ex_env)). by repeat constructor.
Defined.

Example storeObject_first_only :
  attempts ex_env "/r/a" ex_attempts ex_w0 = [true; false; false].
Proof. reflexivity. Qed.

(** ** The modification check *)

(** The update command the check issues for [wr] on the object [o]. *)
Lemma UpdateObjectIfModTimeChanged_skip (E : Env) wr object w :
  ¬ (wr_isDir wr = false ∧ LastMod (deref w object) < wr_modTimeUnix wr ∧
     wr_size wr ≠ Size (deref w object)) →
  run E (UpdateObjectIfModTimeChanged E wr object) w = ((false, None), w).
Proof.
  intros Hn. unfold UpdateObjectIfModTimeChanged.
  destruct (wr_isDir wr) eqn:Hd; [done |]. simpl.
  case_bool_decide as H1; [done |]. simpl.
  case_bool_decide as H2; [done |].
  exfalso. apply Hn. repeat split; [lia | done].
Qed.

Lemma UpdateObjectIfModTimeChanged_attempt (E : Env) wr object w :
  wr_isDir wr = false → LastMod (deref w object) < wr_modTimeUnix wr →
  wr_size wr ≠ Size (deref w object) →
  let c := mkCall (TagUpdate (wr_loc wr)) "sh"
             ["-c"; update_args (filepath_Dir E (wr_loc wr)) (GDId (deref w object))
                      (filepath_Base E (wr_loc wr))] in
  run E (UpdateObjectIfModTimeChanged E wr object) w =
    match (execCommand E c w).1 with
    | inl _ => ((false, None), set_calls (calls w ++ [c]) w)
    | inr _ =>
        ((true, None),
         set_console
           (console w ++
              ["updated: " +:+ strings_TrimPrefix (wr_loc wr) (binPath E) +:+ " (" +:+
               getFileSizeFormatted E (Size (deref w object)) +:+ " -> " +:+
               getFileSizeFormatted E (wr_size wr) +:+ ")"])
           (updateStoredObject object
              (λ o, mkObject (GDId o) (GDPId o) (wr_modTimeUnix wr) (wr_size wr))
              (set_calls (calls w ++ [c]) w)))
    end.
Proof.
  intros Hd H1 H2 c. unfold UpdateObjectIfModTimeChanged. rewrite Hd. simpl.
  rewrite bool_decide_eq_false_2 by lia. simpl.
  rewrite bool_decide_eq_false_2 by done. simpl.
  unfold execCommand. fold c.
  destruct (TestMode (cfg w)); [done |].
  destruct (backend E (calls w) c); done.
Qed.

(** C6. The modification check issues a backend update exactly when the
    entry is a file whose observed modification time is strictly greater
    than the stored one and whose observed size differs from the stored
    one: then it makes one update call, on the stored identifier, and
    otherwise none (so never for a directory). When the check reports an
    update, the object's [LastMod] and [Size] are the observed values, both
    set in the one mutation, and its identifiers are unchanged. And it does
    report one whenever the backend accepts the call: then the result is
    [true] without error and the two fields have been set; when the
    backend refuses, the result is [false] and no object is written. *)
Theorem UpdateObjectIfModTimeChanged_iff (E : Env) wr object w :
  let stored := deref w object in
  let needed := wr_isDir wr = false ∧ LastMod stored < wr_modTimeUnix wr ∧
                wr_size wr ≠ Size stored in
  let c := mkCall (TagUpdate (wr_loc wr)) "sh"
             ["-c"; update_args (filepath_Dir E (wr_loc wr)) (GDId stored)
                      (filepath_Base E (wr_loc wr))] in
  let r := run E (UpdateObjectIfModTimeChanged E wr object) w in
  (needed →
     calls r.2 = calls w ++
       [mkCall (TagUpdate (wr_loc wr)) "sh"
          ["-c"; update_args (filepath_Dir E (wr_loc wr)) (GDId stored)
                   (filepath_Base E (wr_loc wr))]]) ∧
  (¬ needed → r = ((false, None), w)) ∧
  (wr_isDir wr = true → r = ((false, None), w)) ∧
  (r.1.1 = true → object < length (heap w) →
     needed ∧
     deref r.2 object =
       mkObject (GDId stored) (GDPId stored) (wr_modTimeUnix wr) (wr_size wr) ∧
     (∀ o, o ≠ object → deref r.2 o = deref w o) ∧
     objectMap r.2 = objectMap w)%nat ∧
  (needed → ∀ out, (execCommand E c w).1 = inr out →
     r.1 = (true, None) ∧
     (object < length (heap w) →
        deref r.2 object =
          mkObject (GDId stored) (GDPId stored) (wr_modTimeUnix wr) (wr_size wr))%nat ∧
     (∀ o, o ≠ object → deref r.2 o = deref w o) ∧
     objectMap r.2 = objectMap w) ∧
  (needed → ∀ err, (execCommand E c w).1 = inl err →
     r.1 = (false, None) ∧ heap r.2 = heap w ∧ objectMap r.2 = objectMap w).
Proof.
  intros stored needed c r. subst r stored c.
  split; [| split; [| split; [| split; [| split]]]].
  - intros (Hd & H1 & H2).
    rewrite UpdateObjectIfModTimeChanged_attempt by done.
    by destruct (execCommand _ _ _).1.
  - apply UpdateObjectIfModTimeChanged_skip.
  - intros Hd. apply UpdateObjectIfModTimeChanged_skip. intros [? _]. congruence.
  - intros H Hlive. destruct (decide needed) as [Hn | Hn]; cycle 1.
    { rewrite UpdateObjectIfModTimeChanged_skip in H by done. done. }
    split; [done |]. destruct Hn as (Hd & H1 & H2).
    rewrite UpdateObjectIfModTimeChanged_attempt in * by done.
    destruct (execCommand _ _ _).1; [done |]. simpl.
    unfold deref, updateStoredObject. simpl. split; [| split; [| done]].
    + by rewrite list_lookup_total_alter_eq.
    + intros o Ho. by rewrite list_lookup_total_alter_ne.
  - intros (Hd & H1 & H2) out Hout.
    rewrite UpdateObjectIfModTimeChanged_attempt by done. rewrite Hout. simpl.
    unfold deref, updateStoredObject. simpl. split; [done |]. split; [| split; [| done]].
    + intros Hlive. by rewrite list_lookup_total_alter_eq.
    + intros o Ho. by rewrite list_lookup_total_alter_ne.
  - intros (Hd & H1 & H2) err Herr.
    rewrite UpdateObjectIfModTimeChanged_attempt by done. by rewrite Herr.
Qed.

Lemma UpdateObjectIfModTimeChanged_witness :
  (wr_isDir ex_wr_f_changed = false ∧
   LastMod (deref ex_w2 1%nat) < wr_modTimeUnix ex_wr_f_changed ∧
   wr_size ex_wr_f_changed ≠ Size (deref ex_w2 1%nat)) ∧
  (run ex_env (UpdateObjectIfModTimeChanged ex_env ex_wr_f_changed 1%nat) ex_w2).1.1 = true ∧
  (1 < length (heap ex_w2))%nat ∧
  calls (run ex_env (UpdateObjectIfModTimeChanged ex_env ex_wr_f_changed 1%nat) ex_w2).2 =
    [mkCall (TagUpdate "/r/a/f") "sh" ["-c"; "cd /r/a && gdrive files update idF f"]] ∧
  deref (run ex_env (UpdateObjectIfModTimeChanged ex_env ex_wr_f_changed 1%nat) ex_w2).2 1%nat =
    mkObject "idF" "idA" 200 9.
Proof.
  assert (wr_isDir ex_wr_f_changed = false ∧
          LastMod (deref ex_w2 1%nat) < wr_modTimeUnix ex_wr_f_changed ∧
          wr_size ex_wr_f_changed ≠ Size (deref ex_w2 1%nat)) as Hn
    by (vm_compute; repeat split; congruence).
  assert ((run ex_env (UpdateObjectIfModTimeChanged ex_env ex_wr_f_changed 1%nat) ex_w2).1.1 = true)
    as Hr by reflexivity.
  assert (1 < length (heap ex_w2))%nat as Hl by (simpl; lia).
  destruct (UpdateObjectIfModTimeChanged_iff ex_env ex_wr_f_changed 1%nat ex_w2)
    as (H1 & _ & _ & H4 & _).
  split; [exact Hn |]. split; [exact Hr |]. split; [exact Hl |].
  split; [exact (H1 Hn) | exact (proj1 (proj2 (H4 Hr Hl)))].
Defined.

(** A later modification time with the same size triggers nothing. *)
Example UpdateObjectIfModTimeChanged_same_size :
  run ex_env (UpdateObjectIfModTimeChanged ex_env ex_wr_f_touched 1%nat) ex_w2
  = ((false, None), ex_w2).
Proof. reflexivity. Qed.

(** ** Running [NewObject] *)

Lemma NewObject_S (E : Env) fuel loc :
  NewObject E (S fuel) loc =
    (eObj ← call (EvLoadObject loc);
     match eObj with
     | Some eObj =>
         l ← call (EvIsLocked eObj);
         mret (Some (mkResolved (Some eObj) true l None))
     | None =>
         pObj ← call (EvLoadObject (filepath_Dir E loc));
         parent ← match pObj with
                  | Some pObj => mret (inr pObj)
                  | None => r ← NewObject E fuel (filepath_Dir E loc); mret (after_parent r)
                  end;
         match parent with
         | inl early => mret early
         | inr pObj => NewObject_rest E loc pObj
         end
     end).
Proof. reflexivity. Qed.

Lemma deref_live w o : GDId (deref w o) ≠ "" → (o < length (heap w))%nat.
Proof.
  intros H. destruct (decide (o < length (heap w))%nat) as [| Hn]; [done |].
  exfalso. apply H. unfold deref.
  rewrite list_lookup_total_alt, (lookup_ge_None_2 (heap w) o) by lia. done.
Qed.

Lemma deref_alloc_old w v o :
  (o < length (heap w))%nat → deref (alloc v w).2 o = deref w o.
Proof.
  intros H. unfold deref, alloc. simpl.
  by rewrite !list_lookup_total_alt, lookup_app_l.
Qed.

Lemma deref_alloc_new w v : deref (alloc v w).2 (alloc v w).1 = v.
Proof.
  unfold deref, alloc. simpl.
  rewrite list_lookup_total_alt, lookup_app_r by lia.
  by rewrite Nat.sub_diag.
Qed.

Lemma deref_grown w w' o l :
  heap w' = heap w ++ l → (o < length (heap w))%nat → deref w' o = deref w o.
Proof.
  intros Hh H. unfold deref. rewrite Hh.
  by rewrite !list_lookup_total_alt, lookup_app_l.
Qed.

Lemma loadObject_key (E : Env) key w :
  key ≠ binPath E → loadObject E key w = (objectMap w !! key, w).
Proof. intros H. unfold loadObject. by rewrite decide_False. Qed.

(** The identifier of the synthesized root object. *)
Lemma loadObject_root (E : Env) w :
  loadObject E (binPath E) w =
    (Some (length (heap w)),
     mkWorld (if decide (RootFolderID (cfg w) = "")
              then set_RootFolderID "." (cfg w) else cfg w)
             (ObjectMapFilePath w)
             (heap w ++ [mkObject (if decide (RootFolderID (cfg w) = "") then "."
                                   else RootFolderID (cfg w)) "" 0 0])
             (objectMap w) (files w) (calls w) (console w) (ntr w)).
Proof.
  unfold loadObject. rewrite decide_True by done.
  destruct (decide (RootFolderID (cfg w) = "")); done.
Qed.

Lemma run_NewObject_O (E : Env) loc w : run E (NewObject E 0 loc) w = (None, w).
Proof. done. Qed.

Lemma run_NewObject_loaded (E : Env) fuel loc o w :
  loc ≠ binPath E → objectMap w !! loc = Some o →
  run E (NewObject E (S fuel) loc) w
  = (Some (mkResolved (Some o) true (isLocked o w) None), w).
Proof.
  intros Hr Ho. rewrite NewObject_S, run_bind. simpl.
  rewrite loadObject_key by done. rewrite Ho. done.
Qed.

Lemma run_NewObject_missing (E : Env) fuel loc w :
  loc ≠ binPath E → objectMap w !! loc = None →
  run E (NewObject E (S fuel) loc) w =
    match (loadObject E (filepath_Dir E loc) w).1 with
    | Some pObj =>
        run E (NewObject_rest E loc pObj) (loadObject E (filepath_Dir E loc) w).2
    | None =>
        match after_parent (run E (NewObject E fuel (filepath_Dir E loc)) w).1 with
        | inl early => (early, (run E (NewObject E fuel (filepath_Dir E loc)) w).2)
        | inr pObj =>
            run E (NewObject_rest E loc pObj)
                (run E (NewObject E fuel (filepath_Dir E loc)) w).2
        end
    end.
Proof.
  intros Hr Ho. rewrite NewObject_S, run_call. simpl sem.
  rewrite loadObject_key by done. rewrite Ho. cbn [fst snd]. cbv beta iota.
  rewrite run_call. simpl sem.
  destruct (loadObject E (filepath_Dir E loc) w) as [[pObj |] w1] eqn:Hl; simpl fst; simpl snd.
  - rewrite run_bind. done.
  - assert (w1 = w) as ->.
    { unfold loadObject in Hl. case_decide; [| by simplify_eq].
      destruct (alloc _ _); simplify_eq. }
    rewrite run_bind, run_bind. simpl.
    destruct (after_parent _); done.
Qed.

Lemma run_NewObject_rest_locked (E : Env) loc pObj w :
  isLocked pObj w = true →
  run E (NewObject_rest E loc pObj) w
  = (Some (mkResolved (Some pObj) false true None), w).
Proof. intros H. unfold NewObject_rest. simpl. by rewrite H. Qed.

Lemma run_NewObject_rest_stat_error (E : Env) loc pObj w err :
  isLocked pObj w = false → os_Stat E loc = inl err →
  run E (NewObject_rest E loc pObj) w
  = (Some (mkResolved None false false (Some err)), w).
Proof. intros H Hs. unfold NewObject_rest. simpl. rewrite H. simpl. by rewrite Hs. Qed.

Lemma run_NewObject_rest_lost (E : Env) loc pObj w fi :
  isLocked pObj w = false → os_Stat E loc = inr fi →
  is_Some (objectMap w !! loc) →
  run E (NewObject_rest E loc pObj) w
  = (Some (mkResolved (Some pObj) false true None),
     set_heap (heap w ++ [mkObject "" (GDId (deref w pObj))
                            (if fi_IsDir fi then 0 else fi_ModTimeUnix fi) (fi_Size fi)]) w).
Proof.
  intros H Hs [o Ho]. unfold NewObject_rest. simpl. rewrite H. simpl. rewrite Hs. simpl.
  unfold storeObject. simpl. by rewrite Ho.
Qed.

Lemma run_NewObject_rest_exec (E : Env) loc pObj w fi :
  isLocked pObj w = false → os_Stat E loc = inr fi →
  objectMap w !! loc = None →
  let v := mkObject "" (GDId (deref w pObj))
             (if fi_IsDir fi then 0 else fi_ModTimeUnix fi) (fi_Size fi) in
  let c := create_call E loc (fi_IsDir fi) (GDId (deref w pObj)) in
  run E (NewObject_rest E loc pObj) w =
    match (if TestMode (cfg w) then inr "0" else backend E (calls w) c) with
    | inl err =>
        (Some (mkResolved None false false (Some err)),
         mkWorld (cfg w) (ObjectMapFilePath w) (heap w ++ [v]) (objectMap w) (files w)
                 (calls w ++ [c]) (console w) (ntr w))
    | inr nGDId =>
        (Some (mkResolved (Some (length (heap w))) false false None),
         mkWorld (cfg w) (ObjectMapFilePath w)
                 (heap w ++ [mkObject nGDId (GDPId v) (LastMod v) (Size v)])
                 (<[loc := length (heap w)]> (objectMap w)) (files w)
                 (calls w ++ [c])
                 (console w ++
                    [(if fi_IsDir fi then "mkdir" else "created") +:+ ": " +:+
                     strings_TrimPrefix loc (binPath E) +:+ " (" +:+
                     getFileSizeFormatted E (fi_Size fi) +:+ ")"])
                 (ntr w))
    end.
Proof.
  intros H Hs Ho v c.
  assert (pObj < length (heap w))%nat as Hlive.
  { apply deref_live. unfold isLocked in H. by apply bool_decide_eq_false in H. }
  unfold NewObject_rest. simpl. rewrite H. simpl. rewrite Hs. simpl.
  unfold storeObject. simpl. rewrite Ho. simpl.
  rewrite !(deref_grown w _ pObj [v]) by done.
  unfold execCommand. simpl.
  change (mkCall (TagCreate loc) "sh" _) with c.
  assert (∀ id, alter (λ o, mkObject id (GDPId o) (LastMod o) (Size o))
                 (length (heap w)) (heap w ++ [v])
               = heap w ++ [mkObject id (GDPId v) (LastMod v) (Size v)]) as Halter.
  { intros id. rewrite alter_app_r_alt by lia. by rewrite Nat.sub_diag. }
  assert ((if decide ((if fi_IsDir fi then "mkdir" else "upload") = "upload")
           then "created" else if fi_IsDir fi then "mkdir" else "upload")
          = (if fi_IsDir fi then "mkdir" else "created")) as Hop
    by (by destruct (fi_IsDir fi)).
  destruct (if TestMode (cfg w) then inr "0" else backend E (calls w) c) as [err | id] eqn:Hb;
    destruct (TestMode (cfg w)); simplify_eq; simpl; try rewrite Hb; simpl;
    unfold updateStoredObject, deleteObject, set_console, set_calls, set_objectMap, set_heap;
    simpl; rewrite ?Halter, ?Hop, ?delete_insert_eq, ?delete_id by done; done.
Qed.

#[local] Arguments NewObject : simpl never.
#[local] Arguments NewObject_rest : simpl never.

(** C7. When the backend refuses the update, the check reports that no
    update was made and no error; the state is as before but for the record
    of the call, so the stored [LastMod] and [Size] are as they were. [Sync]
    then reports no creation, no update, no lock and no error for a tracked
    file. *)
Theorem UpdateObjectIfModTimeChanged_backend_failure (E : Env) wr object w err :
  wr_isDir wr = false → LastMod (deref w object) < wr_modTimeUnix wr →
  wr_size wr ≠ Size (deref w object) →
  (execCommand E (mkCall (TagUpdate (wr_loc wr)) "sh"
     ["-c"; update_args (filepath_Dir E (wr_loc wr)) (GDId (deref w object))
              (filepath_Base E (wr_loc wr))]) w).1 = inl err →
  let r := run E (UpdateObjectIfModTimeChanged E wr object) w in
  r.1 = (false, None) ∧
  heap r.2 = heap w ∧ objectMap r.2 = objectMap w ∧ snapshot r.2 = snapshot w ∧
  deref r.2 object = deref w object ∧
  (∀ fuel, wr_loc wr ≠ binPath E → objectMap w !! wr_loc wr = Some object →
           GDId (deref w object) ≠ "" →
           (run E (Sync E (S fuel) wr) w).1 = Some (mkSynced false false false None) ∧
           snapshot (run E (Sync E (S fuel) wr) w).2 = snapshot w).
Proof.
  intros Hd H1 H2 Hex r. subst r.
  rewrite UpdateObjectIfModTimeChanged_attempt by done. rewrite Hex.
  do 5 (split; [done |]).
  intros fuel Hroot Hobj Hid. unfold Sync. rewrite run_bind.
  rewrite (run_NewObject_loaded E fuel _ object) by done. simpl.
  unfold isLocked. rewrite bool_decide_eq_false_2 by done. simpl.
  rewrite run_bind. rewrite UpdateObjectIfModTimeChanged_attempt by done.
  rewrite Hex. done.
Qed.

Lemma UpdateObjectIfModTimeChanged_backend_failure_witness :
  let r := run ex_env_down (UpdateObjectIfModTimeChanged ex_env_down ex_wr_f_changed 1%nat) ex_w2 in
  r.1 = (false, None) ∧
  heap r.2 = heap ex_w2 ∧ objectMap r.2 = objectMap ex_w2 ∧ snapshot r.2 = snapshot ex_w2 ∧
  deref r.2 1%nat = deref ex_w2 1%nat ∧
  (∀ fuel, wr_loc ex_wr_f_changed ≠ binPath ex_env_down →
           objectMap ex_w2 !! wr_loc ex_wr_f_changed = Some 1%nat →
           GDId (deref ex_w2 1%nat) ≠ "" →
           (run ex_env_down (Sync ex_env_down (S fuel) ex_wr_f_changed) ex_w2).1
             = Some (mkSynced false false false None) ∧
           snapshot (run ex_env_down (Sync ex_env_down (S fuel) ex_wr_f_changed) ex_w2).2
             = snapshot ex_w2).
Proof.
  apply (UpdateObjectIfModTimeChanged_backend_failure ex_env_down ex_wr_f_changed 1%nat ex_w2
           "backend down"); [reflexivity | reflexivity | by vm_compute | reflexivity].
Defined.

(** ** The root sentinel and the configuration *)

(** No step writes the configuration, except that a lookup of the sync root
    fills in an empty root folder identifier. *)
Lemma sem_cfg (E : Env) {X : Type} (e : event X) w :
  cfg (sem E e w).2 = cfg w ∨
  (RootFolderID (cfg w) = "" ∧ cfg (sem E e w).2 = set_RootFolderID "." (cfg w)).
Proof.
  destruct e; simpl; auto.
  - unfold loadObject. case_decide; [| auto].
    case_decide; simpl; auto.
  - unfold storeObject. destruct (objectMap w !! key); auto.
  - unfold execCommand. destruct (TestMode (cfg w)); auto.
  - destruct (os_WriteFile E (ObjectMapFilePath w) data); auto.
Qed.

Lemma sem_root_kept (E : Env) {X : Type} (e : event X) w :
  RootFolderID (cfg w) = "." → RootFolderID (cfg (sem E e w).2) = ".".
Proof.
  intros H. destruct (sem_cfg E e w) as [-> | [H0 _]]; [done |].
  rewrite H in H0. done.
Qed.

Lemma run_root_kept (E : Env) {R : Type} (p : prog R) w :
  RootFolderID (cfg w) = "." → RootFolderID (cfg (run E p w).2) = ".".
Proof.
  revert w. induction p as [r | X e k IH]; intros w Hw; [done |].
  simpl. pose proof (sem_root_kept E e w Hw) as H1.
  destruct (sem E e w) as [x w1]. by apply IH.
Qed.

Lemma turn_root_kept (E : Env) {R : Type} i (s : list (thread R) * World) :
  RootFolderID (cfg s.2) = "." → RootFolderID (cfg (turn E i s).2) = ".".
Proof.
  intros Hw. unfold turn. destruct (s.1 !! i) as [t |]; [| done].
  destruct t as [[r | X e k] | p]; simpl; try done.
  pose proof (sem_root_kept E e s.2 Hw) as H1.
  by destruct (sem E e s.2) as [x w1].
Qed.

Lemma schedule_root_kept (E : Env) {R : Type} sched (s : list (thread R) * World) :
  RootFolderID (cfg s.2) = "." → RootFolderID (cfg (schedule E sched s).2) = ".".
Proof.
  revert s. induction sched as [| i sched IH]; intros s Hs; [done |].
  simpl. apply IH. by apply turn_root_kept.
Qed.

(** C10. A lookup of the sync root while the configured root folder
    identifier is empty sets the identifier to "." in the shared
    configuration, under the read lock only, and hands out an object with
    that identifier; the rest of the configuration and the map are
    untouched. From then on the identifier stays ".", whatever any worker
    runs. And a resolution that finds "." as the parent's identifier issues
    the creation command in its form without [--parent]. *)
Theorem loadObject_root_sets_RootFolderID (E : Env) :
  (∀ w, RootFolderID (cfg w) = "" →
        ∃ o, (loadObject E (binPath E) w).1 = Some o ∧
             let w' := (loadObject E (binPath E) w).2 in
             cfg w' = set_RootFolderID "." (cfg w) ∧
             RootFolderID (cfg w') = "." ∧
             GDId (deref w' o) = "." ∧
             objectMap w' = objectMap w) ∧
  lock_of (EvLoadObject (binPath E)) = RLock ∧
  (∀ w, RootFolderID (cfg w) = "." →
        (∀ X (e : event X), RootFolderID (cfg (sem E e w).2) = ".") ∧
        (∀ R (p : prog R), RootFolderID (cfg (run E p w).2) = ".") ∧
        (∀ R sched (ts : list (thread R)),
            RootFolderID (cfg (schedule E sched (ts, w)).2) = ".")) ∧
  (∀ w loc pObj fi,
     GDId (deref w pObj) = "." → os_Stat E loc = inr fi → objectMap w !! loc = None →
     calls (run E (NewObject_rest E loc pObj) w).2 =
       calls w ++ [mkCall (TagCreate loc) "sh"
                     ["-c"; create_args_root (filepath_Dir E loc)
                              (if fi_IsDir fi then "mkdir" else "upload")
                              (filepath_Base E loc)]]) ∧
  (∀ w loc fi fuel,
     RootFolderID (cfg w) = "" ∨ RootFolderID (cfg w) = "." →
     filepath_Dir E loc = binPath E → loc ≠ binPath E →
     os_Stat E loc = inr fi → objectMap w !! loc = None →
     calls (run E (NewObject E (S fuel) loc) w).2 =
       calls w ++ [mkCall (TagCreate loc) "sh"
                     ["-c"; create_args_root (filepath_Dir E loc)
                              (if fi_IsDir fi then "mkdir" else "upload")
                              (filepath_Base E loc)]]).
Proof.
  assert (∀ w loc pObj fi,
     GDId (deref w pObj) = "." → os_Stat E loc = inr fi → objectMap w !! loc = None →
     calls (run E (NewObject_rest E loc pObj) w).2 =
       calls w ++ [mkCall (TagCreate loc) "sh"
                     ["-c"; create_args_root (filepath_Dir E loc)
                              (if fi_IsDir fi then "mkdir" else "upload")
                              (filepath_Base E loc)]]) as Hrest.
  { intros w loc pObj fi Hid Hs Ho.
    rewrite (run_NewObject_rest_exec E loc pObj w fi); [| | done | done].
    - rewrite Hid. unfold create_call. rewrite decide_True by done.
      by destruct (if TestMode (cfg w) then _ else _).
    - unfold isLocked. rewrite Hid. done. }
  split; [| split; [done | split; [| split; [exact Hrest |]]]].
  - intros w Hw. rewrite loadObject_root. rewrite !decide_True by done.
    eexists. split; [done |]. simpl. repeat split.
    unfold deref. simpl. rewrite list_lookup_total_alt, lookup_app_r by lia.
    by rewrite Nat.sub_diag.
  - intros w Hw. split; [| split].
    + intros X e. by apply sem_root_kept.
    + intros R p. by apply run_root_kept.
    + intros R sched ts. by apply (schedule_root_kept E sched (ts, w)).
  - intros w loc fi fuel Hw Hd Hroot Hs Ho.
    rewrite run_NewObject_missing by done. rewrite Hd, loadObject_root. cbn [fst snd].
    rewrite (Hrest _ loc _ fi); [by rewrite Hd | | done | done].
    unfold deref. cbn [heap]. rewrite list_lookup_total_alt, lookup_app_r by lia.
    rewrite Nat.sub_diag. cbn.
    destruct Hw as [Hw | Hw]; rewrite Hw; done.
Qed.

Lemma loadObject_root_sets_RootFolderID_witness :
  RootFolderID (cfg ex_w0) = "" ∧
  (∃ o, (loadObject ex_env (binPath ex_env) ex_w0).1 = Some o ∧
        let w' := (loadObject ex_env (binPath ex_env) ex_w0).2 in
        cfg w' = set_RootFolderID "." (cfg ex_w0) ∧
        RootFolderID (cfg w') = "." ∧
        GDId (deref w' o) = "." ∧
        objectMap w' = objectMap ex_w0) ∧
  calls (run ex_env (NewObject ex_env 1 "/r/a") ex_w0).2 =
    [mkCall (TagCreate "/r/a") "sh" ["-c"; "cd /r && gdrive files mkdir a --print-only-id"]].
Proof.
  split; [reflexivity |]. split.
  - apply (proj1 (loadObject_root_sets_RootFolderID ex_env) ex_w0). reflexivity.
  - apply (proj2 (proj2 (proj2 (proj2 (loadObject_root_sets_RootFolderID ex_env))))
             ex_w0 "/r/a" (mkFileInfo true 50 4096) 0%nat);
      [by left | reflexivity | by vm_compute | reflexivity | reflexivity].
Defined.

(** ** Failure of the backend during a creation *)

Lemma sem_TestMode (E : Env) {X : Type} (e : event X) w :
  TestMode (cfg (sem E e w).2) = TestMode (cfg w).
Proof. destruct (sem_cfg E e w) as [-> | [_ ->]]; done. Qed.

Lemma run_TestMode (E : Env) {R : Type} (p : prog R) w :
  TestMode (cfg (run E p w).2) = TestMode (cfg w).
Proof.
  revert w. induction p as [r | X e k IH]; intros w; [done |].
  simpl. pose proof (sem_TestMode E e w) as H1.
  destruct (sem E e w) as [x w1]. rewrite IH. done.
Qed.

(** Calls are only ever added to the record. *)
Lemma sem_calls (E : Env) {X : Type} (e : event X) w :
  ∃ l, calls (sem E e w).2 = calls w ++ l.
Proof.
  destruct e; simpl; try (by exists []; rewrite app_nil_r).
  - exists []. rewrite app_nil_r. unfold loadObject.
    case_decide; [| done]. by case_decide.
  - exists []. rewrite app_nil_r. unfold storeObject. by destruct (objectMap w !! key).
  - exists [c]. unfold execCommand. by destruct (TestMode (cfg w)).
  - exists []. rewrite app_nil_r. by destruct (os_WriteFile E (ObjectMapFilePath w) data).
Qed.

Lemma run_calls (E : Env) {R : Type} (p : prog R) w :
  ∃ l, calls (run E p w).2 = calls w ++ l.
Proof.
  revert w. induction p as [r | X e k IH]; intros w.
  - exists []. by rewrite app_nil_r.
  - simpl. destruct (sem_calls E e w) as [l1 H1].
    destruct (sem E e w) as [x w1]. destruct (IH x w1) as [l2 H2].
    exists (l1 ++ l2). rewrite H2. simpl in H1. rewrite H1. by rewrite app_assoc.
Qed.

(** The rest of [NewObject] makes no call, or the one creation call for
    [loc]; then the path had no entry and the parent was resolved. *)
Lemma run_NewObject_rest_cases (E : Env) loc pObj w :
  let r := run E (NewObject_rest E loc pObj) w in
  (calls r.2 = calls w ∧ objectMap r.2 = objectMap w ∧
   (r.1 = Some (mkResolved (Some pObj) false true None) ∨
    ∃ err, r.1 = Some (mkResolved None false false (Some err)) ∧ os_Stat E loc = inl err)) ∨
  (∃ fi, isLocked pObj w = false ∧ os_Stat E loc = inr fi ∧ objectMap w !! loc = None ∧
         calls r.2 = calls w ++ [create_call E loc (fi_IsDir fi) (GDId (deref w pObj))]).
Proof.
  intros r. subst r.
  destruct (isLocked pObj w) eqn:Hl.
  { left. rewrite run_NewObject_rest_locked by done. auto. }
  destruct (os_Stat E loc) as [err | fi] eqn:Hs.
  { left. rewrite (run_NewObject_rest_stat_error E loc pObj w err) by done. eauto 6. }
  destruct (objectMap w !! loc) as [o |] eqn:Ho.
  { left. rewrite (run_NewObject_rest_lost E loc pObj w fi) by done. auto. }
  right. exists fi. repeat split; try done.
  rewrite (run_NewObject_rest_exec E loc pObj w fi) by done.
  by destruct (if TestMode (cfg w) then _ else _).
Qed.

Lemma run_NewObject_rest_failure (E : Env) loc pObj w c e :
  calls (run E (NewObject_rest E loc pObj) w).2 = calls w ++ [c] →
  TestMode (cfg w) = false → backend E (calls w) c = inl e →
  call_tag c = TagCreate loc ∧
  (run E (NewObject_rest E loc pObj) w).1 = Some (mkResolved None false false (Some e)) ∧
  objectMap w !! loc = None ∧
  objectMap (run E (NewObject_rest E loc pObj) w).2 = objectMap w ∧
  (∃ v, heap (run E (NewObject_rest E loc pObj) w).2 = heap w ++ [v]) ∧
  cfg (run E (NewObject_rest E loc pObj) w).2 = cfg w.
Proof.
  intros Hc Ht Hb.
  destruct (run_NewObject_rest_cases E loc pObj w) as [(H1 & _) | (fi & Hl & Hs & Ho & H1)].
  { rewrite H1 in Hc. apply (f_equal length) in Hc. rewrite length_app in Hc.
    simpl in Hc. lia. }
  rewrite H1 in Hc. apply app_inv_head in Hc. injection Hc as <-.
  rewrite (run_NewObject_rest_exec E loc pObj w fi) by done.
  rewrite Ht. rewrite Hb. simpl. repeat split; try done. eauto.
Qed.

Lemma run_NewObject_root (E : Env) fuel w :
  run E (NewObject E (S fuel) (binPath E)) w =
    (Some (mkResolved (Some (length (heap w))) true false None),
     (loadObject E (binPath E) w).2).
Proof.
  rewrite NewObject_S, run_call. simpl sem. rewrite loadObject_root. cbn [fst snd].
  cbv beta iota. rewrite run_call. simpl. unfold isLocked, deref. simpl.
  rewrite list_lookup_total_alt, lookup_app_r by lia. rewrite Nat.sub_diag. simpl.
  rewrite bool_decide_eq_false_2; [done |]. by case_decide.
Qed.

Lemma app_tail_absurd {A : Type} (l pre : list A) (c : A) : l = l ++ pre ++ [c] → False.
Proof.
  intros H. apply (f_equal length) in H. rewrite !length_app in H. simpl in H. lia.
Qed.

Lemma NewObject_failure_general (E : Env) fuel :
  ∀ loc w pre c e,
    calls (run E (NewObject E fuel loc) w).2 = calls w ++ pre ++ [c] →
    TestMode (cfg w) = false →
    backend E (calls w ++ pre) c = inl e →
    ∃ l, call_tag c = TagCreate l ∧
         (run E (NewObject E fuel loc) w).1 = Some (mkResolved None false false (Some e)) ∧
         objectMap w !! l = None ∧
         objectMap (run E (NewObject E fuel loc) w).2 !! l = None.
Proof.
  induction fuel as [| fuel IH]; intros loc w pre c e Hc Ht Hb.
  { rewrite run_NewObject_O in Hc. by apply app_tail_absurd in Hc. }
  destruct (decide (loc = binPath E)) as [-> | Hroot].
  { rewrite run_NewObject_root, loadObject_root in Hc. by apply app_tail_absurd in Hc. }
  destruct (objectMap w !! loc) as [o |] eqn:Ho.
  { rewrite (run_NewObject_loaded E fuel loc o) in Hc by done.
    by apply app_tail_absurd in Hc. }
  rewrite run_NewObject_missing in * by done.
  assert (∀ pObj w1, calls w1 = calls w → objectMap w1 = objectMap w →
            TestMode (cfg w1) = false →
            calls (run E (NewObject_rest E loc pObj) w1).2 = calls w ++ pre ++ [c] →
            ∃ l, call_tag c = TagCreate l ∧
              (run E (NewObject_rest E loc pObj) w1).1
                = Some (mkResolved None false false (Some e)) ∧
              objectMap w !! l = None ∧
              objectMap (run E (NewObject_rest E loc pObj) w1).2 !! l = None) as Hdirect.
  { intros pObj w1 Hc1 Hm1 Ht1 Hc'.
    destruct (run_NewObject_rest_cases E loc pObj w1) as [(H1 & _) | (fi & _ & _ & _ & H1)].
    { rewrite H1, Hc1 in Hc'. by apply app_tail_absurd in Hc'. }
    rewrite H1, Hc1 in Hc'. apply app_inv_head in Hc'.
    destruct pre as [| x pre]; cycle 1.
    { apply (f_equal length) in Hc'. rewrite length_cons, length_app in Hc'.
      simpl in Hc'. lia. }
    simpl in Hc'. rewrite app_nil_r in Hb.
    destruct (run_NewObject_rest_failure E loc pObj w1 c e) as (Hg & Hr & Hn & Hm & _).
    { rewrite H1. by rewrite Hc'. }
    { done. }
    { by rewrite Hc1. }
    exists loc. rewrite Hr, Hm, Hm1. done. }
  destruct (loadObject E (filepath_Dir E loc) w) as [[pObj |] w1] eqn:Hl; cbn [fst snd] in *.
  - apply Hdirect; [| | | done].
    + unfold loadObject in Hl. case_decide; [| by simplify_eq].
      case_decide; simpl in Hl; by simplify_eq.
    + unfold loadObject in Hl. case_decide; [| by simplify_eq].
      case_decide; simpl in Hl; by simplify_eq.
    + unfold loadObject in Hl. case_decide; [| by simplify_eq].
      case_decide; simpl in Hl; by simplify_eq.
  - clear Hl w1.
    destruct (run_calls E (NewObject E fuel (filepath_Dir E loc)) w) as [l1 Hl1].
    pose proof (run_TestMode E (NewObject E fuel (filepath_Dir E loc)) w) as Ht1.
    destruct (after_parent (run E (NewObject E fuel (filepath_Dir E loc)) w).1)
      as [early | pObj] eqn:Hap; cbn [fst snd] in *.
    + destruct (IH _ _ _ _ _ Hc Ht Hb) as (l & Hg & Hr & Hn & Hm).
      exists l. rewrite Hr in Hap. simpl in Hap. injection Hap as <-. done.
    + destruct (run_NewObject_rest_cases E loc pObj
                  (run E (NewObject E fuel (filepath_Dir E loc)) w).2)
        as [(H1 & _) | (fi & _ & _ & Hn2 & H1)].
      * rewrite H1 in Hc.
        destruct (IH _ _ _ _ _ Hc Ht Hb) as (l & Hg & Hr & Hn & Hm).
        rewrite Hr in Hap. done.
      * rewrite H1, Hl1 in Hc. rewrite <- app_assoc in Hc. apply app_inv_head in Hc.
        apply app_inj_tail in Hc as [-> Hc].
        destruct (run_NewObject_rest_failure E loc pObj
                    (run E (NewObject E fuel (filepath_Dir E loc)) w).2 c e)
          as (Hg & Hr & _ & Hm & _).
        { rewrite H1. by rewrite Hc. }
        { by rewrite Ht1. }
        { by rewrite Hl1. }
        exists loc. rewrite Hr, Hm. done.
Qed.

(** C5. When the backend refuses the creation command of a path, which
    [NewObject] only issues after it has inserted the placeholder,
    [NewObject] returns that error unchanged (no object, no flag), and the
    store has no entry for the path, as before the attempt. From the
    insertion on: the map is exactly the map before the placeholder went
    in, the configuration and every earlier object are untouched, and only
    the record of the call is new. A later attempt then goes through as a
    first one would: when the backend accepts, the path gets its entry with
    the identifier returned. *)
Theorem NewObject_backend_failure (E : Env) :
  (∀ fuel loc w pre c e,
     calls (run E (NewObject E fuel loc) w).2 = calls w ++ pre ++ [c] →
     TestMode (cfg w) = false →
     backend E (calls w ++ pre) c = inl e →
     ∃ l, call_tag c = TagCreate l ∧
          (run E (NewObject E fuel loc) w).1 = Some (mkResolved None false false (Some e)) ∧
          objectMap w !! l = None ∧
          objectMap (run E (NewObject E fuel loc) w).2 !! l = None) ∧
  (∀ loc pObj w fi e,
     isLocked pObj w = false → os_Stat E loc = inr fi → objectMap w !! loc = None →
     TestMode (cfg w) = false →
     backend E (calls w) (create_call E loc (fi_IsDir fi) (GDId (deref w pObj))) = inl e →
     let c := create_call E loc (fi_IsDir fi) (GDId (deref w pObj)) in
     let r := run E (NewObject_rest E loc pObj) w in
     r.1 = Some (mkResolved None false false (Some e)) ∧
     objectMap r.2 = objectMap w ∧ cfg r.2 = cfg w ∧ calls r.2 = calls w ++ [c] ∧
     (∀ o, (o < length (heap w))%nat → deref r.2 o = deref w o) ∧
     (∀ id, backend E (calls r.2) c = inr id →
        let r' := run E (NewObject_rest E loc pObj) r.2 in
        ∃ o, r'.1 = Some (mkResolved (Some o) false false None) ∧
             objectMap r'.2 = <[loc := o]> (objectMap w) ∧
             deref r'.2 o = mkObject id (GDId (deref w pObj))
                              (if fi_IsDir fi then 0 else fi_ModTimeUnix fi) (fi_Size fi))).
Proof.
  split; [intros; by eapply NewObject_failure_general |].
  intros loc pObj w fi e Hl Hs Ho Ht Hb c r. subst r c.
  assert (pObj < length (heap w))%nat as Hlive.
  { apply deref_live. unfold isLocked in Hl. by apply bool_decide_eq_false in Hl. }
  rewrite (run_NewObject_rest_exec E loc pObj w fi) by done.
  rewrite Ht, Hb. cbn [fst snd objectMap cfg calls].
  do 4 (split; [done |]).
  set (w' := mkWorld _ _ _ _ _ _ _ _).
  assert (∀ o, (o < length (heap w))%nat → deref w' o = deref w o) as Hold.
  { intros o Hlt. by eapply deref_grown. }
  split; [exact Hold |].
  intros id Hid.
  assert (isLocked pObj w' = false) as Hl'.
  { unfold isLocked in *. by rewrite Hold. }
  rewrite (run_NewObject_rest_exec E loc pObj w' fi) by done.
  rewrite Hold by done. cbn [cfg calls heap w'] in *. rewrite Ht, Hid.
  eexists. split; [done |]. split; [done |].
  unfold deref. cbn [fst snd heap].
  rewrite list_lookup_total_alt, lookup_app_r by lia. by rewrite Nat.sub_diag.
Qed.

Lemma NewObject_backend_failure_witness :
  let r := run ex_env_flaky (NewObject_rest ex_env_flaky "/r/a/f" 0%nat) ex_w1 in
  let c := mkCall (TagCreate "/r/a/f") "sh"
             ["-c"; "cd /r/a && gdrive files upload f --parent idA --print-only-id"] in
  r.1 = Some (mkResolved None false false (Some "quota exceeded")) ∧
  objectMap r.2 = objectMap ex_w1 ∧ cfg r.2 = cfg ex_w1 ∧ calls r.2 = [c] ∧
  (∀ o, (o < length (heap ex_w1))%nat → deref r.2 o = deref ex_w1 o) ∧
  (∀ id, backend ex_env_flaky (calls r.2) c = inr id →
     let r' := run ex_env_flaky (NewObject_rest ex_env_flaky "/r/a/f" 0%nat) r.2 in
     ∃ o, r'.1 = Some (mkResolved (Some o) false false None) ∧
          objectMap r'.2 = <["/r/a/f" := o]> (objectMap ex_w1) ∧
          deref r'.2 o = mkObject id "idA" 100 5).
Proof.
  apply (proj2 (NewObject_backend_failure ex_env_flaky) "/r/a/f" 0%nat ex_w1
           (mkFileInfo false 100 5) "quota exceeded"); reflexivity.
Defined.

(** The same through [NewObject], with the parent created on the way. *)
Example NewObject_backend_failure_rolls_back :
  let r := run ex_env_down (NewObject ex_env_down 3 "/r/a") ex_w0 in
  r.1 = Some (mkResolved None false false (Some "backend down")) ∧
  objectMap r.2 = ∅ ∧ length (calls r.2) = 1%nat.
Proof. by vm_compute. Qed.

(** ** Parent before child *)

Lemma steps_call (E : Env) {X R : Type} (e : event X) (f : X → prog R) (w : World) :
  steps E (call e ≫= f) w = (w, existT X e) :: steps E (f (sem E e w).1) (sem E e w).2.
Proof. rewrite steps_bind. simpl. by destruct (sem E e w). Qed.


Lemma peekObject_parent (E : Env) loc pObj w w' l :
  parent_known E loc pObj w → GDId (deref w pObj) ≠ "" →
  heap w' = heap w ++ l → cfg w' = cfg w →
  objectMap w' !! filepath_Dir E loc = objectMap w !! filepath_Dir E loc →
  ∃ po, peekObject E (filepath_Dir E loc) w' = Some po ∧ GDId po ≠ "" ∧
        GDId po = GDId (deref w pObj).
Proof.
  intros Hk Hid Hh Hc Hm. unfold peekObject.
  destruct Hk as [(Hd & Hr & Hlive & Hg) | (Hd & Ho)].
  - rewrite decide_True by done. rewrite Hc. rewrite decide_False by done.
    eexists. split; [done |]. simpl. by rewrite Hg.
  - rewrite decide_False by done. rewrite Hm, Ho. simpl.
    eexists. split; [done |].
    rewrite (deref_grown w w' pObj l Hh) by (by apply deref_live). done.
Qed.

Lemma steps_NewObject_rest_pbc (E : Env) loc pObj w :
  loc ≠ binPath E → parent_known E loc pObj w →
  Forall (parent_before_child E) (steps E (NewObject_rest E loc pObj) w).
Proof.
  intros Hroot Hk. unfold NewObject_rest.
  rewrite steps_call. apply Forall_cons. split; [exact I |]. simpl sem. cbn [fst snd].
  destruct (isLocked pObj w) eqn:Hl; [by constructor |].
  assert (GDId (deref w pObj) ≠ "") as Hid.
  { unfold isLocked in Hl. by apply bool_decide_eq_false in Hl. }
  pose proof (deref_live w pObj Hid) as Hlive.
  rewrite steps_call. apply Forall_cons. split; [exact I |]. simpl sem. cbn [fst snd].
  destruct (os_Stat E loc) as [err | fi]; [by constructor |].
  rewrite steps_call. apply Forall_cons. split; [exact I |]. simpl sem. cbn [fst snd].
  rewrite steps_call. apply Forall_cons. split; [exact I |]. simpl sem. cbn [fst snd].
  set (v := mkObject "" (GDId (deref w pObj)) _ (fi_Size fi)).
  rewrite steps_call. apply Forall_cons. split.
  { unfold parent_before_child. simpl. intros Ho. split; [done |].
    destruct (peekObject_parent E loc pObj w (set_heap (heap w ++ [v]) w) [v] Hk Hid)
      as (po & Hp & Hne & Hpo); [done | done | done |].
    exists po. split; [done |]. split; [done |].
    pose proof (deref_alloc_new w v) as Hv. simpl in Hv.
    rewrite Hv. by rewrite Hpo. }
  simpl sem. unfold storeObject. cbn [objectMap set_heap].
  destruct (objectMap w !! loc) as [o |] eqn:Ho; cbn [fst snd negb]; [by constructor |].
  rewrite steps_call. apply Forall_cons. split; [exact I |]. simpl sem. cbn [fst snd].
  rewrite steps_call. apply Forall_cons. split; [exact I |]. simpl sem. cbn [fst snd].
  rewrite !(deref_grown w _ pObj [v]) by done.
  rewrite steps_call. apply Forall_cons. split.
  { unfold parent_before_child. simpl. intros k Hk'. injection Hk' as <-.
    destruct (peekObject_parent E loc pObj w
                (set_objectMap (<[loc := length (heap w)]> (objectMap w))
                   (set_heap (heap w ++ [v]) w)) [v] Hk Hid)
      as (po & Hp & Hne & Hpo); [done | done | |].
    { simpl. apply lookup_insert_ne. intros Heq.
      destruct Hk as [(Hd & _) | (Hd & Hod)]; [congruence |].
      rewrite <- Heq in Hod. congruence. }
    exists po, (fi_IsDir fi). split; [done |]. split; [done |].
    rewrite Hpo. done. }
  simpl sem. destruct (execCommand E _ _) as [[err | id] w3]; cbn [fst snd].
  - rewrite steps_call. apply Forall_cons. split; [exact I |]. by constructor.
  - rewrite steps_call. apply Forall_cons. split; [exact I |].
    rewrite steps_call. apply Forall_cons. split; [exact I |]. by constructor.
Qed.

(** A call of [NewObject] that reports neither an existing entry, nor a
    lock, nor an error has created the entry it returns. *)
Lemma NewObject_fresh_result (E : Env) fuel loc w r :
  (run E (NewObject E fuel loc) w).1 = Some r →
  res_err r = None → res_loaded r = false → res_locked r = false →
  ∃ o, res_obj r = Some o ∧ loc ≠ binPath E ∧
       objectMap (run E (NewObject E fuel loc) w).2 !! loc = Some o.
Proof.
  intros Hr He Hl Hk. destruct fuel as [| fuel]; [done |].
  destruct (decide (loc = binPath E)) as [-> | Hroot].
  { rewrite run_NewObject_root in Hr. simpl in Hr. injection Hr as <-. done. }
  destruct (objectMap w !! loc) as [o |] eqn:Ho.
  { rewrite (run_NewObject_loaded E fuel loc o) in Hr by done.
    simpl in Hr. injection Hr as <-. done. }
  rewrite run_NewObject_missing in * by done.
  assert (∀ pObj w1, objectMap w1 !! loc = None →
            (run E (NewObject_rest E loc pObj) w1).1 = Some r →
            ∃ o, res_obj r = Some o ∧ loc ≠ binPath E ∧
                 objectMap (run E (NewObject_rest E loc pObj) w1).2 !! loc = Some o) as Hrest.
  { intros pObj w1 Ho1 Hr1.
    destruct (isLocked pObj w1) eqn:Hlk.
    { rewrite run_NewObject_rest_locked in Hr1 by done. injection Hr1 as <-. done. }
    destruct (os_Stat E loc) as [err | fi] eqn:Hs.
    { rewrite (run_NewObject_rest_stat_error E loc pObj w1 err) in Hr1 by done.
      injection Hr1 as <-. done. }
    rewrite (run_NewObject_rest_exec E loc pObj w1 fi) in * by done.
    destruct (if TestMode (cfg w1) then _ else _) as [err | id]; simpl in *.
    - injection Hr1 as <-. done.
    - injection Hr1 as <-. eexists. split; [done |]. split; [done |].
      simpl. by rewrite lookup_insert_eq. }
  destruct (loadObject E (filepath_Dir E loc) w) as [[pObj |] w1] eqn:Hld; cbn [fst snd] in *.
  - apply Hrest; [| done].
    unfold loadObject in Hld. case_decide; [| by simplify_eq].
    case_decide; simpl in Hld; by simplify_eq.
  - destruct (run E (NewObject E fuel (filepath_Dir E loc)) w) as [r1 w2] eqn:Hrec.
    cbn [fst snd] in *.
    destruct (after_parent r1) as [early | pObj] eqn:Hap; cbn [fst snd] in *.
    + exfalso. subst early. unfold after_parent in Hap.
      destruct r1 as [r1 |]; [| done].
      destruct (res_err r1); [simplify_eq; done |].
      destruct (res_loaded r1 || res_locked r1) eqn:Hor.
      * simplify_eq. simpl in *. rewrite Hl, Hk in Hor. done.
      * by destruct (res_obj r1).
    + destruct (objectMap w2 !! loc) as [o |] eqn:Ho2; [| by apply Hrest].
      exfalso.
      destruct (isLocked pObj w2) eqn:Hlk.
      { rewrite run_NewObject_rest_locked in Hr by done. injection Hr as <-. done. }
      destruct (os_Stat E loc) as [err | fi] eqn:Hs.
      { rewrite (run_NewObject_rest_stat_error E loc pObj w2 err) in Hr by done.
        injection Hr as <-. done. }
      rewrite (run_NewObject_rest_lost E loc pObj w2 fi) in Hr by done.
      injection Hr as <-. done.
Qed.

(** One call run alone: every insert into the store that goes through is
    for a path other than the sync root, names as the parent's identifier
    the identifier that a lookup of the parent directory finds in that state
    (the stored entry's, or the synthesized root's), and that identifier is
    not empty; and every creation command is issued in a state in which the
    parent directory's identifier is not empty, with that identifier. *)
Lemma NewObject_alone_parent_before_child (E : Env) fuel loc w :
  Forall (parent_before_child E) (steps E (NewObject E fuel loc) w).
Proof.
  revert loc w. induction fuel as [| fuel IH]; intros loc w; [by constructor |].
  rewrite NewObject_S, steps_call. apply Forall_cons. split; [exact I |]. simpl sem.
  destruct (decide (loc = binPath E)) as [-> | Hroot].
  { rewrite loadObject_root. cbn [fst snd]. rewrite steps_call.
    apply Forall_cons. split; [exact I |]. by constructor. }
  rewrite loadObject_key by done. cbn [fst snd].
  destruct (objectMap w !! loc) as [o |] eqn:Ho.
  { rewrite steps_call. apply Forall_cons. split; [exact I |]. by constructor. }
  rewrite steps_call. apply Forall_cons. split; [exact I |]. simpl sem.
  rewrite steps_bind. apply Forall_app.
  destruct (decide (filepath_Dir E loc = binPath E)) as [Hd | Hd].
  - rewrite Hd, loadObject_root. cbn [fst snd]. rewrite run_ret, steps_ret. cbn [fst snd].
    split; [by constructor |].
    apply steps_NewObject_rest_pbc; [done |]. left.
    rewrite Hd. cbn [cfg heap]. split; [done |]. split; [by case_decide |].
    rewrite length_app. simpl. split; [lia |].
    unfold deref. cbn [heap].
    rewrite list_lookup_total_alt, lookup_app_r by lia. rewrite Nat.sub_diag. simpl.
    by case_decide.
  - rewrite loadObject_key by done. cbn [fst snd].
    destruct (objectMap w !! filepath_Dir E loc) as [pObj |] eqn:Hp.
    + split; [by constructor |]. simpl.
      apply steps_NewObject_rest_pbc; [done |]. right. done.
    + rewrite steps_bind. rewrite run_bind. split.
      * apply Forall_app. split; [apply IH | by constructor].
      * destruct (run E (NewObject E fuel (filepath_Dir E loc)) w) as [r1 w2] eqn:Hrec.
        simpl.
        destruct (after_parent r1) as [early | pObj] eqn:Hap; [by constructor |].
        apply steps_NewObject_rest_pbc; [done |]. right. split; [done |].
        unfold after_parent in Hap. destruct r1 as [r1 |]; [| done].
        destruct (res_err r1) eqn:He; [done |].
        destruct (res_loaded r1 || res_locked r1) eqn:Hor; [done |].
        apply orb_false_iff in Hor as [Hl Hk].
        destruct (NewObject_fresh_result E fuel (filepath_Dir E loc) w r1)
          as (o & Hobj & _ & Hm); [by rewrite Hrec | done | done | done |].
        rewrite Hrec in Hm. simpl in Hm. rewrite Hobj in Hap. by simplify_eq.
Qed.

(** ** The copy through JSON *)

Lemma utf8_coerce_from_valid skip s :
  utf8_valid_from skip s = true → utf8_coerce_from skip s = s.
Proof.
  revert skip. induction s as [| c t IH]; intros skip H; [done |].
  simpl in *. destruct skip as [| k].
  - destruct (N_of_ascii c <? 128)%N.
    + by rewrite IH.
    + destruct (utf8_tail c t) as [n |]; [| done]. by rewrite IH.
  - by rewrite IH.
Qed.

Lemma utf8_coerce_valid s : utf8_valid s = true → utf8_coerce s = s.
Proof. apply utf8_coerce_from_valid. Qed.

Lemma decode_encode_Object o : decode_Object (encode_Object o) = Some (coerce_Object o).
Proof. done. Qed.

(** Reading back what was written for a list of entries: each entry is
    inserted under its coerced key, later ones over earlier ones. *)
Lemma json_Unmarshal_encoded (l : list (string * Object)) (m : gmap string Object) :
  json_Unmarshal ((λ kv : string * Object, (utf8_coerce kv.1, encode_Object kv.2)) <$> l) m
  = Some (foldl (λ acc kv, <[utf8_coerce kv.1 := coerce_Object kv.2]> acc) m l).
Proof.
  revert m. induction l as [| [k o] l IH]; intros m; [done |].
  unfold json_Unmarshal in *. simpl. rewrite IH. done.
Qed.

Lemma foldl_insert_NoDup (l : list (string * Object)) (m : gmap string Object) :
  NoDup l.*1 →
  foldl (λ acc kv, <[kv.1 := kv.2]> acc) m l = list_to_map l ∪ m.
Proof.
  revert m. induction l as [| [k o] l IH]; intros m Hnd; simpl.
  - by rewrite (left_id_L ∅ (∪)).
  - inversion Hnd as [| ? ? Hk Hnd']; subst. rewrite IH by done.
    rewrite <- insert_union_l.
    rewrite insert_union_r; [done |]. by apply not_elem_of_list_to_map_1.
Qed.

(** On well-formed UTF-8 keys and identifiers the copy is exact. *)
Lemma json_roundtrip_valid (m : gmap string Object) :
  (∀ k o, m !! k = Some o →
          utf8_valid k = true ∧ utf8_valid (GDId o) = true ∧ utf8_valid (GDPId o) = true) →
  json_Unmarshal (json_Marshal m) ∅ = Some m.
Proof.
  intros Hv. unfold json_Marshal. rewrite json_Unmarshal_encoded. f_equal.
  assert (Forall (λ kv : string * Object,
            utf8_coerce kv.1 = kv.1 ∧ coerce_Object kv.2 = kv.2)
            (merge_sort key_le (map_to_list m))) as Hall.
  { apply Forall_forall. intros [k o] Hin.
    rewrite merge_sort_Permutation in Hin. apply elem_of_map_to_list in Hin.
    destruct (Hv k o Hin) as (Hk & Hg & Hp). simpl. split.
    - by apply utf8_coerce_valid.
    - destruct o as [g p lm sz]. unfold coerce_Object. simpl in *.
      by rewrite !utf8_coerce_valid. }
  assert (∀ (l : list (string * Object)) (acc : gmap string Object),
            Forall (λ kv : string * Object,
              utf8_coerce kv.1 = kv.1 ∧ coerce_Object kv.2 = kv.2) l →
            foldl (λ acc kv, <[utf8_coerce kv.1 := coerce_Object kv.2]> acc) acc l
            = foldl (λ acc kv, <[kv.1 := kv.2]> acc) acc l) as Hsame.
  { induction l as [| kv l IHl]; intros acc Hl; [done |].
    inversion Hl as [| ? ? [H1 H2] Hl']; subst. simpl. rewrite H1, H2. by apply IHl. }
  rewrite Hsame by done. rewrite foldl_insert_NoDup.
  - rewrite (right_id_L ∅ (∪)).
    rewrite (list_to_map_proper _ (map_to_list m)).
    + apply list_to_map_to_list.
    + rewrite merge_sort_Permutation. apply NoDup_fst_map_to_list.
    + apply merge_sort_Permutation.
  - rewrite merge_sort_Permutation. apply NoDup_fst_map_to_list.
Qed.

Lemma CopyObjects_valid w : store_utf8 w → CopyObjects w = snapshot w.
Proof.
  intros Hv. unfold CopyObjects. rewrite json_roundtrip_valid; [done |].
  intros k o Hk. unfold snapshot in Hk. rewrite lookup_fmap in Hk.
  destruct (objectMap w !! k) as [p |] eqn:Hp; [| done].
  simpl in Hk. injection Hk as <-. by apply Hv.
Qed.

(** ** Persisting and reloading *)

Lemma load_entries_lookup (l : list (string * Object)) (pre : list Object) (k : string) :
  ((pre ++ l.*2) !!!.) <$>
    ((list_to_map (zip l.*1 (seq (length pre) (length l))) : gmap string ptr) !! k)
  = (list_to_map l : gmap string Object) !! k.
Proof.
  revert pre. induction l as [| [k0 o0] l IH]; intros pre; [done |].
  simpl. destruct (decide (k0 = k)) as [-> | Hne].
  - rewrite !lookup_insert_eq. simpl. f_equal.
    rewrite list_lookup_total_alt, lookup_app_r by lia. by rewrite Nat.sub_diag.
  - rewrite !lookup_insert_ne by done.
    specialize (IH (pre ++ [o0])). rewrite length_app in IH. simpl in IH.
    rewrite Nat.add_1_r in IH. rewrite <- app_assoc in IH. done.
Qed.

Lemma load_entries_snapshot (m : gmap string Object) c path fs :
  snapshot (mkWorld c path (load_entries (map_to_list m)).1
                    (load_entries (map_to_list m)).2 fs [] [] []) = m.
Proof.
  apply map_eq. intros k. unfold snapshot, deref. simpl. rewrite lookup_fmap.
  pose proof (load_entries_lookup (map_to_list m) [] k) as H. simpl in H.
  rewrite list_to_map_to_list in H. exact H.
Qed.

Lemma snapshot_dom w k : is_Some (snapshot w !! k) ↔ is_Some (objectMap w !! k).
Proof. unfold snapshot. rewrite lookup_fmap. apply fmap_is_Some. Qed.

#[local] Arguments json_Marshal : simpl never.
#[local] Arguments json_Unmarshal : simpl never.
#[local] Arguments load_entries : simpl never.

(** C9, amended. For every store whose paths and identifiers are
    well-formed UTF-8, once [SaveToFile] has written the backing file,
    [NewObjectManager] loads from it a store with exactly the same keys and,
    under each key, the same [gd_id], [gdp_id], [last_mod] and [size]. *)
Theorem SaveToFile_NewObjectManager_roundtrip (E : Env) w c :
  store_utf8 w →
  ObjectMapFilePath w = binPath E +:+ "/object_map.json" →
  os_WriteFile E (ObjectMapFilePath w) (json_Marshal (CopyObjects w)) = None →
  os_OpenFile E (ObjectMapFilePath w) = None →
  (run E SaveToFile w).1 = None ∧
  ∃ w', NewObjectManager E c (files (run E SaveToFile w).2) = inr w' ∧
        snapshot w' = snapshot w ∧
        (∀ k, is_Some (objectMap w' !! k) ↔ is_Some (objectMap w !! k)).
Proof.
  intros Hv Hpath Hwr Hop. unfold SaveToFile. simpl. rewrite Hwr. simpl.
  split; [done |]. unfold NewObjectManager, readObjectMap.
  rewrite <- Hpath, Hop. rewrite !lookup_insert_eq. cbn [default]. unfold id.
  rewrite CopyObjects_valid by done. cbv iota.
  rewrite json_roundtrip_valid; cycle 1.
  { intros k o Hk. unfold snapshot in Hk. rewrite lookup_fmap in Hk.
    destruct (objectMap w !! k) as [p |] eqn:Hp; [| done].
    simpl in Hk. injection Hk as <-. by apply Hv. }
  destruct (load_entries (map_to_list (snapshot w))) as [h om] eqn:Hle.
  eexists. split; [done |].
  pose proof (load_entries_snapshot (snapshot w) c (ObjectMapFilePath w)
    (<[ObjectMapFilePath w := JsonText (json_Marshal (snapshot w))]> (files w))) as Hs.
  rewrite Hle in Hs. cbn [fst snd] in Hs. split; [exact Hs |].
  intros k. rewrite <- !snapshot_dom. by rewrite Hs.
Qed.

Lemma ex_w2_utf8 : store_utf8 ex_w2.
Proof.
  intros k o H. unfold ex_w2 in H. cbn [objectMap] in H.
  rewrite lookup_insert_Some in H. destruct H as [[<- <-] | [_ H]]; [by vm_compute |].
  rewrite lookup_singleton_Some in H. destruct H as [<- <-]. by vm_compute.
Qed.

Lemma SaveToFile_NewObjectManager_roundtrip_witness :
  (run ex_env SaveToFile ex_w2).1 = None ∧
  ∃ w', NewObjectManager ex_env ex_cfg (files (run ex_env SaveToFile ex_w2).2) = inr w' ∧
        snapshot w' = snapshot ex_w2 ∧
        (∀ k, is_Some (objectMap w' !! k) ↔ is_Some (objectMap ex_w2 !! k)).
Proof.
  apply (SaveToFile_NewObjectManager_roundtrip ex_env ex_w2 ex_cfg);
    [exact ex_w2_utf8 | reflexivity | reflexivity | reflexivity].
Defined.

(** A tracked file whose name is not UTF-8 comes back under another key:
    the byte 255 has become the three bytes of U+FFFD. *)
Lemma SaveToFile_NewObjectManager_counterexample :
  objectMap ex_w_bad !! ex_bad_name = Some 0%nat ∧
  (run ex_env SaveToFile ex_w_bad).1 = None ∧
  ∃ w', NewObjectManager ex_env ex_cfg (files (run ex_env SaveToFile ex_w_bad).2) = inr w' ∧
        objectMap w' !! ex_bad_name = None ∧
        map_to_list (snapshot w') = [("/r/" +:+ replacement_rune, mkObject "idX" "." 100 5)].
Proof.
  split; [by vm_compute |]. split; [by vm_compute |].
  eexists. split; [by vm_compute |]. split; by vm_compute.
Qed.

(** ** Reconciling deletions *)

Lemma run_DeleteObjectGDrive (E : Env) loc object w :
  run E (DeleteObjectGDrive E loc object) w =
    (tt, mkWorld (cfg w) (ObjectMapFilePath w) (heap w) (delete loc (objectMap w)) (files w)
           (calls w ++ [delete_call (loc, object)])
           (console w ++ ["deleted: " +:+ strings_TrimPrefix loc (binPath E) +:+ " (" +:+
                          getFileSizeFormatted E (Size object) +:+ ")"])
           (ntr w)).
Proof.
  unfold DeleteObjectGDrive. simpl. unfold execCommand.
  by destruct (TestMode (cfg w)).
Qed.

Lemma run_deleteAll (E : Env) (l : list (string * Object)) w :
  calls (run E (deleteAll E l) w).2 = calls w ++ (delete_call <$> l) ∧
  objectMap (run E (deleteAll E l) w).2 = foldl (λ m kv, delete kv.1 m) (objectMap w) l ∧
  heap (run E (deleteAll E l) w).2 = heap w ∧
  cfg (run E (deleteAll E l) w).2 = cfg w.
Proof.
  revert w. induction l as [| [loc object] l IH]; intros w.
  - simpl. by rewrite app_nil_r.
  - change (deleteAll E ((loc, object) :: l))
      with (DeleteObjectGDrive E loc object ≫= λ _, deleteAll E l).
    rewrite run_bind, run_DeleteObjectGDrive. cbn [fst snd].
    destruct (IH (mkWorld (cfg w) (ObjectMapFilePath w) (heap w) (delete loc (objectMap w))
                    (files w) (calls w ++ [delete_call (loc, object)])
                    (console w ++ ["deleted: " +:+ strings_TrimPrefix loc (binPath E) +:+
                                   " (" +:+ getFileSizeFormatted E (Size object) +:+ ")"])
                    (ntr w))) as (H1 & H2 & H3 & H4).
    rewrite H1, H2, H3, H4. cbn. by rewrite <- app_assoc.
Qed.

Lemma foldl_delete_lookup {A : Type} (l : list string) (m : gmap string A) k :
  foldl (λ q loc, delete loc q) m l !! k = if decide (k ∈ l) then None else m !! k.
Proof.
  revert m. induction l as [| x l IH]; intros m.
  - destruct (decide (k ∈ [])) as [H | H]; [by apply elem_of_nil in H | done].
  - cbn [foldl]. rewrite IH.
    destruct (decide (k ∈ l)) as [Hl | Hl]; destruct (decide (k ∈ x :: l)) as [Hx | Hx];
      try done.
    + exfalso. apply Hx. by right.
    + apply elem_of_cons in Hx as [-> | Hx]; [| done]. apply lookup_delete_eq.
    + apply lookup_delete_ne. intros ->. apply Hx. by left.
Qed.

Lemma foldl_delete_pairs {A B : Type} (l : list (string * B)) (m : gmap string A) :
  foldl (λ m kv, delete kv.1 m) m l = foldl (λ q loc, delete loc q) m l.*1.
Proof. revert m. induction l as [| kv l IH]; intros m; [done |]. simpl. apply IH. Qed.

Lemma calls_tagged_app t l1 l2 :
  calls_tagged t (l1 ++ l2) = calls_tagged t l1 ++ calls_tagged t l2.
Proof. apply filter_app. Qed.

Lemma calls_tagged_delete_notin loc (l : list (string * Object)) :
  loc ∉ l.*1 → calls_tagged (TagDelete loc) (delete_call <$> l) = [].
Proof.
  induction l as [| [k o] l IH]; intros Hn; [done |].
  unfold calls_tagged in *. rewrite fmap_cons, filter_cons_False.
  - apply IH. intros H. apply Hn. rewrite fmap_cons. by right.
  - simpl. intros [= ->]. apply Hn. rewrite fmap_cons. by left.
Qed.

Lemma calls_tagged_delete_in loc obj (l : list (string * Object)) :
  NoDup l.*1 → (loc, obj) ∈ l →
  calls_tagged (TagDelete loc) (delete_call <$> l) = [delete_call (loc, obj)].
Proof.
  induction l as [| [k o] l IH]; intros Hnd Hin; [by apply elem_of_nil in Hin |].
  rewrite fmap_cons in Hnd. apply NoDup_cons in Hnd as [Hk Hnd].
  apply elem_of_cons in Hin as [Heq | Hin].
  - injection Heq as <- <-. unfold calls_tagged. rewrite fmap_cons, filter_cons_True by done.
    f_equal. by apply calls_tagged_delete_notin.
  - assert (k ≠ loc) as Hne.
    { intros ->. apply Hk. apply list_elem_of_fmap. by exists (loc, obj). }
    unfold calls_tagged in *. rewrite fmap_cons, filter_cons_False.
    + by apply IH.
    + simpl. congruence.
Qed.

Lemma run_SaveToFile_frame (E : Env) w :
  calls (run E SaveToFile w).2 = calls w ∧
  objectMap (run E SaveToFile w).2 = objectMap w ∧
  heap (run E SaveToFile w).2 = heap w.
Proof.
  unfold SaveToFile. simpl.
  by destruct (os_WriteFile E (ObjectMapFilePath w) _).
Qed.

(** The state after the deletion tasks and the final save, from a store
    whose copy through JSON is exact. *)
Lemma run_deletionPhase (E : Env) walked order w :
  store_utf8 w → (∀ q, order q ≡ₚ map_to_list q) →
  let dq := deletedQueue (snapshot w) walked in
  calls (run E (deletionPhase E (inr walked) order) w).2
    = calls w ++ (delete_call <$> order dq) ∧
  objectMap (run E (deletionPhase E (inr walked) order) w).2
    = foldl (λ m kv, delete kv.1 m) (objectMap w) (order dq).
Proof.
  intros Hv Hord dq. unfold deletionPhase. rewrite run_call. simpl sem. cbn [fst snd].
  rewrite CopyObjects_valid by done. fold dq. rewrite run_bind.
  destruct (run_SaveToFile_frame E
              (run E (if decide (dq = ∅) then mret tt
                      else deleteAll E (order dq) ≫= λ _, call (EvPrint separator)) w).2)
    as (H1 & H2 & _).
  rewrite H1, H2. clear H1 H2.
  destruct (decide (dq = ∅)) as [He | Hne].
  - assert (order dq = []) as ->.
    { apply Permutation_nil_r. rewrite Hord, He. by rewrite map_to_list_empty. }
    simpl. by rewrite app_nil_r.
  - rewrite run_bind. simpl.
    destruct (run_deleteAll E (order dq) w) as (H1 & H2 & _). by rewrite H1, H2.
Qed.

(** What the commands issued and the entries removed for the tasks of the
    queue come to, in whatever order. *)
Lemma reconciled w walked executed removed (cs : list Call) (m : gmap string ptr) :
  executed ≡ₚ map_to_list (deletedQueue (snapshot w) walked) →
  removed ≡ₚ map_to_list (deletedQueue (snapshot w) walked) →
  cs = calls w ++ (delete_call <$> executed) →
  m = foldl (λ m kv, delete kv.1 m) (objectMap w) removed →
  (∀ loc o, objectMap w !! loc = Some o → loc ∉ walked →
     calls_tagged (TagDelete loc) cs
       = calls_tagged (TagDelete loc) (calls w) ++
         [mkCall (TagDelete loc) "gdrive"
            ["files"; "delete"; GDId (deref w o); "--recursive"]] ∧
     m !! loc = None) ∧
  (∀ loc, loc ∈ walked →
     calls_tagged (TagDelete loc) cs = calls_tagged (TagDelete loc) (calls w) ∧
     m !! loc = objectMap w !! loc).
Proof.
  set (dq := deletedQueue (snapshot w) walked). intros He Hr -> ->.
  assert (Hnd : NoDup executed.*1).
  { rewrite He. apply NoDup_fst_map_to_list. }
  assert (Hin : ∀ k v, (k, v) ∈ map_to_list dq ↔ (k ∉ walked) ∧ snapshot w !! k = Some v).
  { intros k v. rewrite elem_of_map_to_list. unfold dq, deletedQueue.
    rewrite foldl_delete_lookup. case_decide; split; try done.
    - by intros [? _].
    - by intros [_ ?]. }
  assert (Hkeys : ∀ k, k ∈ (map_to_list dq).*1 ↔
                       (k ∉ walked) ∧ is_Some (objectMap w !! k)).
  { intros k. rewrite list_elem_of_fmap. split.
    - intros ([k' v] & -> & Hkv). apply Hin in Hkv as [Hw Hs]. split; [done|].
      apply (proj1 (snapshot_dom w k')). by rewrite Hs.
    - intros [Hw Hs]. apply (proj2 (snapshot_dom w k)) in Hs as [v Hs]. exists (k, v).
      split; [done|]. by apply Hin. }
  split.
  - intros loc o Ho Hw.
    assert (Hkv : (loc, deref w o) ∈ map_to_list dq).
    { apply Hin. split; [done|]. unfold snapshot. by rewrite lookup_fmap, Ho. }
    split.
    + rewrite calls_tagged_app. f_equal.
      rewrite (calls_tagged_delete_in loc (deref w o)); [done | done |]. by rewrite He.
    + rewrite foldl_delete_pairs, foldl_delete_lookup. rewrite decide_True; [done|].
      rewrite Hr. apply Hkeys. eauto.
  - intros loc Hw. split.
    + rewrite calls_tagged_app, calls_tagged_delete_notin; [by rewrite app_nil_r|].
      rewrite He, Hkeys. by intros [? _].
    + rewrite foldl_delete_pairs, foldl_delete_lookup. rewrite decide_False; [done|].
      rewrite Hr, Hkeys. by intros [? _].
Qed.

(** With the tasks run one after the other, in any order. *)
Lemma deletionPhase_reconciles (E : Env) walked order w :
  store_utf8 w → (∀ q, order q ≡ₚ map_to_list q) →
  let r := run E (deletionPhase E (inr walked) order) w in
  (∀ loc o, objectMap w !! loc = Some o → loc ∉ walked →
     calls_tagged (TagDelete loc) (calls r.2)
       = calls_tagged (TagDelete loc) (calls w) ++
         [mkCall (TagDelete loc) "gdrive"
            ["files"; "delete"; GDId (deref w o); "--recursive"]] ∧
     objectMap r.2 !! loc = None) ∧
  (∀ loc, loc ∈ walked →
     calls_tagged (TagDelete loc) (calls r.2) = calls_tagged (TagDelete loc) (calls w) ∧
     objectMap r.2 !! loc = objectMap w !! loc).
Proof.
  intros Hv Hord r. subst r.
  destruct (run_deletionPhase E walked order w Hv Hord) as (Hc & Hm).
  by apply (reconciled w walked (order (deletedQueue (snapshot w) walked))
              (order (deletedQueue (snapshot w) walked))).
Qed.

Example deletionPhase_removes_f :
  let r := run ex_env (deletionPhase ex_env (inr ["/r"; "/r/a"]) map_to_list) ex_w2 in
  calls r.2 = [mkCall (TagDelete "/r/a/f") "gdrive" ["files"; "delete"; "idF"; "--recursive"]] ∧
  map_to_list (objectMap r.2) = [("/r/a", 0%nat)].
Proof. by vm_compute. Qed.

(** *** The tasks on the pool *)

Section deletion_pool_facts.
Context (E : Env).

Lemma turn_deletion cs w i c :
  cs !! i = Some c →
  turn E i (deletion_thread E <$> cs, w)
  = (deletion_thread E <$> <[i := dstep c]> cs, deffect E c w).
Proof.
  intros Hc. unfold turn. cbn [fst snd]. rewrite list_lookup_fmap, Hc.
  cbn [fmap option_fmap option_map].
  rewrite list_fmap_insert.
  destruct c as [[| [loc object] js] | loc object js | loc object js | loc object js].
  - cbn. by rewrite list_insert_id by (by rewrite list_lookup_fmap, Hc).
  - cbn [deletion_thread deleteAll]. unfold DeleteObjectGDrive. cbn. unfold execCommand.
    by destruct (TestMode (cfg w)).
  - done.
  - done.
  - done.
Qed.
Lemma turn_deletion_none cs w i :
  cs !! i = None → turn E i (deletion_thread E <$> cs, w) = (deletion_thread E <$> cs, w).
Proof. intros Hc. unfold turn. cbn [fst snd]. by rewrite list_lookup_fmap, Hc. Qed.

Lemma concat_insert_same {A B} (f : B → list A) (l : list B) i c c' :
  l !! i = Some c → f c' = f c → concat (f <$> <[i := c']> l) = concat (f <$> l).
Proof.
  intros Hc Hf. rewrite list_fmap_insert, Hf.
  by rewrite list_insert_id by (by rewrite list_lookup_fmap, Hc).
Qed.

Lemma concat_insert_cons {A B} (f : B → list A) (l : list B) i c c' x :
  l !! i = Some c → f c = x :: f c' →
  concat (f <$> l) ≡ₚ x :: concat (f <$> <[i := c']> l).
Proof.
  revert i. induction l as [| y l IH]; intros i Hc Hf; [done|].
  destruct i as [| i]; simpl in *.
  - injection Hc as ->. by rewrite Hf.
  - rewrite (IH i Hc Hf). by rewrite Permutation_middle.
Qed.

Lemma turn_del_inv all w0 cs w executed removed i :
  del_inv all w0 cs w executed removed →
  ∃ cs' executed' removed',
    turn E i (deletion_thread E <$> cs, w)
    = (deletion_thread E <$> cs', (turn E i (deletion_thread E <$> cs, w)).2) ∧
    del_inv all w0 cs' (turn E i (deletion_thread E <$> cs, w)).2 executed' removed' ∧
    ∀ j, cs' !! j = (if decide (i = j) then dstep else id) <$> cs !! j.
Proof.
  intros [Hc Hm Hh He Hr].
  destruct (cs !! i) as [c|] eqn:Hi.
  2:{ rewrite turn_deletion_none by done. exists cs, executed, removed.
      split; [done|]. split; [done|]. intros j. case_decide; [subst; by rewrite Hi|].
      by rewrite option_fmap_id. }
  rewrite (turn_deletion cs w i c Hi). cbn [snd].
  assert (Hcs : ∀ j, <[i := dstep c]> cs !! j
                     = (if decide (i = j) then dstep else id) <$> cs !! j).
  { intros j. case_decide as Hij.
    - subst j. rewrite list_lookup_insert_eq by (by eapply lookup_lt_Some). by rewrite Hi.
    - rewrite list_lookup_insert_ne by done. by rewrite option_fmap_id. }
  destruct c as [[| [loc object] js] | loc object js | loc object js | loc object js];
    cbn [dstep deffect].
  - exists (<[i := CStart []]> cs), executed, removed. split; [done|]. split; [|done].
    rewrite list_insert_id by done. done.
  - exists (<[i := CAnswer loc object js]> cs), (executed ++ [(loc, object)]), removed.
    split; [done|]. split; [|done]. split; cbn.
    + by rewrite Hc, fmap_app, app_assoc.
    + done.
    + done.
    + rewrite <- He, <- app_assoc. apply Permutation_app_head. cbn.
      symmetry. by apply (concat_insert_cons pend_exec cs i (CStart ((loc, object) :: js))).
    + by rewrite (concat_insert_same pend_remove cs i (CStart ((loc, object) :: js))).
  - exists (<[i := CPrint loc object js]> cs), executed, removed.
    split; [done|]. split; [|done]. split; try done.
    + by rewrite (concat_insert_same pend_exec cs i (CAnswer loc object js)).
    + by rewrite (concat_insert_same pend_remove cs i (CAnswer loc object js)).
  - exists (<[i := CRemove loc object js]> cs), executed, removed.
    split; [done|]. split; [|done]. split; try done.
    + by rewrite (concat_insert_same pend_exec cs i (CPrint loc object js)).
    + by rewrite (concat_insert_same pend_remove cs i (CPrint loc object js)).
  - exists (<[i := CStart js]> cs), executed, (removed ++ [(loc, object)]).
    split; [done|]. split; [|done]. split; cbn.
    + done.
    + by rewrite foldl_app, Hm.
    + done.
    + by rewrite (concat_insert_same pend_exec cs i (CRemove loc object js)).
    + rewrite <- Hr, <- app_assoc. apply Permutation_app_head. cbn.
      symmetry. by apply (concat_insert_cons pend_remove cs i (CRemove loc object js)).
Qed.

Lemma schedule_del_inv all w0 sched : ∀ cs w executed removed,
  del_inv all w0 cs w executed removed →
  ∃ cs' executed' removed',
    (schedule E sched (deletion_thread E <$> cs, w)).1 = deletion_thread E <$> cs' ∧
    del_inv all w0 cs' (schedule E sched (deletion_thread E <$> cs, w)).2 executed' removed' ∧
    ∀ j, cs' !! j = Nat.iter (count_occ Nat.eq_dec sched j) dstep <$> cs !! j.
Proof.
  induction sched as [| i sched IH]; intros cs w executed removed Hinv.
  - exists cs, executed, removed. split; [done|]. split; [done|].
    intros j. simpl. by destruct (cs !! j).
  - destruct (turn_del_inv all w0 cs w executed removed i Hinv)
      as (cs1 & ex1 & rm1 & Ht & Hinv1 & Hcs1).
    unfold schedule. cbn [foldl]. rewrite Ht.
    destruct (IH cs1 _ ex1 rm1 Hinv1) as (cs2 & ex2 & rm2 & Hs & Hinv2 & Hcs2).
    exists cs2, ex2, rm2. split; [done|]. split; [done|].
    intros j. rewrite Hcs2, Hcs1. cbn [count_occ].
    destruct (cs !! j) as [c|]; [|done]. cbn.
    destruct (Nat.eq_dec i j) as [-> | Hij].
    + rewrite decide_True by done. by rewrite Nat.iter_succ_r.
    + by rewrite decide_False by done.
Qed.

Lemma iter_dstep_nil n : Nat.iter n dstep (CStart []) = CStart [].
Proof. induction n as [| n IH]; [done|]. by rewrite Nat.iter_succ_r. Qed.

Lemma iter_dstep_done js : ∀ n,
  (4 * length js ≤ n)%nat → Nat.iter n dstep (CStart js) = CStart [].
Proof.
  induction js as [| [loc object] js IH]; intros n Hn; [apply iter_dstep_nil|].
  cbn [length] in Hn.
  destruct n as [| [| [| [| n]]]]; try lia.
  rewrite !Nat.iter_succ_r. cbn [dstep]. apply IH. lia.
Qed.
(** Workers that get their turns finish their tasks: every command has
    been issued and every entry removed. *)
Lemma schedule_deleteAll parts sched w :
  (∀ i js, parts !! i = Some js → (4 * length js ≤ count_occ Nat.eq_dec sched i)%nat) →
  let s := schedule E sched ((λ js, Running (deleteAll E js)) <$> parts, w) in
  Forall (λ t, returned t = Some tt) s.1 ∧
  ∃ executed removed,
    executed ≡ₚ concat parts ∧ removed ≡ₚ concat parts ∧
    calls s.2 = calls w ++ (delete_call <$> executed) ∧
    objectMap s.2 = foldl (λ m kv, delete kv.1 m) (objectMap w) removed.
Proof.
  intros Hfair s. subst s.
  replace ((λ js, Running (deleteAll E js)) <$> parts)
    with (deletion_thread E <$> (CStart <$> parts)) by (by rewrite <- list_fmap_compose).
  destruct (schedule_del_inv (concat parts) w sched (CStart <$> parts) w [] [])
    as (cs & executed & removed & Hs & [Hc Hm Hh He Hr] & Hcs).
  { assert (He0 : pend_exec <$> (CStart <$> parts) = parts).
    { clear. induction parts as [| js parts IH]; [done|]. cbn. by rewrite IH. }
    assert (Hr0 : pend_remove <$> (CStart <$> parts) = parts).
    { clear. induction parts as [| js parts IH]; [done|]. cbn. by rewrite IH. }
    split; [by rewrite app_nil_r | done | done | by rewrite He0 | by rewrite Hr0]. }
  assert (Hdone : ∀ j c, cs !! j = Some c → c = CStart []).
  { intros j c Hj. rewrite Hcs, list_lookup_fmap in Hj.
    destruct (parts !! j) as [js|] eqn:Hp; [|done]. cbn in Hj. injection Hj as <-.
    apply iter_dstep_done. by eapply Hfair. }
  assert (Hnil : ∀ f : dconf → list (string * Object), f (CStart []) = [] →
            concat (f <$> cs) = []).
  { intros f Hf. clear -Hdone Hf. induction cs as [| c cs IH]; [done|].
    cbn. rewrite (Hdone 0%nat c eq_refl), Hf. cbn.
    apply IH. intros j c' Hj. by apply (Hdone (S j)). }
  rewrite (Hnil pend_exec eq_refl), app_nil_r in He.
  rewrite (Hnil pend_remove eq_refl), app_nil_r in Hr.
  rewrite Hs. split.
  - apply Forall_fmap, Forall_lookup. intros j c Hj. by rewrite (Hdone j c Hj).
  - by exists executed, removed.
Qed.
(** The part of C8 that holds. In a store whose paths and identifiers are
    well-formed UTF-8, with the deletion tasks shared out among the workers
    of the pool in any way and the workers taking their turns in any order
    in which each gets to finish: the phase returns; for every tracked path
    that the walk does not visit it has made exactly one recursive-delete
    call, on the identifier the entry holds, and the entry is gone from the
    store, whatever the backend answers. A tracked path that the walk visits
    keeps its entry and gets no delete call. *)
Theorem deletionPool_reconciles walked share sched w :
  store_utf8 w → (∀ q, concat (share q) ≡ₚ map_to_list q) →
  (∀ i js, share (deletedQueue (CopyObjects w) walked) !! i = Some js →
           (4 * length js ≤ count_occ Nat.eq_dec sched i)%nat) →
  ∃ r, deletionPool E (inr walked) share sched w = Some r ∧
    (∀ loc o, objectMap w !! loc = Some o → loc ∉ walked →
       calls_tagged (TagDelete loc) (calls r.2)
         = calls_tagged (TagDelete loc) (calls w) ++
           [mkCall (TagDelete loc) "gdrive"
              ["files"; "delete"; GDId (deref w o); "--recursive"]] ∧
       objectMap r.2 !! loc = None) ∧
    (∀ loc, loc ∈ walked →
       calls_tagged (TagDelete loc) (calls r.2) = calls_tagged (TagDelete loc) (calls w) ∧
       objectMap r.2 !! loc = objectMap w !! loc).
Proof.
  intros Hv Hshare Hfair. unfold deletionPool.
  rewrite CopyObjects_valid in * by done.
  set (dq := deletedQueue (snapshot w) walked) in *.
  destruct (decide (dq = ∅)) as [He | Hne].
  - eexists. split; [done|].
    destruct (run_SaveToFile_frame E w) as (H1 & H2 & _).
    apply (reconciled w walked [] []); fold dq.
    + by rewrite He, map_to_list_empty.
    + by rewrite He, map_to_list_empty.
    + by rewrite H1, app_nil_r.
    + by rewrite H2.
  - destruct (schedule_deleteAll (share dq) sched w Hfair)
      as (Hret & executed & removed & Hex & Hrm & Hc & Hm).
    set (s := schedule E sched _) in *.
    assert (Hall : forallb (λ t, bool_decide (returned t = Some tt)) s.1 = true).
    { apply Is_true_true, forallb_True.
      eapply Forall_impl; [exact Hret|]. intros t Ht. by apply bool_decide_pack. }
    rewrite Hall.
    eexists. split; [done|].
    rewrite run_call. cbn [sem fst snd].
    destruct (run_SaveToFile_frame E (set_console (console s.2 ++ [separator]) s.2))
      as (H1 & H2 & _).
    apply (reconciled w walked executed removed); fold dq.
    + by rewrite Hex, Hshare.
    + by rewrite Hrm, Hshare.
    + by rewrite H1.
    + by rewrite H2.
Qed.
End deletion_pool_facts.

Lemma deletionPool_reconciles_witness :
  store_utf8 ex_w2 ∧
  ∃ r, deletionPool ex_env (inr ["/r"]) ex_share [0; 1; 1; 0; 0; 1; 0; 1]%nat ex_w2 = Some r ∧
    (∀ loc o, objectMap ex_w2 !! loc = Some o → loc ∉ ["/r"] →
       calls_tagged (TagDelete loc) (calls r.2)
         = calls_tagged (TagDelete loc) (calls ex_w2) ++
           [mkCall (TagDelete loc) "gdrive"
              ["files"; "delete"; GDId (deref ex_w2 o); "--recursive"]] ∧
       objectMap r.2 !! loc = None) ∧
    (∀ loc, loc ∈ ["/r"] →
       calls_tagged (TagDelete loc) (calls r.2) = calls_tagged (TagDelete loc) (calls ex_w2) ∧
       objectMap r.2 !! loc = objectMap ex_w2 !! loc).
Proof.
  split; [exact ex_w2_utf8|].
  apply (deletionPool_reconciles ex_env ["/r"] ex_share [0; 1; 1; 0; 0; 1; 0; 1]%nat ex_w2).
  - exact ex_w2_utf8.
  - intros q. unfold ex_share. cbn [concat]. by rewrite app_nil_r, take_drop.
  - intros i js H. destruct i as [| [| i]]; vm_compute in H; [| | done];
      injection H as <-; vm_compute; lia.
Defined.

(** Both entries of the tree gone from the disk, with two workers. *)
Example deletionPool_removes_both :
  (λ r, (calls r.2, map_to_list (objectMap r.2))) <$>
    deletionPool ex_env (inr ["/r"]) ex_share [0; 1; 1; 0; 0; 1; 0; 1]%nat ex_w2
  = Some ([mkCall (TagDelete "/r/a/f") "gdrive" ["files"; "delete"; "idF"; "--recursive"];
           mkCall (TagDelete "/r/a") "gdrive" ["files"; "delete"; "idA"; "--recursive"]],
          []).
Proof. vm_compute. reflexivity. Qed.

(** C8, at its failing input. The store tracks a file under the sync root
    whose name is the one byte 255, which is not UTF-8. [CopyObjects] makes
    the deletion queue through JSON, so the queue holds the entry under the
    path with that byte replaced by U+FFFD, and the task is given that
    path. When the file is gone from the disk, the recursive-delete call is
    made on the entry's identifier, but [deleteObject] is called with the
    coerced path and the entry stays in the store, as it does in the file
    saved afterwards, which holds it under the coerced path. When the file
    is still on the disk and the walk visits it, [delete(deletedQueue, loc)]
    misses the coerced key as well: the same recursive-delete call is made,
    for a file that is there. Whether the backend accepts the call or not
    makes no difference. *)
Theorem deletionPool_coerced_path :
  objectMap ex_w_bad !! ex_bad_name = Some 0%nat ∧
  GDId (deref ex_w_bad 0%nat) = "idX" ∧
  (ex_bad_name ∉ ["/r"]) ∧
  (∀ E, E = ex_env ∨ E = ex_env_down →
     ∃ r, deletionPool E (inr ["/r"]) ex_share [0; 0; 0; 0]%nat ex_w_bad = Some r ∧
          calls r.2 = [mkCall (TagDelete ("/r/" +:+ replacement_rune)) "gdrive"
                         ["files"; "delete"; "idX"; "--recursive"]] ∧
          objectMap r.2 = objectMap ex_w_bad ∧
          files r.2 !! "/r/object_map.json"
            = Some (JsonText [("/r/" +:+ replacement_rune,
                               [("gd_id", JStr "idX"); ("gdp_id", JStr ".");
                                ("last_mod", JInt 100); ("size", JInt 5)])])) ∧
  (ex_bad_name ∈ ["/r"; ex_bad_name]) ∧
  (∃ r, deletionPool ex_env (inr ["/r"; ex_bad_name]) ex_share [0; 0; 0; 0]%nat ex_w_bad
          = Some r ∧
        calls r.2 = [mkCall (TagDelete ("/r/" +:+ replacement_rune)) "gdrive"
                       ["files"; "delete"; "idX"; "--recursive"]] ∧
        objectMap r.2 = objectMap ex_w_bad).
Proof.
  split; [by vm_compute|]. split; [by vm_compute|]. split.
  { intros H. apply list_elem_of_singleton in H. by vm_compute in H. }
  split.
  { intros E [-> | ->]; (eexists; split; [by vm_compute|]);
      (split; [by vm_compute|]); (split; by vm_compute). }
  split; [by right; left|].
  eexists. split; [by vm_compute|]. split; by vm_compute.
Qed.

(** ** Deferring to a parent that is known or being created *)

(** When the recursive call for the parent reports an existing entry or a
    lock, [NewObject] hands the same object and flags on, in the state the
    recursive call left: its own steps are the two lookups only, so it makes
    no [os.Stat], no insert and no backend call of its own. *)
Lemma NewObject_defers (E : Env) fuel loc w r1 :
  loc ≠ binPath E → objectMap w !! loc = None →
  (loadObject E (filepath_Dir E loc) w).1 = None →
  (run E (NewObject E fuel (filepath_Dir E loc)) w).1 = Some r1 →
  res_err r1 = None → res_loaded r1 || res_locked r1 = true →
  run E (NewObject E (S fuel) loc) w
  = (Some (mkResolved (res_obj r1) (res_loaded r1) (res_locked r1) None),
     (run E (NewObject E fuel (filepath_Dir E loc)) w).2) ∧
  steps E (NewObject E (S fuel) loc) w
  = (w, existT _ (EvLoadObject loc)) :: (w, existT _ (EvLoadObject (filepath_Dir E loc)))
    :: steps E (NewObject E fuel (filepath_Dir E loc)) w.
Proof.
  intros Hroot Ho Hl Hr He Hf. split.
  - rewrite run_NewObject_missing by done. rewrite Hl, Hr.
    unfold after_parent. by rewrite He, Hf.
  - rewrite NewObject_S, steps_call. simpl sem. rewrite loadObject_key by done.
    rewrite Ho. cbn [fst snd]. rewrite steps_call. simpl sem.
    assert ((loadObject E (filepath_Dir E loc) w).2 = w) as Hw.
    { unfold loadObject in *. case_decide; [| done]. by destruct (alloc _ _). }
    destruct (loadObject E (filepath_Dir E loc) w) as [p w1]. simpl in Hl, Hw. subst.
    cbn [fst snd]. do 2 f_equal. rewrite steps_bind, steps_bind, steps_ret, app_nil_r.
    rewrite run_bind, Hr. unfold after_parent. rewrite He, Hf.
    rewrite run_ret. cbn [fst snd]. by rewrite steps_ret, app_nil_r.
Qed.

(** Then the task puts the entry on the pending list when, and only when,
    the flag handed on says locked. *)
Lemma resolveTask_requeues (E : Env) fuel wr w r :
  (run E (NewObject E fuel (wr_loc wr)) w).1 = Some r → res_err r = None →
  res_locked r = true →
  run E (resolveTask E fuel wr) w
  = (Some None, set_ntr (ntr (run E (NewObject E fuel (wr_loc wr)) w).2 ++ [wr])
                  (run E (NewObject E fuel (wr_loc wr)) w).2).
Proof.
  intros Hr He Hl. unfold resolveTask, Sync. rewrite !run_bind. rewrite Hr.
  cbn [fst snd]. rewrite He, Hl. rewrite run_ret. cbn [fst snd]. simpl. done.
Qed.

(** A worker alone never gets an existing entry reported for a parent it
    has just found missing. *)
Lemma NewObject_alone_not_loaded (E : Env) fuel :
  ∀ loc w r, (loadObject E loc w).1 = None →
    (run E (NewObject E fuel loc) w).1 = Some r → res_loaded r = false.
Proof.
  induction fuel as [| fuel IH]; intros loc w r Hl Hr; [done |].
  assert (loc ≠ binPath E) as Hroot.
  { intros ->. by rewrite loadObject_root in Hl. }
  rewrite loadObject_key in Hl by done. simpl in Hl.
  rewrite run_NewObject_missing in Hr by done.
  assert (∀ pObj w1, (run E (NewObject_rest E loc pObj) w1).1 = Some r →
            res_loaded r = false) as Hrest.
  { intros pObj w1 H.
    destruct (isLocked pObj w1) eqn:Hlk.
    { rewrite run_NewObject_rest_locked in H by done. by injection H as <-. }
    destruct (os_Stat E loc) as [err | fi] eqn:Hs.
    { rewrite (run_NewObject_rest_stat_error E loc pObj w1 err) in H by done.
      by injection H as <-. }
    destruct (objectMap w1 !! loc) as [o |] eqn:Ho.
    { rewrite (run_NewObject_rest_lost E loc pObj w1 fi) in H by done.
      by injection H as <-. }
    rewrite (run_NewObject_rest_exec E loc pObj w1 fi) in H by done.
    destruct (if TestMode (cfg w1) then _ else _); by injection H as <-. }
  destruct (loadObject E (filepath_Dir E loc) w) as [[pObj |] w1] eqn:Hld; cbn [fst snd] in Hr.
  { by eapply Hrest. }
  destruct (after_parent _) as [early | pObj] eqn:Hap; cbn [fst snd] in Hr; [| by eapply Hrest].
  subst early. unfold after_parent in Hap.
  destruct (run E (NewObject E fuel (filepath_Dir E loc)) w).1 as [r1 |] eqn:Hr1; [| done].
  destruct (res_err r1); [by injection Hap as <- |].
  destruct (res_loaded r1 || res_locked r1) eqn:Hor.
  - injection Hap as <-. simpl. eapply IH; [| exact Hr1]. by rewrite Hld.
  - by destruct (res_obj r1).
Qed.

(** C4, at its failing input. With the workers of one pass interleaved as
    in [ex_race_schedule], [NewObject] for [/r/a/f] gets from its recursive
    call for [/r/a] an existing entry that is not locked, and hands that on.
    Both tasks end without error; nothing is on the pending list; [/r/a/f]
    has no entry, so the pass is over without it; and the modification check
    of the file has run on the directory's entry: an update command on the
    directory's identifier, and the directory's [LastMod] and [Size]
    overwritten with the file's. *)
Theorem resolveTask_race_not_retried :
  let s := schedule ex_env ex_race_schedule (ex_race_pool, ex_w0) in
  returned <$> s.1 = [Some (Some None); Some (Some None)] ∧
  ntr s.2 = [] ∧
  objectMap s.2 !! "/r/a/f" = None ∧
  calls s.2 =
    [mkCall (TagCreate "/r/a") "sh" ["-c"; "cd /r && gdrive files mkdir a --print-only-id"];
     mkCall (TagUpdate "/r/a/f") "sh" ["-c"; "cd /r/a && gdrive files update id:/r/a f"]] ∧
  map_to_list (snapshot s.2) = [("/r/a", mkObject "id:/r/a" "." 100 5)].
Proof. by vm_compute. Qed.

(** Run alone on the same tree, the two tasks create both entries. *)
Example resolveTask_alone_creates :
  let s := schedule ex_env (replicate 40 0%nat ++ replicate 40 1%nat) (ex_race_pool, ex_w0) in
  returned <$> s.1 = [Some (Some None); Some (Some None)] ∧
  ntr s.2 = [] ∧
  map_to_list (snapshot s.2)
  = [("/r/a/f", mkObject "id:/r/a/f" "id:/r/a" 100 5); ("/r/a", mkObject "id:/r/a" "." 0 4096)].
Proof. by vm_compute. Qed.

(** ** Racing for one path: at most one creation *)

Lemma ext_refl w : ext w w.
Proof. split; [exists []; by rewrite app_nil_r | done | done]. Qed.

Lemma ext_trans w1 w2 w3 : ext w1 w2 → ext w2 w3 → ext w1 w3.
Proof.
  intros [[l1 H1] M1 R1] [[l2 H2] M2 R2]. split.
  - exists (l1 ++ l2). by rewrite H2, H1, app_assoc.
  - auto.
  - congruence.
Qed.

Lemma sem_ext (E : Env) {X : Type} (e : event X) w :
  benign e = true → ext w (sem E e w).2.
Proof.
  intros Hb. destruct e; simpl in *; try done; try apply ext_refl.
  - unfold loadObject. case_decide; [| apply ext_refl].
    split; simpl.
    + case_decide; by eexists.
    + by case_decide.
    + unfold root_id. destruct (decide (RootFolderID (cfg w) = "")) as [H0 | H0]; simpl.
      * done.
      * by rewrite decide_False.
  - unfold storeObject. destruct (objectMap w !! key) eqn:Hk; [apply ext_refl |].
    split; simpl; [exists []; by rewrite app_nil_r | | done].
    intros k p Hp. rewrite lookup_insert_ne; [done |]. congruence.
  - split; simpl; [by eexists | done | done].
  - unfold execCommand.
    destruct (TestMode (cfg w)); (split; simpl; [exists []; by rewrite app_nil_r | done | done]).
  - split; simpl; [exists []; by rewrite app_nil_r | done | done].
  - split; simpl; [exists []; by rewrite app_nil_r | done | done].
  - destruct (os_WriteFile E (ObjectMapFilePath w) data);
      (split; simpl; [exists []; by rewrite app_nil_r | done | done]).
Qed.

Lemma sem_calls_other (E : Env) {X : Type} (e : event X) w :
  is_exec e = false → calls (sem E e w).2 = calls w.
Proof.
  intros He. destruct e; simpl in *; try done.
  - unfold loadObject. case_decide; [| done]. by case_decide.
  - unfold storeObject. by destruct (objectMap w !! key).
  - by destruct (os_WriteFile E (ObjectMapFilePath w) data).
Qed.

Lemma sem_calls_exec (E : Env) {X : Type} (e : event X) c w :
  exec_call e = Some c →
  calls (sem E e w).2 = calls w ++ [c] ∧ objectMap (sem E e w).2 = objectMap w.
Proof.
  intros He. destruct e; simpl in *; try done. injection He as ->.
  unfold execCommand. by destruct (TestMode (cfg w)).
Qed.

Lemma store_result_true (E : Env) {X : Type} (e : event X) loc w :
  store_result loc e (sem E e w).1 = Some true →
  objectMap w !! loc = None ∧ is_Some (objectMap (sem E e w).2 !! loc).
Proof.
  destruct e; simpl; try done. case_decide; [subst | done].
  unfold storeObject. destruct (objectMap w !! loc) eqn:Hk; simpl; [done |].
  intros _. split; [done |]. rewrite lookup_insert_eq. eauto.
Qed.

Lemma benign_not_delete {X : Type} (e : event X) loc :
  benign e = true → is_delete_of loc (existT X e) = false.
Proof. by destruct e. Qed.

Section racing_facts.
Context (E : Env) (loc : string) (c : Call).

Lemma safe_mono n st w w' p : safe E loc c n st w p → ext w w' → safe E loc c n st w' p.
Proof.
  destruct p as [r | X e k]; [done |]. destruct n as [| n]; [done |].
  simpl. intros [Hb H] Hext. split; [done |].
  intros w'' Hext'. apply H. by eapply ext_trans.
Qed.

Lemma worker_ok_mono w w' t m :
  worker_ok E loc c w t m → ext w w' → worker_ok E loc c w' t m.
Proof. destruct t; simpl; [apply safe_mono | done]. Qed.
End racing_facts.

Lemma turn_nr_quiescent (E : Env) {R : Type} i (ts : list (thread R)) w t :
  ts !! i = Some t → is_quiescent t = true → turn_nr E i (ts, w) = (ts, w).
Proof.
  intros Ht Hq. unfold turn_nr, turn. simpl. rewrite Ht.
  destruct t as [[r | X e k] | p]; done.
Qed.

Lemma turn_nr_absent (E : Env) {R : Type} i (ts : list (thread R)) w :
  ts !! i = None → turn_nr E i (ts, w) = (ts, w).
Proof. intros Ht. unfold turn_nr, turn. simpl. by rewrite Ht. Qed.

Lemma turn_nr_step (E : Env) {R : Type} i (ts : list (thread R)) w X (e : event X) k :
  ts !! i = Some (Running (Vis e k)) →
  turn_nr E i (ts, w)
  = (<[i := if is_exec e then Waiting (k (sem E e w).1) else Running (k (sem E e w).1)]> ts,
     (sem E e w).2).
Proof.
  intros Ht. unfold turn_nr, turn. simpl. rewrite Ht. simpl.
  by destruct (sem E e w).
Qed.

Section racing_step.
Context (E : Env) (loc : string) (c : Call) (w0 : World).

(** Changing the mode and budget of the worker that moved. *)
Lemma modes_insert (ms : list (nat * mode)) i m m' j mj :
  ms !! i = Some m → <[i := m']> ms !! j = Some mj →
  (j = i ∧ mj = m') ∨ (j ≠ i ∧ ms !! j = Some mj).
Proof.
  intros Hi Hj. apply list_lookup_insert_Some in Hj as [(-> & -> & _) | [Hne Hj]]; auto.
Qed.

Lemma turn_nr_race_inv ts ms w i :
  race_inv E loc c w0 ts ms w →
  ∃ ms', race_inv E loc c w0 (turn_nr E i (ts, w)).1 ms' (turn_nr E i (ts, w)).2 ∧
         ext w (turn_nr E i (ts, w)).2 ∧
         (∀ j, j ≠ i → ms' !! j = ms !! j ∧ (turn_nr E i (ts, w)).1 !! j = ts !! j) ∧
         (∀ t m, ts !! i = Some t → ms !! i = Some m →
            (is_quiescent t = true ∧ (turn_nr E i (ts, w)).1 !! i = Some t ∧
             ms' !! i = Some m) ∨
            (∃ m', ms' !! i = Some m' ∧ S m'.1 = m.1)).
Proof.
  intros Hinv.
  destruct (ts !! i) as [t |] eqn:Ht; cycle 1.
  { rewrite turn_nr_absent by done. exists ms.
    split; [done |]. split; [apply ext_refl |]. split; [done |]. intros ? ? [=]. }
  destruct (is_quiescent t) eqn:Hq.
  { rewrite (turn_nr_quiescent E i ts w t) by done. exists ms.
    split; [done |]. split; [apply ext_refl |]. split; [done |].
    intros t' m [= <-] Hm. left. done. }
  destruct t as [[r | X e k] | p]; try done. clear Hq.
  rewrite (turn_nr_step E i ts w X e k Ht). cbn [fst snd].
  destruct Hinv as [Hw Hown Hent Hkn Hcalls].
  destruct (Forall2_lookup_l _ _ _ _ _ Hw Ht) as ([n st] & Hm & Hok).
  simpl in Hok. destruct n as [| n']; [done |]. destruct Hok as [Hb Hstep].
  specialize (Hstep w (ext_refl w)).
  pose proof (sem_ext E e w Hb) as Hext.
  assert (Forall2 (worker_ok E loc c (sem E e w).2) ts ms) as Hw'.
  { eapply Forall2_impl; [exact Hw |]. intros t m Htm. by eapply worker_ok_mono. }
  assert (Forall (λ t, is_waiting t = false) ts → ∀ q,
            Forall (λ t, is_waiting t = false) (<[i := Running q]> ts)) as Hnowait.
  { intros H q. by apply Forall_insert. }
  assert (∀ q, Exists (λ t, is_waiting t = true) ts →
               Exists (λ t, is_waiting t = true) (<[i := Running q]> ts)) as Hwait.
  { intros q H. apply Exists_exists in H as (t & Hin & Hwt).
    apply list_elem_of_lookup in Hin as [j Hj].
    apply Exists_exists. exists t. split; [| done].
    apply list_elem_of_lookup. exists j. rewrite list_lookup_insert_ne; [done |].
    intros <-. rewrite Ht in Hj. by injection Hj as <-. }
  destruct (is_exec e) eqn:Hex.
  - (* the owner issues its command *)
    destruct Hstep as [-> Hc].
    destruct (sem_calls_exec E e c w Hc) as [Hcs Hmap].
    exists (<[i := (n', Owner)]> ms).
    split; [| split; [done | split]].
    + split.
      * by apply Forall2_insert.
      * intros a b ma mb Ha Hb' Hoa Hob.
        destruct (modes_insert ms i _ _ a ma Hm Ha) as [[-> ->] | [Hna Ha']];
          destruct (modes_insert ms i _ _ b mb Hm Hb') as [[-> ->] | [Hnb Hb'']]; try done.
        -- symmetry. by apply (Hown b i mb (S n', Owner)).
        -- by apply (Hown a i ma (S n', Owner)).
        -- by apply (Hown a b ma mb).
      * rewrite Hmap, Hent. split.
        -- intros (j & m & Hj & Hoj). destruct (decide (j = i)) as [-> | Hne].
           ++ exists i, (n', Owner). split; [| done].
              apply list_lookup_insert_eq. by eapply lookup_lt_Some.
           ++ exists j, m. by rewrite list_lookup_insert_ne.
        -- intros (j & m & Hj & Hoj).
           destruct (modes_insert ms i _ _ j m Hm Hj) as [[-> ->] | [Hnj Hj']]; eauto.
      * intros j m Hj Hkj. rewrite Hmap.
        destruct (modes_insert ms i _ _ j m Hm Hj) as [[-> ->] | [Hnj Hj']]; [done |].
        by eapply Hkn.
      * right. split.
        -- apply Exists_exists. exists (Waiting (k (sem E e w).1)). split; [| done].
           apply list_elem_of_lookup. exists i. apply list_lookup_insert_eq.
           by eapply lookup_lt_Some.
        -- destruct Hcalls as [[_ Hcw] | [Hwt _]]; [by rewrite Hcs, Hcw |].
           exfalso. apply Exists_exists in Hwt as (t & Hin & Hwt).
           apply list_elem_of_lookup in Hin as [j Hj].
           destruct (Forall2_lookup_l _ _ _ _ _ Hw Hj) as (mj & Hmj & Hokj).
           destruct t as [q | q]; [done |]. simpl in Hokj.
           assert (j = i) as -> by (by apply (Hown j i mj (S n', Owner))).
           rewrite Ht in Hj. done.
    + intros j Hne. by rewrite !list_lookup_insert_ne.
    + intros t m [= <-] Hm'. right. rewrite Hm in Hm'. injection Hm' as <-.
      exists (n', Owner). split; [| done].
      apply list_lookup_insert_eq. by eapply lookup_lt_Some.
  - (* any other step *)
    pose proof (sem_calls_other E e w Hex) as Hcs.
    assert ((Forall (λ t, is_waiting t = false)
               (<[i := Running (k (sem E e w).1)]> ts) ∧ calls (sem E e w).2 = calls w0) ∨
            (Exists (λ t, is_waiting t = true)
               (<[i := Running (k (sem E e w).1)]> ts) ∧
             calls (sem E e w).2 = calls w0 ++ [c])) as Hcalls'.
    { rewrite Hcs. destruct Hcalls as [[H1 H2] | [H1 H2]]; [left | right]; auto. }
    assert (store_result loc e (sem E e w).1 ≠ Some true →
            (∃ st', (st' = st ∨ (st = Fresh ∧ st' = Known ∧
                                is_Some (objectMap (sem E e w).2 !! loc))) ∧
                    safe E loc c n' st' (sem E e w).2 (k (sem E e w).1)) →
            ∃ ms', race_inv E loc c w0 (<[i := Running (k (sem E e w).1)]> ts) ms'
                     (sem E e w).2 ∧
                   ext w (sem E e w).2 ∧
                   (∀ j, j ≠ i → ms' !! j = ms !! j ∧
                      <[i := Running (k (sem E e w).1)]> ts !! j = ts !! j) ∧
                   (∀ t m, Some (Running (Vis e k)) = Some t → ms !! i = Some m →
                      (is_quiescent t = true ∧
                       <[i := Running (k (sem E e w).1)]> ts !! i = Some t ∧
                       ms' !! i = Some m) ∨
                      (∃ m', ms' !! i = Some m' ∧ S m'.1 = m.1))) as Hother.
    { intros Hns (st' & Hst' & Hsafe).
      pose proof (sem_keeps_entry E e loc w (benign_not_delete e loc Hb) Hns) as Hkeep.
      assert (st' = Owner ↔ st = Owner) as Hsame.
      { destruct Hst' as [-> | (-> & -> & _)]; [done |]. split; done. }
      exists (<[i := (n', st')]> ms).
      split; [| split; [done | split]].
      - split.
        + by apply Forall2_insert.
        + intros a b ma mb Ha Hb' Hoa Hob.
          destruct (modes_insert ms i _ _ a ma Hm Ha) as [[-> ->] | [Hna Ha']];
            destruct (modes_insert ms i _ _ b mb Hm Hb') as [[-> ->] | [Hnb Hb'']];
            try done.
          * symmetry. apply (Hown b i mb (S n', st)); [done | done | done |].
            by apply Hsame.
          * apply (Hown a i ma (S n', st)); [done | done | done |]. by apply Hsame.
          * by apply (Hown a b ma mb).
        + rewrite Hkeep, Hent. split.
          * intros (j & m & Hj & Hoj). destruct (decide (j = i)) as [-> | Hne].
            -- exists i, (n', st'). split.
               ++ apply list_lookup_insert_eq. by eapply lookup_lt_Some.
               ++ apply Hsame. rewrite Hm in Hj. by injection Hj as <-.
            -- exists j, m. by rewrite list_lookup_insert_ne.
          * intros (j & m & Hj & Hoj).
            destruct (modes_insert ms i _ _ j m Hm Hj) as [[-> ->] | [Hnj Hj']]; [| eauto].
            exists i, (S n', st). split; [done |]. by apply Hsame.
        + intros j m Hj Hkj.
          destruct (modes_insert ms i _ _ j m Hm Hj) as [[-> ->] | [Hnj Hj']].
          * destruct Hst' as [-> | (_ & _ & Hs)]; [| done].
            rewrite Hkeep. by apply (Hkn i (S n', st)).
          * rewrite Hkeep. by eapply Hkn.
        + done.
      - intros j Hne. by rewrite !list_lookup_insert_ne.
      - intros t m [= <-] Hm'. right. rewrite Hm in Hm'. injection Hm' as <-.
        exists (n', st'). split; [| done].
        apply list_lookup_insert_eq. by eapply lookup_lt_Some. }
    destruct (store_result loc e (sem E e w).1) as [[|] |] eqn:Hst.
    + (* the insert for [loc] goes through *)
      destruct Hstep as [-> Hsafe].
      destruct (store_result_true E e loc w Hst) as [Hnone Hsome].
      assert (∀ j m, ms !! j = Some m → m.2 ≠ Owner) as Hnoown.
      { intros j m Hj Ho. assert (is_Some (objectMap w !! loc)) as [? H']; [| congruence].
        apply Hent. eauto. }
      exists (<[i := (n', Owner)]> ms).
      split; [| split; [done | split]].
      * split.
        -- by apply Forall2_insert.
        -- intros a b ma mb Ha Hb' Hoa Hob.
           destruct (modes_insert ms i _ _ a ma Hm Ha) as [[-> ->] | [Hna Ha']];
             destruct (modes_insert ms i _ _ b mb Hm Hb') as [[-> ->] | [Hnb Hb'']];
             try done; exfalso; by eapply Hnoown.
        -- split; [| done]. intros _. exists i, (n', Owner). split; [| done].
           apply list_lookup_insert_eq. by eapply lookup_lt_Some.
        -- done.
        -- done.
      * intros j Hne. by rewrite !list_lookup_insert_ne.
      * intros t m [= <-] Hm'. right. rewrite Hm in Hm'. injection Hm' as <-.
        exists (n', Owner). split; [| done].
        apply list_lookup_insert_eq. by eapply lookup_lt_Some.
    + by apply Hother.
    + by apply Hother.
Qed.
End racing_step.

Lemma turn_nr_other (E : Env) {R : Type} a (s : list (thread R) * World) j :
  j ≠ a → (turn_nr E a s).1 !! j = s.1 !! j.
Proof.
  intros Hne. unfold turn_nr, turn. destruct (s.1 !! a) as [[[r | X e k] | p] |]; try done.
  simpl. destruct (sem E e s.2). simpl. by rewrite list_lookup_insert_ne.
Qed.

Lemma schedule_nr_quiescent (E : Env) {R : Type} sched (s : list (thread R) * World) i t :
  s.1 !! i = Some t → is_quiescent t = true →
  (schedule_nr E sched s).1 !! i = Some t.
Proof.
  revert s. induction sched as [| a sched IH]; intros s Ht Hq; [done |].
  simpl. apply IH; [| done].
  destruct (decide (i = a)) as [-> | Hne].
  - destruct s as [ts w]. by rewrite (turn_nr_quiescent E a ts w t).
  - by rewrite turn_nr_other.
Qed.

Section racing_schedule.
Context (E : Env) (loc : string) (c : Call) (w0 : World).

Lemma schedule_nr_race_inv sched : ∀ ts ms w,
  race_inv E loc c w0 ts ms w → ext w0 w →
  ∃ ms', race_inv E loc c w0 (schedule_nr E sched (ts, w)).1 ms'
           (schedule_nr E sched (ts, w)).2 ∧
         ext w0 (schedule_nr E sched (ts, w)).2 ∧
         ∀ i t' m m', (schedule_nr E sched (ts, w)).1 !! i = Some t' →
                      ms !! i = Some m → ms' !! i = Some m' →
                      is_quiescent t' = true ∨
                      (m'.1 + count_occ Nat.eq_dec sched i ≤ m.1)%nat.
Proof.
  induction sched as [| a sched IH]; intros ts ms w Hinv Hext.
  { exists ms. split; [done |]. split; [done |].
    intros i t' m m' _ Hm Hm'. right. rewrite Hm in Hm'. injection Hm' as <-. simpl. lia. }
  destruct (turn_nr_race_inv E loc c w0 ts ms w a Hinv) as (ms1 & Hinv1 & Hext1 & Hoth & Hmoved).
  destruct (turn_nr E a (ts, w)) as [ts1 w1] eqn:Hturn. cbn [fst snd] in *.
  destruct (IH ts1 ms1 w1 Hinv1 (ext_trans _ _ _ Hext Hext1)) as (ms' & Hinv' & Hext' & Hb).
  change (schedule_nr E (a :: sched) (ts, w)) with (schedule_nr E sched (turn_nr E a (ts, w))).
  rewrite Hturn. exists ms'. split; [done |]. split; [done |].
  intros i t' m m' Ht' Hm Hm'.
  destruct (decide (i = a)) as [-> | Hne].
  - assert (is_Some (ts !! a)) as [t Ht].
    { apply lookup_lt_is_Some. rewrite (Forall2_length _ _ _ (ri_workers _ _ _ _ _ _ _ Hinv)).
      by eapply lookup_lt_Some. }
    destruct (Hmoved t m Ht Hm) as [(Hq & Ht1 & Hm1) | (m1 & Hm1 & Hdec)].
    + left. pose proof (schedule_nr_quiescent E sched (ts1, w1) a t Ht1 Hq) as H.
      rewrite Ht' in H. by injection H as ->.
    + destruct (Hb a t' m1 m' Ht' Hm1 Hm') as [Hq | Hle]; [by left | right].
      simpl. destruct (Nat.eq_dec a a); [lia | done].
  - destruct (Hoth i Hne) as [Hmi _]. rewrite <- Hmi in Hm.
    destruct (Hb i t' m m' Ht' Hm Hm') as [Hq | Hle]; [by left | right].
    simpl. destruct (Nat.eq_dec a i); [congruence | done].
Qed.
End racing_schedule.

Lemma holds_parent_ext pid pObj w w' :
  holds_parent pid pObj w → ext w w' → holds_parent pid pObj w'.
Proof.
  intros [Hl Hg] [[l Hh] _ _]. split.
  - rewrite Hh, length_app. lia.
  - by rewrite (deref_grown w w' pObj l).
Qed.

Lemma race_ready_ext (E : Env) loc fi pid w w' :
  race_ready E loc fi pid w → ext w w' → race_ready E loc fi pid w'.
Proof.
  intros (Hroot & Hs & Hp & Hpar) Hext. split; [done |]. split; [done |]. split; [done |].
  destruct Hpar as [[Hd Hr] | (Hd & dp & Hdp & Hg)].
  - left. split; [done |]. by rewrite (ext_root _ _ Hext).
  - right. split; [done |]. exists dp. split; [by apply (ext_map _ _ Hext) |].
    destruct (ext_heap _ _ Hext) as [l Hh].
    rewrite (deref_grown w w' dp l); [done | done |].
    apply deref_live. by rewrite Hg.
Qed.

Lemma loadObject_parent (E : Env) loc fi pid w :
  race_ready E loc fi pid w →
  ∃ pObj, (loadObject E (filepath_Dir E loc) w).1 = Some pObj ∧
          holds_parent pid pObj (loadObject E (filepath_Dir E loc) w).2.
Proof.
  intros (Hroot & Hs & Hp & [[Hd Hr] | (Hd & dp & Hdp & Hg)]).
  - rewrite Hd, loadObject_root. eexists. split; [done |]. split; simpl.
    + rewrite length_app. simpl. lia.
    + unfold deref. simpl. rewrite list_lookup_total_alt, lookup_app_r by lia.
      rewrite Nat.sub_diag. simpl. exact Hr.
  - rewrite loadObject_key by done. exists dp. split; [done |]. split; [| done].
    apply deref_live. simpl. by rewrite Hg.
Qed.

Section racing_NewObject.
Context (E : Env) (loc : string) (fi : FileInfo) (pid : string).

Lemma NewObject_rest_safe w pObj :
  race_ready E loc fi pid w → holds_parent pid pObj w →
  safe E loc (create_call E loc (fi_IsDir fi) pid) 8 Fresh w (NewObject_rest E loc pObj).
Proof.
  intros Hj Hk. destruct (Hj) as (Hroot & Hs & Hp & _).
  unfold NewObject_rest. simpl. split; [done |].
  intros w1 H1. exists Fresh. split; [by left |].
  pose proof (holds_parent_ext _ _ _ _ Hk H1) as Hk1.
  unfold isLocked. rewrite (proj2 Hk1). rewrite bool_decide_eq_false_2 by done.
  simpl. split; [done |].
  intros w2 H2. exists Fresh. split; [by left |]. rewrite Hs. simpl. split; [done |].
  pose proof (holds_parent_ext _ _ _ _ Hk1 H2) as Hk2.
  intros w3 H3. exists Fresh. split; [by left |]. simpl. split; [done |].
  pose proof (holds_parent_ext _ _ _ _ Hk2 H3) as Hk3.
  intros w4 H4. exists Fresh. split; [by left |]. simpl. split; [done |].
  pose proof (holds_parent_ext _ _ _ _ Hk3 H4) as Hk4.
  intros w5 H5. rewrite decide_True by done.
  pose proof (holds_parent_ext _ _ _ _ Hk4
                (ext_trans _ _ _ (sem_ext E (EvNew (mkObject "" (GDId (deref w3 pObj))
                   (if fi_IsDir fi then 0 else fi_ModTimeUnix fi) (fi_Size fi))) w4 eq_refl)
                   H5)) as Hk5.
  unfold storeObject. destruct (objectMap w5 !! loc) as [o |] eqn:Ho; simpl.
  { exists Known. split; [right; by rewrite Ho |]. split; [done |].
    eexists. split; [done |]. simpl. auto. }
  split; [done |]. split; [done |].
  intros w6 H6. exists Owner. split; [by left |]. simpl. split; [done |].
  assert (ext w5 w6) as H56.
  { eapply ext_trans; [| exact H6].
    pose proof (sem_ext E (EvStoreObject loc (length (heap w4))) w5 eq_refl) as H.
    simpl in H. unfold storeObject in H. by rewrite Ho in H. }
  pose proof (holds_parent_ext _ _ _ _ Hk5 H56) as Hk6.
  intros w7 H7. exists Owner. split; [by left |]. simpl. split; [done |].
  pose proof (holds_parent_ext _ _ _ _ Hk6 H7) as Hk7.
  intros w8 H8. split; [done |].
  rewrite (proj2 Hk6), (proj2 Hk7). done.
Qed.

Lemma NewObject_safe fuel w :
  race_ready E loc fi pid w →
  safe E loc (create_call E loc (fi_IsDir fi) pid) 10 Fresh w (NewObject E (S fuel) loc).
Proof.
  intros Hj. destruct (Hj) as (Hroot & _).
  rewrite NewObject_S. simpl. split; [done |].
  intros w1 H1. rewrite loadObject_key by done. simpl.
  destruct (objectMap w1 !! loc) as [eObj |] eqn:Ho.
  { exists Known. split; [right; repeat split; eauto |]. simpl. split; [done |].
    intros w2 H2. exists Known. split; [by left |]. split; [done |].
    eexists. split; [done |]. simpl. auto. }
  exists Fresh. split; [by left |]. simpl. split; [done |].
  intros w2 H2. exists Fresh. split; [by left |].
  pose proof (race_ready_ext E loc fi pid w w2 Hj (ext_trans _ _ _ H1 H2)) as Hj2.
  destruct (loadObject_parent E loc fi pid w2 Hj2) as (pObj & Hl & Hk).
  destruct (loadObject E (filepath_Dir E loc) w2) as [p w2'] eqn:Hld.
  simpl in Hl, Hk. subst p. cbn [fst snd].
  assert (ext w2 w2') as H22.
  { pose proof (sem_ext E (EvLoadObject (filepath_Dir E loc)) w2 eq_refl) as H.
    simpl in H. by rewrite Hld in H. }
  change (safe E loc (create_call E loc (fi_IsDir fi) pid) 8 Fresh w2'
            (NewObject_rest E loc pObj)).
  apply NewObject_rest_safe; [| done].
  by eapply race_ready_ext.
Qed.
End racing_NewObject.

Lemma turn_nr_length (E : Env) {R : Type} a (s : list (thread R) * World) :
  length (turn_nr E a s).1 = length s.1.
Proof.
  unfold turn_nr, turn. destruct (s.1 !! a) as [[[r | X e k] | p] |]; try done.
  simpl. destruct (sem E e s.2). simpl. apply length_insert.
Qed.

Lemma schedule_nr_length (E : Env) {R : Type} sched (s : list (thread R) * World) :
  length (schedule_nr E sched s).1 = length s.1.
Proof.
  revert s. induction sched as [| a sched IH]; intros s; [done |].
  simpl. rewrite IH. apply turn_nr_length.
Qed.

(** The window in which no backend answer returns. Take a path that has
    no entry, is there on the disk and is not the sync root, and whose
    parent directory is resolved (in the store with a non-empty identifier,
    or the sync root). Let any number of workers call [NewObject] on it and
    take turns in any order while no backend answer returns. Then at every
    moment the calls made are none or the one creation command for the
    path. And once every worker has had ten turns, that command has been
    issued, exactly one worker is waiting for its answer, and every other
    worker has returned without error with the lock flag or the
    existing-entry flag set. *)
Theorem NewObject_window (E : Env) loc fi pid N fuel w0 sched :
  race_ready E loc fi pid w0 → objectMap w0 !! loc = None → (0 < N)%nat →
  let c := create_call E loc (fi_IsDir fi) pid in
  let s := schedule_nr E sched (replicate N (Running (NewObject E (S fuel) loc)), w0) in
  (calls s.2 = calls w0 ∨ calls s.2 = calls w0 ++ [c]) ∧
  ((∀ i, (i < N)%nat → (10 ≤ count_occ Nat.eq_dec sched i)%nat) →
   calls s.2 = calls w0 ++ [c] ∧
   ∃ i, (i < N)%nat ∧ (∃ p, s.1 !! i = Some (Waiting p)) ∧
        ∀ j, (j < N)%nat → j ≠ i →
             ∃ r, s.1 !! j = Some (Running (Ret (Some r))) ∧ res_err r = None ∧
                  (res_locked r = true ∨ res_loaded r = true)).
Proof.
  intros Hj Hnone HN c s.
  set (p0 := NewObject E (S fuel) loc).
  assert (race_inv E loc c w0 (replicate N (Running p0)) (replicate N (10%nat, Fresh)) w0)
    as Hinit.
  { split.
    - apply Forall2_replicate. simpl. by apply NewObject_safe.
    - intros i j mi mj Hi _ Ho. apply lookup_replicate in Hi as [-> _]. done.
    - rewrite Hnone. split; [by intros [? ?] |].
      intros (i & m & Hi & Ho). apply lookup_replicate in Hi as [-> _]. done.
    - intros i m Hi Hk. apply lookup_replicate in Hi as [-> _]. done.
    - left. split; [| done]. apply Forall_forall. intros t Ht.
      apply elem_of_replicate in Ht as [-> _]. done. }
  destruct (schedule_nr_race_inv E loc c w0 sched _ _ _ Hinit (ext_refl w0))
    as (ms' & Hinv & _ & Hbud).
  fold p0 in s. fold s in Hinv, Hbud.
  destruct Hinv as [Hw Hown Hent Hkn Hcalls].
  split.
  { destruct Hcalls as [[_ H] | [_ H]]; auto. }
  intros Hfair.
  assert (length s.1 = N) as Hlen.
  { unfold s. rewrite schedule_nr_length. simpl. apply length_replicate. }
  assert (length ms' = N) as Hlen' by (by rewrite <- (Forall2_length _ _ _ Hw)).
  assert (∀ i t m, s.1 !! i = Some t → ms' !! i = Some m →
            (∃ p, t = Waiting p ∧ m.2 = Owner) ∨
            (∃ r, t = Running (Ret r) ∧ m.2 = Known ∧ deferred r)) as Hquiet.
  { intros i t m Ht Hm.
    assert (i < N)%nat as Hi by (rewrite <- Hlen; by eapply lookup_lt_Some).
    pose proof (Forall2_lookup_lr _ _ _ _ _ _ Hw Ht Hm) as Hok.
    assert (replicate N (10%nat, Fresh) !! i = Some (10%nat, Fresh)) as H0.
    { apply lookup_replicate. done. }
    destruct t as [[r | X e k] | p].
    - right. exists r. simpl in Hok. destruct Hok. done.
    - exfalso. destruct (Hbud i _ _ _ Ht H0 Hm) as [Hq | Hle]; [done |].
      specialize (Hfair i Hi). simpl in Hle, Hok.
      destruct m as [[| n] st]; [done | simpl in Hle; lia].
    - left. exists p. done. }
  assert (∃ i m, ms' !! i = Some m ∧ m.2 = Owner) as (i & mi & Hmi & Hoi).
  { assert (is_Some (s.1 !! 0%nat)) as [t Ht] by (apply lookup_lt_is_Some; lia).
    assert (is_Some (ms' !! 0%nat)) as [m Hm] by (apply lookup_lt_is_Some; lia).
    destruct (Hquiet 0%nat t m Ht Hm) as [(p & -> & Ho) | (r & -> & Hk & _)]; [eauto |].
    apply Hent. by eapply Hkn. }
  assert (i < N)%nat as Hi by (rewrite <- Hlen'; by eapply lookup_lt_Some).
  assert (is_Some (s.1 !! i)) as [ti Hti] by (apply lookup_lt_is_Some; lia).
  destruct (Hquiet i ti mi Hti Hmi) as [(p & -> & _) | (r & -> & Hk & _)]; [| congruence].
  split.
  { destruct Hcalls as [[Hnw _] | [_ H]]; [| done].
    exfalso. rewrite Forall_lookup in Hnw. by specialize (Hnw i _ Hti). }
  exists i. split; [done |]. split; [eauto |].
  intros j Hjn Hne.
  assert (is_Some (s.1 !! j)) as [tj Htj] by (apply lookup_lt_is_Some; lia).
  assert (is_Some (ms' !! j)) as [mj Hmj] by (apply lookup_lt_is_Some; lia).
  destruct (Hquiet j tj mj Htj Hmj) as [(p' & -> & Ho) | (r & -> & _ & r' & -> & He & Hf)].
  - exfalso. apply Hne. by apply (Hown j i mj mi).
  - exists r'. done.
Qed.

Lemma ex_w1_race_ready : race_ready ex_env "/r/a/f" (mkFileInfo false 100 5) "idA" ex_w1.
Proof.
  split; [by vm_compute |]. split; [reflexivity |]. split; [done |].
  right. split; [by vm_compute |]. exists 0%nat. split; reflexivity.
Qed.

Lemma ex_round_robin3_fair i :
  (i < 3)%nat → (10 ≤ count_occ Nat.eq_dec ex_round_robin3 i)%nat.
Proof.
  intros Hi. destruct i as [| [| [| i]]]; [by vm_compute | by vm_compute | by vm_compute | lia].
Qed.

Lemma NewObject_window_witness :
  let c := mkCall (TagCreate "/r/a/f") "sh"
             ["-c"; "cd /r/a && gdrive files upload f --parent idA --print-only-id"] in
  let s := schedule_nr ex_env ex_round_robin3
             (replicate 3 (Running (NewObject ex_env 1 "/r/a/f")), ex_w1) in
  (calls s.2 = calls ex_w1 ∨ calls s.2 = calls ex_w1 ++ [c]) ∧
  ((∀ i, (i < 3)%nat → (10 ≤ count_occ Nat.eq_dec ex_round_robin3 i)%nat) →
   calls s.2 = calls ex_w1 ++ [c] ∧
   ∃ i, (i < 3)%nat ∧ (∃ p, s.1 !! i = Some (Waiting p)) ∧
        ∀ j, (j < 3)%nat → j ≠ i →
             ∃ r, s.1 !! j = Some (Running (Ret (Some r))) ∧ res_err r = None ∧
                  (res_locked r = true ∨ res_loaded r = true)).
Proof.
  apply (NewObject_window ex_env "/r/a/f" (mkFileInfo false 100 5) "idA" 3 0 ex_w1
           ex_round_robin3 ex_w1_race_ready); [reflexivity | lia].
Defined.

(** What the three workers have come to: worker 0 waits for the backend;
    workers 1 and 2 lost the insert and report the lock, with the parent as
    the object. *)
Example NewObject_window_three :
  let s := schedule_nr ex_env ex_round_robin3
             (replicate 3 (Running (NewObject ex_env 1 "/r/a/f")), ex_w1) in
  is_waiting <$> s.1 = [true; false; false] ∧
  returned <$> s.1 = [None;
                      Some (Some (mkResolved (Some 0%nat) false true None));
                      Some (Some (mkResolved (Some 0%nat) false true None))] ∧
  length (calls s.2) = 1%nat.
Proof. by vm_compute. Qed.

(** In that window the path's creation command is not issued while its
    parent is still to be created: on the fresh tree one worker waits for
    the creation of [/r/a], and the other has deferred. *)
Example NewObject_window_parent_first :
  let s := schedule_nr ex_env (concat (replicate 20 [0; 1]%nat))
             (replicate 2 (Running (NewObject ex_env 3 "/r/a/f")), ex_w0) in
  is_waiting <$> s.1 = [true; false] ∧
  call_tag <$> calls s.2 = [TagCreate "/r/a"].
Proof. by vm_compute. Qed.

(** ** Parent before child in a pass of the pool

    The workers of a pass keep to a protocol on the store: a placeholder is
    touched only by the worker that allocated it, until that worker has set
    its identifier or removed it; an identifier that is set is never changed;
    an entry is removed only as the placeholder of the worker removing it.
    Each worker's program is checked against what the others may do under
    that protocol, and the protocol is kept by every turn. *)
Section protocol_facts.
Context (E : Env).

Lemma rely_refl me w ret : rely me w ret w ret.
Proof.
  split; [lia | done | by left | done | done |].
  destruct me; auto.
Qed.

Lemma rely_trans me w ret w1 ret1 w2 ret2 :
  rely me w ret w1 ret1 → rely me w1 ret1 w2 ret2 → rely me w ret w2 ret2.
Proof.
  intros [L1 R1 M1 T1 S1 O1] [L2 R2 M2 T2 S2 O2]. split.
  - lia.
  - intros o Ho. rewrite R2; rewrite R1; auto.
  - intros k o Hk. destruct (M1 _ _ Hk) as [H|H]; [by apply M2 | right; set_solver].
  - congruence.
  - set_solver.
  - destruct me as [|o|k o]; [done| |].
    + intros Ho. destruct (O1 Ho) as [D1 N1].
      destruct O2 as [D2 N2]; [lia|]. split; [congruence | auto].
    + intros Ho Hk Hr. destruct (O1 Ho Hk Hr) as (D1 & K1 & N1).
      destruct O2 as (D2 & K2 & N2); [lia | done | done |].
      split; [congruence | done].
Qed.

Lemma wp_mono {A} me w ret w1 ret1 (p : prog A) :
  wp E me w ret p (λ _ _ _ _, True) → rely me w ret w1 ret1 →
  wp E me w1 ret1 p (λ _ _ _ _, True).
Proof.
  destruct p as [r|X e k]; simpl; [done|].
  intros H Hr w' ret' Hr' Hd. apply H; [by eapply rely_trans | done].
Qed.

Lemma wp_bind {A B} (f : A → prog B) (p : prog A) Q Q' :
  ∀ me w ret,
  wp E me w ret p Q' →
  (∀ x me' w' ret', Q' x me' w' ret' → wp E me' w' ret' (f x) Q) →
  wp E me w ret (p ≫= f) Q.
Proof.
  induction p as [r|X e k IH]; intros me w ret Hp Hf.
  - by apply Hf.
  - change (Vis e k ≫= f) with (Vis e (λ x, k x ≫= f)).
    simpl in *. intros w' ret' Hr Hd.
    destruct (Hp w' ret' Hr Hd) as (Hpbc & Hal & Hk).
    split; [done|]. split; [done|]. by apply IH.
Qed.

Lemma wp_conseq {A} (p : prog A) (Q Q' : A → own → World → gset ptr → Prop) :
  ∀ me w ret,
  wp E me w ret p Q → (∀ x me' w' ret', Q x me' w' ret' → Q' x me' w' ret') →
  wp E me w ret p Q'.
Proof.
  induction p as [r|X e k IH]; intros me w ret Hp HQ; simpl in *; [by apply HQ|].
  intros w' ret' Hr Hd. destruct (Hp w' ret' Hr Hd) as (Hpbc & Hal & Hk).
  split; [done|]. split; [done|]. by apply IH.
Qed.
Lemma ext_rely me w ret w' :
  ext w w' → rely me w ret w' ret.
Proof.
  intros [[l Hl] Hm Hr]. split.
  - rewrite Hl, length_app. lia.
  - intros o Ho. by rewrite (deref_grown w w' o l Hl (deref_live _ _ Ho)).
  - intros k o Hk. left. by apply Hm.
  - done.
  - done.
  - destruct me as [|o|k o]; [done| |].
    + intros Ho. by rewrite (deref_grown w w' o l Hl Ho).
    + intros Ho Hk Hn. rewrite (deref_grown w w' o l Hl Ho). auto.
Qed.

Lemma deref_alter_ne w o o' f :
  o ≠ o' → deref (updateStoredObject o f w) o' = deref w o'.
Proof.
  intros H. unfold deref, updateStoredObject. simpl.
  by rewrite list_lookup_total_alter_ne.
Qed.

Lemma deref_alter_GDId w o o' f :
  (∀ x, GDId (f x) = GDId x) →
  GDId (deref (updateStoredObject o f w) o') = GDId (deref w o').
Proof.
  intros Hf. destruct (decide (o = o')) as [<- | Hne]; [| by rewrite deref_alter_ne].
  unfold deref, updateStoredObject. simpl.
  destruct (decide (o < length (heap w))%nat) as [Hl | Hl].
  - by rewrite list_lookup_total_alter_eq.
  - rewrite !list_lookup_total_alt.
    rewrite list_lookup_alter, (lookup_ge_None_2 (heap w) o) by lia. by case_decide.
Qed.

(** A step that is allowed to the worker holding [me] is one that a worker
    holding something else relies on. *)
Lemma step_rely {X} me mj (e : event X) w ret :
  allowed me e w ret →
  (∀ o, own_obj mj = Some o →
        (o < length (heap w))%nat ∧ GDId (deref w o) = "" ∧ own_obj me ≠ Some o) →
  rely mj w ret (sem E e w).2 (next_ret me e ret).
Proof.
  intros Hal Hj.
  destruct (benign e) eqn:Hb.
  { replace (next_ret me e ret) with ret by (by destruct e).
    apply ext_rely. by apply sem_ext. }
  destruct e; try done; simpl in *.
  - (* a write to an object *)
    assert (Hres : ∀ o', GDId (deref w o') ≠ "" →
              GDId (deref (updateStoredObject o f w) o') = GDId (deref w o')).
    { intros o' Ho'. destruct Hal as [(k & -> & Hl & Hk & Hg & Hn) | (-> & Hg & Hf)].
      - rewrite deref_alter_ne; [done | congruence].
      - by apply deref_alter_GDId. }
    assert (Hmine : ∀ o', own_obj mj = Some o' →
              deref (updateStoredObject o f w) o' = deref w o').
    { intros o' Ho'. destruct (Hj _ Ho') as (Hl' & Hg' & Hne).
      apply deref_alter_ne. intros ->.
      destruct Hal as [(k & -> & _) | (_ & Hg & _)]; [by apply Hne | done]. }
    split; simpl.
    + unfold updateStoredObject. simpl. by rewrite length_alter.
    + done.
    + auto.
    + done.
    + done.
    + destruct mj as [|o'|k' o']; [done| |].
      * intros _. split; [by apply Hmine | done].
      * intros _ Hk Hn. split; [by apply Hmine | done].
  - (* a removal *)
    destruct Hal as (o & -> & Hl & Hk & Hg). split; simpl.
    + done.
    + done.
    + intros k o' Hk'. destruct (decide (k = key)) as [-> | Hne].
      * right. rewrite Hk in Hk'. injection Hk' as <-.
        apply elem_of_union_r. by apply elem_of_singleton.
      * left. by rewrite lookup_delete_ne.
    + done.
    + apply union_subseteq_l.
    + destruct mj as [|o'|k' o']; [done| |].
      * intros _. destruct (Hj o' eq_refl) as (_ & _ & Hne). simpl in Hne.
        split; [done|]. intros Hn [Hin | Hin%elem_of_singleton]%elem_of_union; [done | congruence].
      * intros _ Hk' Hn. destruct (Hj o' eq_refl) as (_ & _ & Hne). simpl in Hne.
        split; [done|]. split.
        -- rewrite lookup_delete_ne; [done|]. intros <-. rewrite Hk in Hk'. congruence.
        -- intros [Hin | Hin%elem_of_singleton]%elem_of_union; [done | congruence].
Qed.

(** The removed placeholders stay as they are. *)
Lemma step_dead_ok {X} me (e : event X) w ret :
  allowed me e w ret → dead_ok w ret → dead_ok (sem E e w).2 (next_ret me e ret).
Proof.
  intros Hal Hd.
  destruct (benign e) eqn:Hb.
  { replace (next_ret me e ret) with ret by (by destruct e).
    destruct (sem_ext E e w Hb) as [[l Hl] _ _].
    intros o Ho. destruct (Hd o Ho) as [Hlive Hg]. split.
    - rewrite Hl, length_app. lia.
    - by rewrite (deref_grown w _ o l Hl Hlive). }
  destruct e; try done; simpl in *.
  - intros o' Ho'. destruct (Hd o' Ho') as [Hlive Hg]. split.
    + unfold updateStoredObject. simpl. by rewrite length_alter.
    + destruct Hal as [(k & -> & _ & _ & _ & Hn) | (-> & Hg' & Hf)].
      * rewrite deref_alter_ne; [done | congruence].
      * by rewrite deref_alter_GDId.
  - destruct Hal as (o' & -> & Hl & Hk & Hg).
    intros o [Ho | Ho%elem_of_singleton]%elem_of_union; [by apply Hd | by subst].
Qed.
Lemma next_own_obj {X} me (e : event X) w ret o :
  allowed me e w ret → own_obj (next_own me e w) = Some o →
  own_obj me = Some o ∨
  (own_obj me = None ∧ o = length (heap w) ∧
   (length (heap w) < length (heap (sem E e w).2))%nat ∧ GDId (deref (sem E e w).2 o) = "").
Proof.
  intros Hal Ho. destruct e; simpl in *; auto; try done.
  - destruct Hal as (-> & _). destruct (objectMap w !! key); [done|].
    simpl in Ho. by left.
  - destruct Hal as [-> Hv]. injection Ho as <-. right.
    split; [done|]. split; [done|]. split.
    + rewrite length_app. simpl. lia.
    + change (GDId (deref (alloc v w).2 (alloc v w).1) = ""). by rewrite deref_alloc_new.
Qed.

(** A turn keeps the protocol, and the step taken in it keeps parent before
    child. *)
Lemma turn_conc_inv {R} (ts : list (thread R)) owns ret w i :
  conc_inv E ts owns ret w →
  match ts !! i with
  | Some (Running (Vis e k)) => parent_before_child E (w, existT _ e)
  | _ => True
  end ∧
  ∃ owns' ret', conc_inv E (turn E i (ts, w)).1 owns' ret' (turn E i (ts, w)).2.
Proof.
  intros [Hwp Hd Hh Hdis].
  pose proof Hwp as [Hlen Hall]%Forall2_same_length_lookup.
  unfold turn. simpl.
  destruct (ts !! i) as [t|] eqn:Ht; [| split; [done | by exists owns, ret]].
  destruct (lookup_lt_is_Some_2 owns i) as [me Hme].
  { rewrite <- Hlen. by eapply lookup_lt_Some. }
  pose proof (Hall i t me Ht Hme) as Hi.
  destruct t as [[r | X e k] | p]; simpl.
  - split; [done | by exists owns, ret].
  - simpl in Hi. destruct (Hi w ret (rely_refl me w ret) Hd) as (Hpbc & Hal & Hk).
    split; [done|].
    destruct (sem E e w) as [x w'] eqn:Hs. simpl in *.
    assert (Hw' : w' = (sem E e w).2) by (by rewrite Hs).
    exists (<[i := next_own me e w]> owns), (next_ret me e ret).
    assert (Hothers : ∀ j mj o, j ≠ i → owns !! j = Some mj → own_obj mj = Some o →
              (o < length (heap w))%nat ∧ GDId (deref w o) = "" ∧ own_obj me ≠ Some o).
    { intros j mj o Hji Hj Ho. destruct (Hh j mj o Hj Ho) as [Hl Hg].
      split; [done|]. split; [done|]. intros Hmo. apply Hji.
      by apply (Hdis j i mj me o). }
    assert (Hkeep : ∀ j mj o, j ≠ i → owns !! j = Some mj → own_obj mj = Some o →
              (o < length (heap w'))%nat ∧ GDId (deref w' o) = "").
    { intros j mj o Hji Hj Ho. destruct (Hothers j mj o Hji Hj Ho) as (Hl & Hg & Hne).
      destruct (step_rely me (Held o) e w ret Hal) as [L _ _ _ _ M].
      { intros o' [= <-]. done. }
      rewrite Hw'. split; [lia|]. by rewrite (proj1 (M Hl)). }
    split.
    + apply Forall2_same_length_lookup. split; [by rewrite !length_insert|].
      intros j t' mj Hj1 Hj2. destruct (decide (j = i)) as [-> | Hji].
      * rewrite list_lookup_insert_eq in Hj1 by (by eapply lookup_lt_Some).
        rewrite list_lookup_insert_eq in Hj2 by (by eapply lookup_lt_Some).
        injection Hj1 as <-. injection Hj2 as <-.
        by destruct (is_exec e).
      * rewrite list_lookup_insert_ne in Hj1 by done.
        rewrite list_lookup_insert_ne in Hj2 by done.
        eapply wp_mono; [by eapply Hall|].
        rewrite Hw'. apply step_rely; [done|].
        intros o Ho. by eapply Hothers.
    + rewrite Hw'. by apply step_dead_ok.
    + intros j mj o Hj Ho. destruct (decide (j = i)) as [-> | Hji].
      * rewrite list_lookup_insert_eq in Hj by (by eapply lookup_lt_Some).
        injection Hj as <-.
        destruct (next_own_obj me e w ret o Hal Ho) as [Hold | (_ & -> & Hl & Hg)].
        -- destruct (Hh i me o Hme Hold) as [Hl Hg].
           destruct (benign e) eqn:Hb; [| by destruct e].
           destruct (sem_ext E e w Hb) as [[l Hx] _ _]. rewrite Hw'. split.
           ++ rewrite Hx, length_app. lia.
           ++ by rewrite (deref_grown w _ o l Hx Hl).
        -- rewrite Hw'. split; [lia | done].
      * rewrite list_lookup_insert_ne in Hj by done. by eapply Hkeep.
    + assert (Hnew : ∀ j mj o, j ≠ i → owns !! j = Some mj → own_obj mj = Some o →
                own_obj (next_own me e w) = Some o → False).
      { intros j mj o Hji Hj Ho Hn. destruct (Hothers j mj o Hji Hj Ho) as (Hl & _ & Hne).
        destruct (next_own_obj me e w ret o Hal Hn) as [Hold | (_ & -> & _)]; [done | lia]. }
      intros j1 j2 m1 m2 o H1 H2 Ho1 Ho2.
      destruct (decide (j1 = i)) as [-> | Hn1], (decide (j2 = i)) as [-> | Hn2]; [done | | |].
      * rewrite list_lookup_insert_eq in H1 by (by eapply lookup_lt_Some).
        rewrite list_lookup_insert_ne in H2 by done. injection H1 as <-.
        by destruct (Hnew j2 m2 o).
      * rewrite list_lookup_insert_eq in H2 by (by eapply lookup_lt_Some).
        rewrite list_lookup_insert_ne in H1 by done. injection H2 as <-.
        by destruct (Hnew j1 m1 o).
      * rewrite list_lookup_insert_ne in H1 by done.
        rewrite list_lookup_insert_ne in H2 by done. by eapply Hdis.
  - split; [done|]. exists owns, ret. split; [|done..].
    apply Forall2_same_length_lookup. split; [by rewrite length_insert|].
    intros j t' mj Hj1 Hj2. destruct (decide (j = i)) as [-> | Hji].
    + rewrite list_lookup_insert_eq in Hj1 by (by eapply lookup_lt_Some).
      injection Hj1 as <-. rewrite Hme in Hj2. injection Hj2 as <-. done.
    + rewrite list_lookup_insert_ne in Hj1 by done. by eapply Hall.
Qed.
End protocol_facts.

Section resolver_facts.
Context (E : Env).

Lemma root_id_set w : root_id w ≠ "".
Proof. unfold root_id. by case_decide. Qed.

Lemma found_rely me loc pObj w ret w' ret' :
  found E loc pObj w ret → rely me w ret w' ret' → found E loc pObj w' ret'.
Proof.
  intros [[Hd Hg] | [Hd Hk]] [L R M T S O].
  - left. split; [done|]. rewrite T, R; [done|]. rewrite Hg. apply root_id_set.
  - right. split; [done|]. destruct Hk as [Hk | Hk]; [by apply M | right; by apply S].
Qed.

Lemma parent_held_rely me loc pObj g w ret w' ret' :
  parent_held E loc pObj g w ret → rely me w ret w' ret' →
  parent_held E loc pObj g w' ret'.
Proof.
  intros (Hg & Hp & Hf) Hr. split; [done|]. split; [| by eapply found_rely].
  rewrite (r_res _ _ _ _ _ Hr); [done | congruence].
Qed.

Lemma parent_held_peek loc pObj g w ret :
  parent_held E loc pObj g w ret → dead_ok w ret →
  ∃ po, peekObject E (filepath_Dir E loc) w = Some po ∧ GDId po = g.
Proof.
  intros (Hg & Hp & [[Hd Hr] | [Hd Hk]]) Hdead; unfold peekObject.
  - rewrite decide_True by done. eexists. split; [done|]. simpl.
    rewrite <- Hp, Hr. done.
  - rewrite decide_False by done. destruct Hk as [Hk | Hk].
    + rewrite Hk. simpl. by eexists.
    + destruct (Hdead _ Hk) as [_ H0]. congruence.
Qed.

Lemma held_ok_rely o v w ret w' ret' :
  held_ok o v w ret → rely (Held o) w ret w' ret' → held_ok o v w' ret'.
Proof.
  intros (Hl & Hv & Hn) [L _ _ _ _ M]. destruct (M Hl) as [D N].
  split; [lia|]. split; [congruence | auto].
Qed.

Lemma placed_ok_rely loc o v w ret w' ret' :
  placed_ok loc o v w ret → rely (Placed loc o) w ret w' ret' → placed_ok loc o v w' ret'.
Proof.
  intros (Hl & Hk & Hv & Hn) [L _ _ _ _ M]. destruct (M Hl Hk Hn) as (D & K & N).
  split; [lia|]. split; [done|]. split; [congruence | done].
Qed.

(** One step of a worker, with what the others did before it. *)
Lemma wp_call {X A} (e : event X) (f : X → prog A) me w ret Q :
  (∀ w' ret', rely me w ret w' ret' → dead_ok w' ret' →
     parent_before_child E (w', existT _ e) ∧ allowed me e w' ret' ∧
     wp E (next_own me e w') (sem E e w').2 (next_ret me e ret') (f (sem E e w').1) Q) →
  wp E me w ret (call e ≫= f) Q.
Proof. intros H. exact H. Qed.

Ltac wp_step w ret Hr Hd :=
  apply wp_call; intros w ret Hr Hd;
  split; [| split; [| cbn [next_own next_ret sem fst snd]]].

Ltac wp_ret :=
  split; [done | intros ? [= <-]; done].

Lemma loadObject_root_found loc w ret o w' :
  filepath_Dir E loc = binPath E →
  loadObject E (binPath E) w = (Some o, w') → found E loc o w' ret.
Proof.
  intros Hd. rewrite loadObject_root. intros [= <- <-]. left. split; [done|].
  unfold deref, root_id. cbn [heap cfg].
  rewrite list_lookup_total_alt, lookup_app_r by lia.
  rewrite Nat.sub_diag. simpl.
  destruct (decide (RootFolderID (cfg w) = "")) as [H0 | H0]; simpl.
  - done.
  - by rewrite decide_False.
Qed.

Lemma wp_loaded loc eObj w ret :
  wp E Idle w ret (l ← call (EvIsLocked eObj);
                   mret (Some (mkResolved (Some eObj) true l None)))
     (resolved_post loc).
Proof.
  wp_step w1 ret1 Hr1 Hd1; [done | done |].
  split; [done|]. intros r0 [= <-] _ Hl. simpl in *.
  exists eObj. split; [done|]. unfold isLocked in Hl. by case_bool_decide.
Qed.

(** The modification check is run on an object whose identifier is set,
    and keeps it. *)
Lemma UpdateObjectIfModTimeChanged_wp wr o w ret :
  GDId (deref w o) ≠ "" →
  wp E Idle w ret (UpdateObjectIfModTimeChanged E wr o) (λ _ me _ _, me = Idle).
Proof.
  intros Hg. unfold UpdateObjectIfModTimeChanged.
  destruct (wr_isDir wr); [done|].
  wp_step w1 ret1 Hr1 Hd1; [done | done |].
  case_bool_decide; [done|].
  wp_step w2 ret2 Hr2 Hd2; [done | done |].
  case_bool_decide; [done|].
  wp_step w3 ret3 Hr3 Hd3; [done | done |].
  wp_step w4 ret4 Hr4 Hd4; [done | done |].
  assert (Hg4 : GDId (deref w4 o) ≠ "").
  { pose proof (rely_trans _ _ _ _ _ _ _ (rely_trans _ _ _ _ _ _ _
      (rely_trans _ _ _ _ _ _ _ Hr1 Hr2) Hr3) Hr4) as Hr.
    rewrite (r_res _ _ _ _ _ Hr); done. }
  set (c := mkCall _ _ _).
  assert (Hx : rely Idle w4 ret4 (execCommand E c w4).2 ret4).
  { apply ext_rely. by apply (sem_ext E (EvExecCommand c)). }
  destruct (execCommand E c w4) as [r w4a] eqn:Hs. cbn [fst snd] in *.
  assert (Hg4a : GDId (deref w4a o) ≠ "") by (rewrite (r_res _ _ _ _ _ Hx); done).
  destruct r as [err | out]; [done|].
  wp_step w5 ret5 Hr5 Hd5; [done | done |].
  wp_step w6 ret6 Hr6 Hd6; [done | |].
  { right. split; [done|]. split; [|done].
    pose proof (rely_trans _ _ _ _ _ _ _ Hr5 Hr6) as Hr.
    rewrite (r_res _ _ _ _ _ Hr); done. }
  wp_step w7 ret7 Hr7 Hd7; [done | done |]. reflexivity.
Qed.
(** The creation of [loc] under the parent [pObj] that was looked up. *)
Lemma NewObject_rest_wp loc pObj w ret :
  found E loc pObj w ret → loc ≠ binPath E →
  wp E Idle w ret (NewObject_rest E loc pObj) (resolved_post loc).
Proof.
  intros Hf Hloc. unfold NewObject_rest.
  wp_step w1 ret1 Hr1 Hd1; [done | done |].
  pose proof (found_rely _ _ _ _ _ _ _ Hf Hr1) as Hf1.
  unfold isLocked. case_bool_decide as Hg; [wp_ret|].
  assert (Hp1 : parent_held E loc pObj (GDId (deref w1 pObj)) w1 ret1) by done.
  set (g := GDId (deref w1 pObj)) in *. clearbody g. clear Hf Hr1 Hf1.
  wp_step w2 ret2 Hr2 Hd2; [done | done |].
  pose proof (parent_held_rely _ _ _ _ _ _ _ _ Hp1 Hr2) as Hp2.
  destruct (os_Stat E loc) as [err | wr]; [wp_ret|].
  wp_step w3 ret3 Hr3 Hd3; [done | done |].
  pose proof (parent_held_rely _ _ _ _ _ _ _ _ Hp2 Hr3) as Hp3.
  assert (Hg3 : GDId (deref w3 pObj) = g) by apply Hp3.
  rewrite Hg3.
  set (v := mkObject "" g _ _).
  wp_step w4 ret4 Hr4 Hd4; [done | done |].
  pose proof (parent_held_rely _ _ _ _ _ _ _ _ Hp3 Hr4) as Hp4.
  set (o := length (heap w4)).
  assert (Hx4 : ext w4 (alloc v w4).2) by apply (sem_ext E (EvNew v) w4 eq_refl).
  pose proof (parent_held_rely _ _ _ _ _ _ _ _ Hp4 (ext_rely Idle _ ret4 _ Hx4)) as Hp4a.
  assert (Ho4 : held_ok o v (alloc v w4).2 ret4).
  { split; [|split].
    - simpl. rewrite length_app. simpl. unfold o. lia.
    - apply deref_alloc_new.
    - intros Hin. destruct (Hd4 _ Hin) as [Hl _]. unfold o in Hl. lia. }
  change (alloc v w4).1 with o.
  generalize dependent (alloc v w4).2. intros w4a _ Hp4a Ho4.
  clear Hp1 Hp2 Hp3 Hp4 Hr2 Hr3 Hr4 Hd1 Hd2 Hd3 Hd4 Hg3.
  wp_step w5 ret5 Hr5 Hd5.
  { (* the insert keeps parent before child *)
    pose proof (parent_held_rely _ _ _ _ _ _ _ _ Hp4a Hr5) as Hp5.
    pose proof (held_ok_rely _ _ _ _ _ _ Ho4 Hr5) as (_ & Hv5 & _).
    destruct (parent_held_peek _ _ _ _ _ Hp5 Hd5) as (po & Hpo & Hgpo).
    intros _. split; [done|]. exists po. split; [done|].
    split; [rewrite Hgpo; apply Hp5|]. simpl. by rewrite Hv5, Hgpo. }
  { pose proof (held_ok_rely _ _ _ _ _ _ Ho4 Hr5) as (Hl5 & _ & Hn5). done. }
  pose proof (parent_held_rely _ _ _ _ _ _ _ _ Hp4a Hr5) as Hp5.
  pose proof (held_ok_rely _ _ _ _ _ _ Ho4 Hr5) as Ho5.
  unfold storeObject. destruct (objectMap w5 !! loc) eqn:Hk5; cbn [fst snd negb]; [wp_ret|].
  set (w5a := set_objectMap _ w5).
  assert (Hx5 : ext w5 w5a).
  { pose proof (sem_ext E (EvStoreObject loc o) w5 eq_refl) as H.
    simpl in H. unfold storeObject in H. by rewrite Hk5 in H. }
  pose proof (parent_held_rely _ _ _ _ _ _ _ _ Hp5 (ext_rely Idle _ ret5 _ Hx5)) as Hp5a.
  assert (Hq5 : placed_ok loc o v w5a ret5).
  { destruct Ho5 as (Hl & Hv & Hn). split; [done|]. split; [|done].
    unfold w5a. simpl. by rewrite lookup_insert_eq. }
  clearbody w5a. clear Hp4a Ho4 Hr5 Hd5 Hp5 Ho5 Hk5 Hx5.
  wp_step w6 ret6 Hr6 Hd6; [done | done |].
  pose proof (parent_held_rely _ _ _ _ _ _ _ _ Hp5a Hr6) as Hp6.
  pose proof (placed_ok_rely _ _ _ _ _ _ _ Hq5 Hr6) as Hq6.
  wp_step w7 ret7 Hr7 Hd7; [done | done |].
  pose proof (parent_held_rely _ _ _ _ _ _ _ _ Hp6 Hr7) as Hp7.
  pose proof (placed_ok_rely _ _ _ _ _ _ _ Hq6 Hr7) as Hq7.
  assert (Hg6 : GDId (deref w6 pObj) = g) by apply Hp6.
  assert (Hg7 : GDId (deref w7 pObj) = g) by apply Hp7.
  rewrite Hg6, Hg7.
  set (c := mkCall _ _ _).
  assert (Hc : c = create_call E loc (fi_IsDir wr) g) by done.
  clearbody c. subst c.
  clear Hp5a Hq5 Hp6 Hq6 Hr6 Hr7 Hd6 Hd7 Hg6 Hg7.
  wp_step w8 ret8 Hr8 Hd8.
  { pose proof (parent_held_rely _ _ _ _ _ _ _ _ Hp7 Hr8) as Hp8.
    destruct (parent_held_peek _ _ _ _ _ Hp8 Hd8) as (po & Hpo & Hgpo).
    intros k [= <-]. exists po, (fi_IsDir wr). split; [done|].
    split; [rewrite Hgpo; apply Hp8 | by rewrite Hgpo]. }
  { done. }
  pose proof (placed_ok_rely _ _ _ _ _ _ _ Hq7 Hr8) as Hq8.
  set (c := create_call E loc (fi_IsDir wr) g) in *.
  assert (Hx8 : ext w8 (execCommand E c w8).2) by apply (sem_ext E (EvExecCommand c) w8 eq_refl).
  assert (Hq8a : placed_ok loc o v (execCommand E c w8).2 ret8).
  { eapply placed_ok_rely; [exact Hq8 | by apply ext_rely]. }
  destruct (execCommand E c w8) as [r w8a]. cbn [fst snd] in *.
  clear Hp7 Hq7 Hr8 Hd8 Hq8 Hx8.
  destruct r as [err | nGDId].
  - wp_step w9 ret9 Hr9 Hd9; [done | |].
    + pose proof (placed_ok_rely _ _ _ _ _ _ _ Hq8a Hr9) as (Hl & Hk & Hv & Hn).
      exists o. split; [done|]. split; [done|]. split; [done|]. by rewrite Hv.
    + wp_ret.
  - wp_step w9 ret9 Hr9 Hd9; [done | |].
    + pose proof (placed_ok_rely _ _ _ _ _ _ _ Hq8a Hr9) as (Hl & Hk & Hv & Hn).
      left. exists loc. split; [done|]. split; [done|]. split; [done|].
      split; [by rewrite Hv | done].
    + pose proof (placed_ok_rely _ _ _ _ _ _ _ Hq8a Hr9) as (Hl & Hk & Hv & Hn).
      wp_step w10 ret10 Hr10 Hd10; [done | done |].
      split; [done|]. intros r0 [= <-] _ _. exists o. split; [done|]. simpl.
      by destruct (r_map _ _ _ _ _ Hr10 loc o Hk); [left | right].
Qed.
Lemma after_parent_post loc r w ret :
  filepath_Dir E loc ≠ binPath E →
  resolved_post (filepath_Dir E loc) r Idle w ret →
  match after_parent r with
  | inl early => resolved_post loc early Idle w ret
  | inr pObj => found E loc pObj w ret
  end.
Proof.
  intros Hd [_ Hpost]. unfold after_parent.
  destruct r as [r0|]; [| by split].
  destruct (res_err r0) eqn:He; [by wp_ret|].
  destruct (res_loaded r0 || res_locked r0) eqn:Hb.
  - split; [done|]. intros r1 [= <-] _ Hl. simpl in *.
    destruct (Hpost r0 eq_refl He Hl) as (o & Ho & Hres). exists o. split; [done|].
    rewrite Hl, orb_false_r in Hb. by rewrite Hb in *.
  - apply orb_false_elim in Hb as [Hlo Hl].
    destruct (Hpost r0 eq_refl He Hl) as (o & Ho & Hres). rewrite Ho.
    rewrite Hlo in Hres. right. done.
Qed.

(** [NewObject] keeps to the protocol. *)
Lemma NewObject_wp fuel : ∀ loc w ret,
  wp E Idle w ret (NewObject E fuel loc) (resolved_post loc).
Proof.
  induction fuel as [| fuel IH]; intros loc w ret; [by split|].
  rewrite NewObject_S.
  wp_step w1 ret1 Hr1 Hd1; [done | done |].
  destruct (decide (loc = binPath E)) as [-> | Hloc].
  { rewrite loadObject_root. cbn [fst snd]. apply wp_loaded. }
  rewrite loadObject_key by done. cbn [fst snd].
  destruct (objectMap w1 !! loc) as [eObj|] eqn:Hk1; [apply wp_loaded|].
  wp_step w2 ret2 Hr2 Hd2; [done | done |].
  destruct (decide (filepath_Dir E loc = binPath E)) as [Hd | Hd].
  { rewrite Hd. destruct (loadObject E (binPath E) w2) as [o w2a] eqn:Hld.
    pose proof Hld as Hld'. rewrite loadObject_root in Hld'. injection Hld' as <- _.
    cbn [fst snd]. apply NewObject_rest_wp; [| done].
    by eapply loadObject_root_found. }
  rewrite loadObject_key by done. cbn [fst snd].
  destruct (objectMap w2 !! filepath_Dir E loc) as [pObj|] eqn:Hk2.
  { apply NewObject_rest_wp; [| done]. right. split; [done | by left]. }
  eapply wp_bind with
    (Q' := λ x me w ret, me = Idle ∧
             match x with
             | inl early => resolved_post loc early Idle w ret
             | inr pObj => found E loc pObj w ret
             end).
  - eapply wp_bind; [apply IH|].
    intros r me' w' ret' Hpost. split; [apply Hpost|].
    apply after_parent_post; [done|]. by destruct Hpost as [-> ?].
  - intros [early | pObj] me' w' ret' [-> Hx]; [exact Hx|].
    by apply NewObject_rest_wp.
Qed.

Lemma Sync_wp fuel wr w ret :
  wp E Idle w ret (Sync E fuel wr) (λ _ me _ _, me = Idle).
Proof.
  unfold Sync. eapply wp_bind; [apply NewObject_wp|].
  intros r me' w' ret' [-> Hpost].
  destruct r as [r0|]; [|done].
  destruct (res_err r0) eqn:He; [done|].
  destruct (res_locked r0) eqn:Hl; [done|].
  destruct (Hpost r0 eq_refl He Hl) as (o & Ho & Hres).
  destruct (res_loaded r0); [|done]. cbn [negb]. rewrite Ho.
  eapply wp_bind; [by apply UpdateObjectIfModTimeChanged_wp|].
  by intros u me' w'' ret'' ->.
Qed.

Lemma resolveTask_wp fuel wr w ret :
  wp E Idle w ret (resolveTask E fuel wr) (λ _ me _ _, me = Idle).
Proof.
  unfold resolveTask. eapply wp_bind; [apply Sync_wp|].
  intros r me' w' ret' ->.
  destruct r as [r0|]; [|done].
  destruct (syn_err r0); [done|].
  destruct (syn_locked r0); [|done].
  wp_step w1 ret1 Hr1 Hd1; done.
Qed.

Lemma poolWorker_wp jobs : ∀ w ret,
  wp E Idle w ret (poolWorker E jobs) (λ _ _ _ _, True).
Proof.
  induction jobs as [| job jobs IH]; intros w ret; [done|].
  cbn [poolWorker]. eapply wp_bind; [apply resolveTask_wp|].
  intros r me' w' ret' ->. destruct r; [apply IH | done].
Qed.

(** Workers that hold nothing yet and keep to the protocol. *)
Lemma conc_inv_init {R} (ps : list (prog R)) w :
  Forall (λ p, ∀ w ret, wp E Idle w ret p (λ _ _ _ _, True)) ps →
  conc_inv E (Running <$> ps) (replicate (length ps) Idle) ∅ w.
Proof.
  intros Hps. split.
  - apply Forall2_same_length_lookup. split.
    + by rewrite length_fmap, length_replicate.
    + intros i t me Ht Hme. apply lookup_replicate in Hme as [-> _].
      rewrite list_lookup_fmap in Ht.
      destruct (ps !! i) as [p|] eqn:Hp; [|done]. injection Ht as <-.
      simpl. by apply (proj1 (Forall_lookup _ _) Hps i p).
  - intros o Ho. by apply not_elem_of_empty in Ho.
  - intros i me o Hme Ho. apply lookup_replicate in Hme as [-> _]. done.
  - intros i j mi mj o Hi _ Ho. apply lookup_replicate in Hi as [-> _]. done.
Qed.

Lemma taken_conc_inv {R} sched : ∀ (ts : list (thread R)) owns ret w,
  conc_inv E ts owns ret w → Forall (parent_before_child E) (taken E sched (ts, w)).
Proof.
  induction sched as [| i sched IH]; intros ts owns ret w Hinv; [constructor|].
  destruct (turn_conc_inv E ts owns ret w i Hinv) as [Hstep (owns' & ret' & Hinv')].
  destruct (turn E i (ts, w)) as [ts' w'] eqn:Ht. simpl in Hinv'.
  pose proof (IH ts' owns' ret' w' Hinv') as Hrest.
  simpl. rewrite Ht.
  destruct (ts !! i) as [[[r | X e k] | p] |]; try done.
  by constructor.
Qed.
End resolver_facts.

(** C3. In a resolve pass of the pool, whatever tasks the workers take and
    however their steps and the backend's answers interleave: every insert
    into the store that goes through is for a path other than the sync root
    and names as the parent's identifier the identifier that a lookup of the
    parent directory finds at that moment (the stored entry's, or the
    synthesized root's), which is not empty; and every creation command is
    issued with the identifier that the parent directory has at that moment,
    which is not empty. *)
Theorem resolve_pass_parent_before_child (E : Env) (jobs : list (list (nat * WalkResp)))
    (w0 : World) (sched : list nat) :
  Forall (parent_before_child E)
         (taken E sched ((λ js, Running (poolWorker E js)) <$> jobs, w0)).
Proof.
  replace ((λ js, Running (poolWorker E js)) <$> jobs)
    with (Running <$> (poolWorker E <$> jobs)) by (by rewrite <- list_fmap_compose).
  eapply taken_conc_inv, conc_inv_init.
  apply Forall_fmap, Forall_forall. intros js _ w ret. apply poolWorker_wp.
Qed.

(** The pass over the fresh tree with one worker on [/r/a/f] and one on
    [/r/a], the second running first: the commands among the steps taken
    are the two creations, the directory's before the file's. *)
Example resolve_pass_taken :
  call_tag <$> omap (λ s : World * any_event, exec_call (projT2 s.2))
    (taken ex_env (replicate 14 1 ++ replicate 20 0)%nat
       ((λ js, Running (poolWorker ex_env js)) <$> [[(3%nat, ex_wr_f)]; [(3%nat, ex_wr_a)]],
        ex_w0))
  = [TagCreate "/r/a"; TagCreate "/r/a/f"].
Proof. vm_compute. reflexivity. Qed.

(** ** The size formatter *)

Lemma string_length_app (s1 s2 : string) :
  String.length (s1 +:+ s2) = (String.length s1 + String.length s2)%nat.
Proof. induction s1 as [| c s1 IH]; [done|]. simpl. by rewrite IH. Qed.

Lemma round_half_even_ge a b : 0 ≤ a → 0 < b → a / b ≤ round_half_even a b.
Proof.
  intros Ha Hb. unfold round_half_even.
  repeat case_match; lia.
Qed.

Lemma round_half_even_small a b : 0 ≤ a → 2 * a < b → round_half_even a b = 0.
Proof.
  intros Ha Hb. unfold round_half_even.
  rewrite Z.div_small, Z.mod_small by lia.
  by rewrite (proj2 (Z.ltb_lt _ _)) by lia.
Qed.

Lemma round_half_even_pos a b : 0 < b → b < 2 * a → 1 ≤ round_half_even a b.
Proof.
  intros Hb Ha. unfold round_half_even.
  destruct (decide (a < b)) as [Hlt | Hge].
  - rewrite Z.div_small, Z.mod_small by lia.
    rewrite (proj2 (Z.ltb_ge _ _)) by lia.
    by rewrite (proj2 (Z.ltb_lt _ _)) by lia.
  - assert (1 ≤ a / b) by (apply Z.div_le_lower_bound; lia).
    repeat case_match; lia.
Qed.

Lemma float64_of_int_ge n : 0 ≤ n → Z.min n (2 ^ 53) ≤ float64_of_int n.
Proof.
  intros Hn. unfold float64_of_int. case_match eqn:Hlt.
  - apply Z.ltb_lt in Hlt. lia.
  - apply Z.ltb_ge in Hlt.
    assert (0 < n) by lia.
    pose proof (Z.log2_spec n H) as [Hlo Hhi].
    assert (53 ≤ Z.log2 n).
    { apply Z.log2_le_pow2; [lia|]. done. }
    set (e := Z.log2 n - 52) in *.
    assert (Hq : 2 ^ 52 ≤ n / 2 ^ e).
    { apply Z.div_le_lower_bound; [lia|].
      rewrite <- Z.pow_add_r by lia. replace (e + 52) with (Z.log2 n) by lia. done. }
    pose proof (round_half_even_ge n (2 ^ e) ltac:(lia) ltac:(lia)) as Hr.
    assert (2 ^ 1 ≤ 2 ^ e) by (apply Z.pow_le_mono_r; lia).
    nia.
Qed.

Lemma pretty_digit_length d : 0 ≤ d < 10 → String.length (pretty d) = 1%nat.
Proof.
  intros Hd.
  assert (d = 0 ∨ d = 1 ∨ d = 2 ∨ d = 3 ∨ d = 4 ∨ d = 5 ∨ d = 6 ∨ d = 7 ∨ d = 8 ∨ d = 9)
    as Hc by lia.
  repeat (destruct Hc as [-> | Hc]; [by vm_compute|]). subst. by vm_compute.
Qed.

(** Two decimals that are not both zero do not print as zero. *)
Lemma format_f2_zero h : 0 ≤ h → format_f2 false h = "0.00" → h = 0.
Proof.
  intros Hh Heq. unfold format_f2 in Heq. simpl in Heq.
  pose proof (Z.mod_pos_bound h 100 ltac:(lia)) as Hm.
  assert (Hd1 : 0 ≤ h mod 100 / 10 < 10).
  { split; [apply Z.div_pos; lia | apply Z.div_lt_upper_bound; lia]. }
  assert (Hd0 : 0 ≤ h mod 10 < 10) by (apply Z.mod_pos_bound; lia).
  pose proof (pretty_digit_length _ Hd1) as Hl1.
  pose proof (pretty_digit_length _ Hd0) as Hl0.
  pose proof (f_equal String.length Heq) as Hlen.
  rewrite !string_length_app, Hl1, Hl0 in Hlen. simpl in Hlen.
  destruct (pretty (h / 100)) as [| c [| c' s]] eqn:Hq; simpl in Hlen; try lia.
  destruct (pretty (h mod 100 / 10)) as [| c1 [| c1' s1]] eqn:H1; simpl in Hl1; try lia.
  destruct (pretty (h mod 10)) as [| c0 [| c0' s0]] eqn:H0; simpl in Hl0; try lia.
  simpl in Heq. injection Heq as -> -> ->.
  assert (h / 100 = 0) as Hq0 by (by apply (inj pretty)).
  assert (h mod 100 / 10 = 0) as Hq1 by (by apply (inj pretty)).
  assert (h mod 10 = 0) as Hq2 by (by apply (inj pretty)).
  apply Z.div_small_iff in Hq0; [|lia].
  rewrite Z.mod_small in Hq1 by lia.
  apply Z.div_small_iff in Hq1; [|lia].
  rewrite Z.mod_small in Hq2 by lia. done.
Qed.

Lemma Sprintf_f2_pos n k h :
  0 ≤ n → h = round_half_even (float64_of_int n * 100) (2 ^ k) →
  Sprintf_f2 n k = format_f2 false h.
Proof.
  intros Hn ->. unfold Sprintf_f2.
  rewrite (proj2 (Z.ltb_ge _ _)) by lia. by rewrite Z.abs_eq by lia.
Qed.

(** X1. For a size that is not negative the unit is chosen by thresholds:
    up to 5 bytes the result is the number of bytes; from 6 to 5242 bytes
    it is the size in KB; from 5243 bytes on it is the size in MB. In KB
    and MB the value is the size divided by 1024 or 1024 * 1024, rounded to
    two decimals with a tie going to the even digit, and it is at least
    0.01. Below [2 ^ 53] the conversion to [float64] loses nothing. *)
Theorem getFileSizeFormatted_units (n : Z) :
  0 ≤ n < 2 ^ 63 →
  (n ≤ 5 → size_format.getFileSizeFormatted n = pretty n +:+ " B") ∧
  (6 ≤ n ≤ 5242 →
     1 ≤ round_half_even (n * 100) 1024 ∧
     size_format.getFileSizeFormatted n
       = format_f2 false (round_half_even (n * 100) 1024) +:+ " KB") ∧
  (5243 ≤ n →
     1 ≤ round_half_even (float64_of_int n * 100) (2 ^ 20) ∧
     size_format.getFileSizeFormatted n
       = format_f2 false (round_half_even (float64_of_int n * 100) (2 ^ 20)) +:+ " MB") ∧
  (n < 2 ^ 53 → float64_of_int n = n).
Proof.
  intros [Hn _].
  assert (Hsmall : n < 2 ^ 53 → float64_of_int n = n).
  { intros H. unfold float64_of_int. by rewrite (proj2 (Z.ltb_lt _ _)) by lia. }
  assert (Hmb0 : n ≤ 5242 → Sprintf_f2 n 20 = "0.00").
  { intros H. rewrite (Sprintf_f2_pos n 20 0); [done | done |].
    rewrite Hsmall by lia. symmetry. apply round_half_even_small; lia. }
  unfold size_format.getFileSizeFormatted.
  split; [| split; [| split; [| done]]].
  - intros H5. rewrite Hmb0 by lia. rewrite decide_False by (by intros H; apply H).
    rewrite (Sprintf_f2_pos n 10 0); [| done |].
    + by rewrite decide_False by (by intros H; apply H).
    + rewrite Hsmall by lia. symmetry. apply round_half_even_small; lia.
  - intros [H6 H5242]. rewrite Hmb0 by lia. rewrite decide_False by (by intros H; apply H).
    assert (Hh : 1 ≤ round_half_even (n * 100) 1024) by (apply round_half_even_pos; lia).
    split; [done|].
    rewrite (Sprintf_f2_pos n 10 (round_half_even (n * 100) 1024));
      [| done | by rewrite Hsmall by lia].
    rewrite decide_True; [done|].
    intros H0%format_f2_zero; lia.
  - intros H5243.
    pose proof (float64_of_int_ge n Hn) as HF.
    assert (Hh : 1 ≤ round_half_even (float64_of_int n * 100) (2 ^ 20)).
    { apply round_half_even_pos; lia. }
    split; [done|].
    rewrite (Sprintf_f2_pos n 20 _ Hn eq_refl).
    rewrite decide_True; [done|].
    intros H0%format_f2_zero; lia.
Qed.

Lemma getFileSizeFormatted_units_witness :
  0 ≤ 5242 < 2 ^ 63 ∧ 6 ≤ 5242 ≤ 5242 ∧
  size_format.getFileSizeFormatted 5242 = "5.12 KB".
Proof.
  split; [lia|]. split; [lia|].
  destruct (getFileSizeFormatted_units 5242 ltac:(lia)) as (_ & H & _).
  destruct (H ltac:(lia)) as [_ ->]. by vm_compute.
Defined.

(** The sizes at which the unit changes, a tie, and a size that the
    conversion to [float64] rounds. *)
Example getFileSizeFormatted_values :
  size_format.getFileSizeFormatted <$>
    [0; 5; 6; 1024; 5242; 5243; 131072; 1048576; 1572864; 2 ^ 62 + 1]
  = ["0 B"; "5 B"; "0.01 KB"; "1.00 KB"; "5.12 KB"; "0.01 MB"; "0.12 MB"; "1.00 MB";
     "1.50 MB"; "4398046511104.00 MB"].
Proof. by vm_compute. Qed.

(** X2. A negative size is always given in MB, with a minus sign, also
    when the digits printed are all zero: the result is never in KB or in
    bytes. *)
Theorem getFileSizeFormatted_negative (n : Z) :
  - 2 ^ 63 ≤ n < 0 →
  size_format.getFileSizeFormatted n
  = "-" +:+ format_f2 false (round_half_even (float64_of_int (- n) * 100) (2 ^ 20)) +:+ " MB".
Proof.
  intros [_ Hn]. unfold size_format.getFileSizeFormatted, Sprintf_f2.
  rewrite (proj2 (Z.ltb_lt _ _)) by lia. rewrite Z.abs_neq by lia.
  rewrite decide_True; [done|]. done.
Qed.

Lemma getFileSizeFormatted_negative_witness :
  - 2 ^ 63 ≤ -1 < 0 ∧ size_format.getFileSizeFormatted (-1) = "-0.00 MB".
Proof.
  split; [lia|]. rewrite (getFileSizeFormatted_negative (-1)) by lia. by vm_compute.
Defined.

(** ** Insert, lookup and removal *)

(** X3. Insert, lookup and removal of a key other than the sync root go
    together: after an insert that went through, a lookup finds the object
    inserted and a second insert is refused; after the removal a lookup
    misses, the map is the one before the insert, and an insert goes
    through again. Other keys are not touched. *)
Theorem storeObject_loadObject_deleteObject (E : Env) key o w :
  key ≠ binPath E → objectMap w !! key = None →
  let w1 := (storeObject key o w).2 in
  let w2 := deleteObject key w1 in
  loadObject E key w1 = (Some o, w1) ∧
  (∀ o', storeObject key o' w1 = (false, w1)) ∧
  (∀ k, k ≠ key → objectMap w1 !! k = objectMap w !! k) ∧
  loadObject E key w2 = (None, w2) ∧
  w2 = w ∧
  (∀ o', (storeObject key o' w2).1 = true).
Proof.
  intros Hk Hn w1 w2. subst w1 w2.
  rewrite (storeObject_absent key o w Hn). cbn [snd].
  rewrite !loadObject_key by done.
  assert (Hw : deleteObject key (set_objectMap (<[key := o]> (objectMap w)) w) = w).
  { unfold deleteObject, set_objectMap. destruct w as [c f h m fs cs co nt].
    cbn in *. f_equal. rewrite delete_insert_eq. by apply delete_id. }
  rewrite Hw. cbn [objectMap set_objectMap].
  split; [by rewrite lookup_insert_eq|].
  split.
  { intros o'. apply storeObject_present. cbn. rewrite lookup_insert_eq. by eexists. }
  split; [intros k Hne; by rewrite lookup_insert_ne|].
  split; [by rewrite Hn|]. split; [done|].
  intros o'. by rewrite (storeObject_absent key o' w Hn).
Qed.

Lemma storeObject_loadObject_deleteObject_witness :
  "/r/a" ≠ binPath ex_env ∧ objectMap ex_w0 !! "/r/a" = None ∧
  loadObject ex_env "/r/a" (storeObject "/r/a" 7%nat ex_w0).2
    = (Some 7%nat, (storeObject "/r/a" 7%nat ex_w0).2) ∧
  deleteObject "/r/a" (storeObject "/r/a" 7%nat ex_w0).2 = ex_w0.
Proof.
  split; [done|]. split; [done|].
  destruct (storeObject_loadObject_deleteObject ex_env "/r/a" 7%nat ex_w0)
    as (H1 & _ & _ & _ & H2 & _); done.
Defined.

(** X4. A lookup of the sync root never returns a stored entry: whatever
    the map holds, it reports the key as found and returns an object
    allocated by this very call, with the root identifier, which is not
    empty; the map is left as it is. So two lookups return two objects. *)
Theorem loadObject_root_fresh (E : Env) w :
  let r := loadObject E (binPath E) w in
  r.1 = Some (length (heap w)) ∧
  length (heap r.2) = S (length (heap w)) ∧
  objectMap r.2 = objectMap w ∧
  deref r.2 (length (heap w)) = mkObject (root_id w) "" 0 0 ∧
  root_id w ≠ "" ∧
  isLocked (length (heap w)) r.2 = false ∧
  (∀ o, (o < length (heap w))%nat → deref r.2 o = deref w o) ∧
  (loadObject E (binPath E) r.2).1 = Some (S (length (heap w))) ∧
  root_id r.2 = root_id w.
Proof.
  intros r. subst r. rewrite loadObject_root. cbn [fst snd heap objectMap].
  assert (Hroot : root_id w ≠ "") by (unfold root_id; by case_decide).
  assert (Hd : deref (mkWorld (if decide (RootFolderID (cfg w) = "")
                               then set_RootFolderID "." (cfg w) else cfg w)
                        (ObjectMapFilePath w)
                        (heap w ++ [mkObject (if decide (RootFolderID (cfg w) = "") then "."
                                              else RootFolderID (cfg w)) "" 0 0])
                        (objectMap w) (files w) (calls w) (console w) (ntr w))
                 (length (heap w)) = mkObject (root_id w) "" 0 0).
  { unfold deref. cbn [heap].
    rewrite list_lookup_total_alt, lookup_app_r by lia. by rewrite Nat.sub_diag. }
  split; [done|]. split; [rewrite length_app; simpl; lia|]. split; [done|].
  split; [done|]. split; [done|].
  split; [unfold isLocked; rewrite Hd; by apply bool_decide_eq_false|].
  split.
  { intros o Ho. unfold deref. cbn [heap]. by rewrite !list_lookup_total_alt, lookup_app_l. }
  split.
  { rewrite loadObject_root. cbn [fst heap]. rewrite length_app. simpl. f_equal. lia. }
  unfold root_id. cbn [cfg]. by repeat (case_decide; simpl in * ).
Qed.

(** ** What [NewObject] does, case by case *)

(** A lookup changes nothing but the heap, which grows by the root's
    object when the key is the sync root. *)
Lemma loadObject_frame (E : Env) key w :
  objectMap (loadObject E key w).2 = objectMap w ∧
  calls (loadObject E key w).2 = calls w ∧
  console (loadObject E key w).2 = console w ∧
  ntr (loadObject E key w).2 = ntr w ∧
  files (loadObject E key w).2 = files w ∧
  TestMode (cfg (loadObject E key w).2) = TestMode (cfg w) ∧
  (∃ l, heap (loadObject E key w).2 = heap w ++ l) ∧
  (∀ o, (o < length (heap w))%nat → deref (loadObject E key w).2 o = deref w o).
Proof.
  destruct (decide (key = binPath E)) as [-> | Hk].
  - rewrite loadObject_root. cbn.
    do 5 (split; [done|]). split; [by case_decide|]. split; [by eexists|].
    intros o Ho. unfold deref. cbn [heap].
    by rewrite !list_lookup_total_alt, lookup_app_l.
  - rewrite loadObject_key by done. cbn.
    do 6 (split; [done|]). split; [exists []; by rewrite app_nil_r | done].
Qed.

(** X5. When [os.Stat] fails for a path that is not tracked and whose
    parent is found with its identifier set, [NewObject] returns that error
    and nothing else has happened: no entry, no placeholder, no command. *)
Theorem NewObject_stat_error (E : Env) fuel loc w pObj err :
  loc ≠ binPath E → objectMap w !! loc = None →
  (loadObject E (filepath_Dir E loc) w).1 = Some pObj →
  isLocked pObj (loadObject E (filepath_Dir E loc) w).2 = false →
  os_Stat E loc = inl err →
  let r := run E (NewObject E (S fuel) loc) w in
  r.1 = Some (mkResolved None false false (Some err)) ∧
  r.2 = (loadObject E (filepath_Dir E loc) w).2 ∧
  objectMap r.2 = objectMap w ∧ calls r.2 = calls w ∧ console r.2 = console w ∧
  (∀ o, (o < length (heap w))%nat → deref r.2 o = deref w o).
Proof.
  intros Hloc Hn Hp Hl Hs r. subst r.
  rewrite run_NewObject_missing by done. rewrite Hp.
  rewrite (run_NewObject_rest_stat_error E loc pObj _ err Hl Hs). cbn [fst snd].
  split; [done|]. split; [done|].
  destruct (decide (filepath_Dir E loc = binPath E)) as [Hd | Hd].
  - rewrite Hd, loadObject_root. cbn [snd objectMap calls console].
    split; [done|]. split; [done|]. split; [done|].
    intros o Ho. unfold deref. cbn [heap].
    by rewrite !list_lookup_total_alt, lookup_app_l.
  - by rewrite loadObject_key.
Qed.

Lemma NewObject_stat_error_witness :
  let r := run ex_env (NewObject ex_env 1 "/r/gone") ex_w0 in
  r.1 = Some (mkResolved None false false (Some "stat: no such file or directory")) ∧
  objectMap r.2 = objectMap ex_w0 ∧ calls r.2 = calls ex_w0.
Proof.
  destruct (NewObject_stat_error ex_env 0 "/r/gone" ex_w0 0%nat
              "stat: no such file or directory")
    as (H1 & _ & H2 & H3 & _); done.
Defined.

(** X6. When the parent of an untracked path is found locked (its
    identifier is still empty), [NewObject] returns the parent's object
    with [locked] set, before any [os.Stat], insert or command. *)
Theorem NewObject_parent_locked (E : Env) fuel loc w pObj :
  loc ≠ binPath E → objectMap w !! loc = None →
  objectMap w !! filepath_Dir E loc = Some pObj → GDId (deref w pObj) = "" →
  filepath_Dir E loc ≠ binPath E →
  run E (NewObject E (S fuel) loc) w
    = (Some (mkResolved (Some pObj) false true None), w) ∧
  steps E (NewObject E (S fuel) loc) w
    = [(w, existT _ (EvLoadObject loc)); (w, existT _ (EvLoadObject (filepath_Dir E loc)));
       (w, existT _ (EvIsLocked pObj))] ∧
  ∀ wr, wr_loc wr = loc →
        run E (resolveTask E (S fuel) wr) w = (Some None, set_ntr (ntr w ++ [wr]) w).
Proof.
  intros Hloc Hn Hp Hg Hd.
  assert (Hl : isLocked pObj w = true) by (unfold isLocked; by apply bool_decide_eq_true).
  assert (Hrun : run E (NewObject E (S fuel) loc) w
                 = (Some (mkResolved (Some pObj) false true None), w)).
  { rewrite run_NewObject_missing by done. rewrite loadObject_key by done.
    cbn [fst snd]. rewrite Hp. by apply run_NewObject_rest_locked. }
  split; [done|]. split.
  - rewrite NewObject_S, steps_call. cbn [sem]. rewrite loadObject_key by done.
    cbn [fst snd]. rewrite Hn. rewrite steps_call. cbn [sem].
    rewrite loadObject_key by done. cbn [fst snd]. rewrite Hp.
    do 2 f_equal. rewrite steps_bind, steps_ret, run_ret. cbn [fst snd app].
    unfold NewObject_rest. rewrite steps_call. cbn [sem fst snd].
    by rewrite Hl.
  - intros wr <-.
    rewrite (resolveTask_requeues E (S fuel) wr w (mkResolved (Some pObj) false true None));
      [by rewrite Hrun | by rewrite Hrun | done | done].
Qed.

Lemma NewObject_parent_locked_witness :
  objectMap ex_w_stuck !! "/r/a" = Some 0%nat ∧ GDId (deref ex_w_stuck 0%nat) = "" ∧
  run ex_env (NewObject ex_env 1 "/r/a/f") ex_w_stuck
    = (Some (mkResolved (Some 0%nat) false true None), ex_w_stuck) ∧
  run ex_env (resolveTask ex_env 1 ex_wr_f) ex_w_stuck
    = (Some None, set_ntr [ex_wr_f] ex_w_stuck).
Proof.
  split; [done|]. split; [done|].
  destruct (NewObject_parent_locked ex_env 0 "/r/a/f" ex_w_stuck 0%nat)
    as (H1 & _ & H3); [done | done | done | done | done |].
  split; [exact H1 | exact (H3 ex_wr_f eq_refl)].
Defined.

(** The creation, in full. *)
Lemma run_NewObject_creates (E : Env) fuel loc w pObj fi id :
  loc ≠ binPath E → objectMap w !! loc = None →
  (loadObject E (filepath_Dir E loc) w).1 = Some pObj →
  let w1 := (loadObject E (filepath_Dir E loc) w).2 in
  GDId (deref w1 pObj) ≠ "" →
  os_Stat E loc = inr fi →
  let c := create_call E loc (fi_IsDir fi) (GDId (deref w1 pObj)) in
  (execCommand E c w1).1 = inr id →
  let r := run E (NewObject E (S fuel) loc) w in
  let o := length (heap w1) in
  r.1 = Some (mkResolved (Some o) false false None) ∧
  objectMap r.2 = <[loc := o]> (objectMap w) ∧
  deref r.2 o = mkObject id (GDId (deref w1 pObj))
                  (if fi_IsDir fi then 0 else fi_ModTimeUnix fi) (fi_Size fi) ∧
  calls r.2 = calls w ++ [c] ∧
  console r.2 = console w ++
    [(if fi_IsDir fi then "mkdir" else "created") +:+ ": " +:+
     strings_TrimPrefix loc (binPath E) +:+ " (" +:+
     getFileSizeFormatted E (fi_Size fi) +:+ ")"] ∧
  ntr r.2 = ntr w ∧ files r.2 = files w ∧
  (∀ p, (p < length (heap w))%nat → deref r.2 p = deref w p).
Proof.
  intros Hloc Hn Hp w1 Hg Hs c Hex r o. subst r.
  rewrite run_NewObject_missing by done. rewrite Hp. fold w1.
  destruct (loadObject_frame E (filepath_Dir E loc) w)
    as (Hm & Hc & Hco & Hnt & Hf & Ht & [l Hh] & Hd).
  fold w1 in Hm, Hc, Hco, Hnt, Hf, Ht, Hh, Hd.
  assert (Hl : isLocked pObj w1 = false) by (unfold isLocked; by apply bool_decide_eq_false).
  assert (Hn1 : objectMap w1 !! loc = None) by (by rewrite Hm).
  rewrite (run_NewObject_rest_exec E loc pObj w1 fi Hl Hs Hn1).
  unfold execCommand in Hex. fold c.
  assert (Hans : (if TestMode (cfg w1) then inr "0" else backend E (calls w1) c)
                 = (inr id : string + string)).
  { by destruct (TestMode (cfg w1)). }
  rewrite Hans. cbn [fst snd objectMap calls console ntr files].
  split; [done|]. split; [by rewrite Hm|]. split.
  { unfold deref. cbn [heap]. rewrite list_lookup_total_alt, lookup_app_r by done.
    unfold o. by rewrite Nat.sub_diag. }
  split; [by rewrite Hc|]. split; [by rewrite Hco|]. split; [done|]. split; [done|].
  intros p Hlt. rewrite <- (Hd p Hlt). unfold deref. cbn [heap].
  rewrite !list_lookup_total_alt, lookup_app_l; [done|].
  rewrite Hh, length_app. lia.
Qed.

(** X7. A path that is not tracked, under a parent found with its
    identifier set, that [os.Stat] finds and the backend accepts, is
    created: one command is issued, the one for a directory or for a file
    under the parent's identifier; the new entry holds the identifier the
    backend answered, the parent's identifier, the modification time of a
    file and zero for a directory, and the size; one line is printed,
    [mkdir] for a directory and [created] for a file; the object is
    returned with neither flag set. Entries and objects that existed are as
    they were. *)
Theorem NewObject_creates (E : Env) fuel loc w pObj fi id :
  loc ≠ binPath E → objectMap w !! loc = None →
  (loadObject E (filepath_Dir E loc) w).1 = Some pObj →
  let w1 := (loadObject E (filepath_Dir E loc) w).2 in
  GDId (deref w1 pObj) ≠ "" →
  os_Stat E loc = inr fi →
  let c := create_call E loc (fi_IsDir fi) (GDId (deref w1 pObj)) in
  (execCommand E c w1).1 = inr id →
  let r := run E (NewObject E (S fuel) loc) w in
  let o := length (heap w1) in
  r.1 = Some (mkResolved (Some o) false false None) ∧
  objectMap r.2 = <[loc := o]> (objectMap w) ∧
  deref r.2 o = mkObject id (GDId (deref w1 pObj))
                  (if fi_IsDir fi then 0 else fi_ModTimeUnix fi) (fi_Size fi) ∧
  calls r.2 = calls w ++ [c] ∧
  console r.2 = console w ++
    [(if fi_IsDir fi then "mkdir" else "created") +:+ ": " +:+
     strings_TrimPrefix loc (binPath E) +:+ " (" +:+
     getFileSizeFormatted E (fi_Size fi) +:+ ")"] ∧
  ntr r.2 = ntr w ∧ files r.2 = files w ∧
  (∀ p, (p < length (heap w))%nat → deref r.2 p = deref w p).
Proof. apply run_NewObject_creates. Qed.

Lemma NewObject_creates_witness :
  let r := run ex_env (NewObject ex_env 1 "/r/a/f") ex_w1 in
  r.1 = Some (mkResolved (Some 1%nat) false false None) ∧
  objectMap r.2 = <["/r/a/f" := 1%nat]> (objectMap ex_w1) ∧
  deref r.2 1%nat = mkObject "id:/r/a/f" "idA" 100 5 ∧
  calls r.2 = [mkCall (TagCreate "/r/a/f") "sh"
                 ["-c"; "cd /r/a && gdrive files upload f --parent idA --print-only-id"]] ∧
  console r.2 = ["created: /a/f (-)"].
Proof.
  destruct (NewObject_creates ex_env 0 "/r/a/f" ex_w1 0%nat (mkFileInfo false 100 5)
              "id:/r/a/f") as (H1 & H2 & H3 & H4 & H5 & _); done.
Defined.

(** ** The recursion on the parent directory *)

Lemma run_NewObject_rest_Some (E : Env) loc pObj w :
  ∃ r, (run E (NewObject_rest E loc pObj) w).1 = Some r ∧
       (res_err r = None → is_Some (res_obj r)).
Proof.
  destruct (isLocked pObj w) eqn:Hl.
  { rewrite run_NewObject_rest_locked by done. eexists. split; [done|]. intros _. by eexists. }
  destruct (os_Stat E loc) as [err | fi] eqn:Hs.
  { rewrite (run_NewObject_rest_stat_error E loc pObj w err) by done.
    eexists. split; [done|]. done. }
  destruct (objectMap w !! loc) as [o|] eqn:Ho.
  { rewrite (run_NewObject_rest_lost E loc pObj w fi) by done.
    eexists. split; [done|]. intros _. by eexists. }
  rewrite (run_NewObject_rest_exec E loc pObj w fi) by done.
  destruct (if TestMode (cfg w) then _ else _) as [err | id].
  - eexists. split; [done|]. done.
  - eexists. split; [done|]. intros _. by eexists.
Qed.

Lemma run_NewObject_obj (E : Env) fuel : ∀ loc w r,
  (run E (NewObject E fuel loc) w).1 = Some r → res_err r = None → is_Some (res_obj r).
Proof.
  induction fuel as [| fuel IH]; intros loc w r Hr He; [done|].
  destruct (decide (loc = binPath E)) as [-> | Hloc].
  { rewrite run_NewObject_root in Hr. injection Hr as <-. by eexists. }
  destruct (objectMap w !! loc) as [o|] eqn:Ho.
  { rewrite (run_NewObject_loaded E fuel loc o) in Hr by done. injection Hr as <-.
    by eexists. }
  rewrite run_NewObject_missing in Hr by done.
  destruct ((loadObject E (filepath_Dir E loc) w).1) as [pObj|].
  { destruct (run_NewObject_rest_Some E loc pObj (loadObject E (filepath_Dir E loc) w).2)
      as (r' & Hr' & Hobj). rewrite Hr' in Hr. injection Hr as <-. by apply Hobj. }
  destruct (run E (NewObject E fuel (filepath_Dir E loc)) w) as [r1 w1] eqn:Hrec.
  cbn [fst snd] in Hr. unfold after_parent in Hr.
  destruct r1 as [r1|]; [| done].
  destruct (res_err r1) eqn:He1; [cbn in Hr; by injection Hr as <-|].
  destruct (res_loaded r1 || res_locked r1) eqn:Hor.
  { cbn in Hr. injection Hr as <-. cbn. apply (IH (filepath_Dir E loc) w r1); [by rewrite Hrec | done]. }
  destruct (res_obj r1) as [pObj|]; [| done].
  destruct (run_NewObject_rest_Some E loc pObj w1) as (r' & Hr' & Hobj).
  rewrite Hr' in Hr. injection Hr as <-. by apply Hobj.
Qed.

(** X8. A call of [NewObject] that returns with some bound on the depth of
    its recursion returns the same, in the same state, with any larger
    bound; and it does return when one of the path's first [k] ancestors
    (the path itself counted) is the sync root or is tracked, with any
    bound above [k]. *)
Theorem NewObject_returns (E : Env) :
  (∀ fuel loc w r n,
     (run E (NewObject E fuel loc) w).1 = Some r →
     run E (NewObject E (fuel + n) loc) w = run E (NewObject E fuel loc) w) ∧
  (∀ k loc w fuel,
     (let a := Nat.iter k (filepath_Dir E) loc in
      a = binPath E ∨ is_Some (objectMap w !! a)) →
     (k < fuel)%nat →
     is_Some (run E (NewObject E fuel loc) w).1).
Proof.
  split.
  - intros fuel. induction fuel as [| fuel IH]; intros loc w r n Hr; [done|].
    change (S fuel + n)%nat with (S (fuel + n)).
    destruct (decide (loc = binPath E)) as [-> | Hloc].
    { by rewrite !run_NewObject_root. }
    destruct (objectMap w !! loc) as [o|] eqn:Ho.
    { by rewrite !(run_NewObject_loaded E _ loc o) by done. }
    rewrite run_NewObject_missing in Hr by done.
    rewrite !run_NewObject_missing by done.
    destruct ((loadObject E (filepath_Dir E loc) w).1) as [pObj|]; [done|].
    destruct (run E (NewObject E fuel (filepath_Dir E loc)) w) as [r1 w1] eqn:Hrec.
    destruct r1 as [r1|]; [| done].
    rewrite (IH (filepath_Dir E loc) w r1 n) by (by rewrite Hrec).
    by rewrite Hrec.
  - intros k. induction k as [| k IH]; intros loc w fuel Ha Hk;
      (destruct fuel as [| fuel]; [lia|]).
    + cbn in Ha. destruct (decide (loc = binPath E)) as [-> | Hloc].
      { rewrite run_NewObject_root. by eexists. }
      destruct Ha as [Ha | [o Ho]]; [done|].
      rewrite (run_NewObject_loaded E fuel loc o) by done. by eexists.
    + destruct (decide (loc = binPath E)) as [-> | Hloc].
      { rewrite run_NewObject_root. by eexists. }
      destruct (objectMap w !! loc) as [o|] eqn:Ho.
      { rewrite (run_NewObject_loaded E fuel loc o) by done. by eexists. }
      rewrite run_NewObject_missing by done.
      destruct ((loadObject E (filepath_Dir E loc) w).1) as [pObj|].
      { destruct (run_NewObject_rest_Some E loc pObj (loadObject E (filepath_Dir E loc) w).2)
          as (r' & -> & _). by eexists. }
      cbn zeta in Ha. rewrite Nat.iter_succ_r in Ha.
      destruct (IH (filepath_Dir E loc) w fuel Ha ltac:(lia)) as [r1 Hr1].
      destruct (run E (NewObject E fuel (filepath_Dir E loc)) w) as [r1' w1] eqn:Hrec.
      cbn [fst snd] in *. subst r1'. unfold after_parent.
      destruct (res_err r1) eqn:He1; [by eexists|].
      destruct (res_loaded r1 || res_locked r1); [by eexists|].
      destruct (run_NewObject_obj E fuel (filepath_Dir E loc) w r1) as [pObj Hobj];
        [by rewrite Hrec | done |].
      rewrite Hobj.
      destruct (run_NewObject_rest_Some E loc pObj w1) as (r' & -> & _). by eexists.
Qed.

(** X9. [NewObject] does not return for a path none of whose ancestors is
    the sync root or tracked: the recursion reaches a directory that is its
    own parent (as [/] and [.] are) and goes on calling itself for it.
    Nothing has been changed by then. *)
Theorem NewObject_outside_root (E : Env) k loc w :
  Forall (λ a, a ≠ binPath E ∧ objectMap w !! a = None)
         ((λ j, Nat.iter j (filepath_Dir E) loc) <$> seq 0 (S k)) →
  filepath_Dir E (Nat.iter k (filepath_Dir E) loc) = Nat.iter k (filepath_Dir E) loc →
  ∀ fuel, run E (NewObject E fuel loc) w = (None, w).
Proof.
  revert loc. induction k as [| k IH]; intros loc Hall Hfix fuel.
  - cbn in Hall, Hfix. apply Forall_singleton in Hall as [Hloc Hn].
    induction fuel as [| fuel IHf]; [done|].
    rewrite run_NewObject_missing by done. rewrite Hfix, loadObject_key by done.
    cbn [fst snd]. rewrite Hn, IHf. done.
  - destruct fuel as [| fuel]; [done|].
    change (seq 0 (S (S k))) with (0%nat :: seq 1 (S k)) in Hall.
    rewrite fmap_cons in Hall. apply Forall_cons in Hall as [[Hloc Hn] Hall].
    cbn in Hloc, Hn.
    assert (Hall' : Forall (λ a, a ≠ binPath E ∧ objectMap w !! a = None)
              ((λ j, Nat.iter j (filepath_Dir E) (filepath_Dir E loc)) <$> seq 0 (S k))).
    { rewrite <- fmap_S_seq, <- list_fmap_compose in Hall.
      rewrite Forall_fmap in Hall. rewrite Forall_fmap.
      eapply Forall_impl; [exact Hall|].
      intros j [H1 H2]. cbn in *. by rewrite <- Nat.iter_succ_r. }
    rewrite Nat.iter_succ_r in Hfix.
    pose proof (IH (filepath_Dir E loc) Hall' Hfix fuel) as Hrec.
    apply Forall_cons in Hall' as [[Hd Hdn] _]. cbn in Hd, Hdn.
    rewrite run_NewObject_missing by done. rewrite loadObject_key by done.
    cbn [fst snd]. by rewrite Hdn, Hrec.
Qed.

Lemma NewObject_outside_root_witness :
  posix_Dir "/" = "/" ∧
  run ex_env (NewObject ex_env 1000 "/x/y") ex_w0 = (None, ex_w0).
Proof.
  split; [done|].
  apply (NewObject_outside_root ex_env 2 "/x/y" ex_w0).
  - repeat constructor; done.
  - done.
Defined.

(** ** What resolve tasks leave as it is *)

Lemma kept_refl w : kept w w.
Proof. split; try done. exists []. by rewrite app_nil_r. Qed.

Lemma kept_trans w1 w2 w3 : kept w1 w2 → kept w2 w3 → kept w1 w3.
Proof.
  intros [M1 H1 I1 F1 (l1 & C1 & D1)] [M2 H2 I2 F2 (l2 & C2 & D2)]. split.
  - auto.
  - lia.
  - intros o Ho. destruct (I1 o Ho) as [<- <-]. apply I2. lia.
  - congruence.
  - exists (l1 ++ l2). split; [by rewrite C2, C1, app_assoc | by apply Forall_app].
Qed.

Lemma kept_grown w w' l cs :
  heap w' = heap w ++ l →
  (∀ k o, objectMap w !! k = Some o → objectMap w' !! k = Some o) →
  files w' = files w → calls w' = calls w ++ cs →
  Forall (λ c, ∀ k, call_tag c ≠ TagDelete k) cs →
  kept w w'.
Proof.
  intros Hh Hm Hf Hc Hcs. split; [done | | | done | by exists cs].
  - rewrite Hh, length_app. lia.
  - intros o Ho. by rewrite (deref_grown w w' o l Hh Ho).
Qed.

Lemma loadObject_kept (E : Env) key w : kept w (loadObject E key w).2.
Proof.
  destruct (loadObject_frame E key w) as (Hm & Hc & _ & _ & Hf & _ & [l Hh] & _).
  apply (kept_grown w _ l []); [done | by rewrite Hm | done | by rewrite app_nil_r | done].
Qed.

Lemma deref_updateStoredObject w o o' f :
  deref (updateStoredObject o f w) o'
  = if bool_decide (o = o' ∧ (o < length (heap w))%nat) then f (deref w o') else deref w o'.
Proof.
  unfold deref, updateStoredObject. cbn [heap set_heap].
  case_bool_decide as H.
  - destruct H as [<- Hl]. by rewrite list_lookup_total_alter_eq.
  - destruct (decide (o = o')) as [<- | Hne]; [| by rewrite list_lookup_total_alter_ne].
    rewrite !list_lookup_total_alt, list_lookup_alter.
    rewrite (lookup_ge_None_2 (heap w) o) by (apply Nat.nlt_ge; tauto).
    by case_decide.
Qed.

Lemma UpdateObjectIfModTimeChanged_kept (E : Env) wr object w :
  kept w (run E (UpdateObjectIfModTimeChanged E wr object) w).2 ∧
  (run E (UpdateObjectIfModTimeChanged E wr object) w).1.2 = None ∧
  objectMap (run E (UpdateObjectIfModTimeChanged E wr object) w).2 = objectMap w ∧
  ntr (run E (UpdateObjectIfModTimeChanged E wr object) w).2 = ntr w ∧
  length (heap (run E (UpdateObjectIfModTimeChanged E wr object) w).2) = length (heap w) ∧
  (∀ o, GDId (deref (run E (UpdateObjectIfModTimeChanged E wr object) w).2 o)
        = GDId (deref w o)).
Proof.
  destruct (decide (wr_isDir wr = false ∧ LastMod (deref w object) < wr_modTimeUnix wr ∧
                    wr_size wr ≠ Size (deref w object))) as [(Hd & Hm & Hs) | Hno].
  2:{ rewrite UpdateObjectIfModTimeChanged_skip by done. cbn.
      split; [apply kept_refl | done]. }
  rewrite (UpdateObjectIfModTimeChanged_attempt E wr object w Hd Hm Hs).
  set (c := mkCall _ _ _).
  assert (Hc : Forall (λ c, ∀ k, call_tag c ≠ TagDelete k) [c]) by (by constructor).
  destruct ((execCommand E c w).1) as [err | out]; cbn beta iota; cbn [fst snd].
  - split; [| by cbn].
    apply (kept_grown w _ [] [c]); [by rewrite app_nil_r | done | done | done | done].
  - set (f := λ o : Object, mkObject (GDId o) (GDPId o) (wr_modTimeUnix wr) (wr_size wr)).
    set (w2 := set_console _ _).
    assert (Hid : ∀ o, GDId (deref w2 o) = GDId (deref w o) ∧
                       GDPId (deref w2 o) = GDPId (deref w o)).
    { intros o.
      change (deref w2 o) with (deref (updateStoredObject object f w) o).
      rewrite deref_updateStoredObject. by case_bool_decide. }
    assert (Hlen : length (heap w2) = length (heap w)).
    { unfold w2, updateStoredObject. cbn [heap set_console set_heap set_calls].
      by rewrite length_alter. }
    split; [| split; [done | split; [done | split; [done | split]]]].
    + split.
      * done.
      * by rewrite Hlen.
      * intros o _. apply Hid.
      * done.
      * by exists [c].
    + done.
    + intros o. apply Hid.
Qed.

Lemma NewObject_rest_kept (E : Env) loc pObj w :
  kept w (run E (NewObject_rest E loc pObj) w).2 ∧
  ntr (run E (NewObject_rest E loc pObj) w).2 = ntr w.
Proof.
  destruct (isLocked pObj w) eqn:Hl.
  { rewrite run_NewObject_rest_locked by done. split; [apply kept_refl | done]. }
  destruct (os_Stat E loc) as [err | fi] eqn:Hs.
  { rewrite (run_NewObject_rest_stat_error E loc pObj w err) by done.
    split; [apply kept_refl | done]. }
  destruct (objectMap w !! loc) as [o|] eqn:Ho.
  { rewrite (run_NewObject_rest_lost E loc pObj w fi) by done. split; [| done].
    eapply (kept_grown w _ _ []); [done | done | done | by rewrite app_nil_r | done]. }
  rewrite (run_NewObject_rest_exec E loc pObj w fi) by done.
  set (c := create_call E loc (fi_IsDir fi) (GDId (deref w pObj))).
  assert (Hc : Forall (λ c, ∀ k, call_tag c ≠ TagDelete k) [c]) by (by constructor).
  destruct (if TestMode (cfg w) then _ else _) as [err | id]; cbn [fst snd]; (split; [| done]).
  - eapply (kept_grown w _ _ [c]); [done | done | done | done | done].
  - eapply (kept_grown w _ _ [c]); [done | | done | done | done].
    intros k o Hk. cbn. rewrite lookup_insert_ne; [done|]. intros <-. congruence.
Qed.

Lemma NewObject_kept (E : Env) fuel : ∀ loc w,
  kept w (run E (NewObject E fuel loc) w).2 ∧
  ntr (run E (NewObject E fuel loc) w).2 = ntr w.
Proof.
  induction fuel as [| fuel IH]; intros loc w; [split; [apply kept_refl | done]|].
  destruct (decide (loc = binPath E)) as [-> | Hloc].
  { rewrite run_NewObject_root. cbn [snd]. split; [apply loadObject_kept|].
    apply loadObject_frame. }
  destruct (objectMap w !! loc) as [o|] eqn:Ho.
  { rewrite (run_NewObject_loaded E fuel loc o) by done. split; [apply kept_refl | done]. }
  rewrite run_NewObject_missing by done.
  destruct ((loadObject E (filepath_Dir E loc) w).1) as [pObj|].
  { destruct (NewObject_rest_kept E loc pObj (loadObject E (filepath_Dir E loc) w).2)
      as [Hk Hn].
    split; [eapply kept_trans; [apply loadObject_kept | exact Hk]|].
    rewrite Hn. apply loadObject_frame. }
  destruct (IH (filepath_Dir E loc) w) as [Hk Hn].
  destruct (after_parent _) as [early | pObj]; cbn [snd]; [done|].
  destruct (NewObject_rest_kept E loc pObj (run E (NewObject E fuel (filepath_Dir E loc)) w).2)
    as [Hk' Hn'].
  split; [by eapply kept_trans | congruence].
Qed.

Lemma resolveTask_kept (E : Env) fuel wr w :
  kept w (run E (resolveTask E fuel wr) w).2.
Proof.
  unfold resolveTask, Sync. rewrite !run_bind.
  destruct (NewObject_kept E fuel (wr_loc wr) w) as [Hk _].
  destruct (run E (NewObject E fuel (wr_loc wr)) w) as [r w1]. cbn [fst snd] in *.
  destruct r as [r|]; [| done].
  assert (Hq : ∀ w2, kept w w2 → kept w (set_ntr (ntr w2 ++ [wr]) w2)).
  { intros w2 [M H I F C]. by split. }
  destruct (res_err r); [done|].
  destruct (res_locked r); [cbn; by apply Hq|].
  destruct (res_loaded r); cbn [negb]; [| done].
  destruct (res_obj r) as [object|]; [| done].
  rewrite run_bind.
  destruct (UpdateObjectIfModTimeChanged_kept E wr object w1) as (Hu & He & _).
  destruct (run E (UpdateObjectIfModTimeChanged E wr object) w1) as [[u e] w2].
  cbn [fst snd] in *. subst e. cbn. by eapply kept_trans.
Qed.

Lemma run_poolWorker_kept (E : Env) jobs w :
  kept w (run E (poolWorker E jobs) w).2.
Proof.
  revert w. induction jobs as [| job jobs IH]; intros w; [apply kept_refl|].
  cbn [poolWorker]. rewrite run_bind.
  pose proof (resolveTask_kept E job.1 job.2 w) as Hk.
  destruct (run E (resolveTask E job.1 job.2) w) as [r w1]. cbn [fst snd] in *.
  destruct r; [| done]. eapply kept_trans; [exact Hk | apply IH].
Qed.

(** X10. Resolve tasks run one after the other never remove an entry that
    is there or point it at another object, never change the identifier or
    the parent's identifier of an object that is there, never write to the
    disk, and issue no delete command. *)
Theorem poolWorker_keeps (E : Env) jobs w :
  let w' := (run E (poolWorker E jobs) w).2 in
  (∀ k o, objectMap w !! k = Some o → objectMap w' !! k = Some o) ∧
  (∀ o, (o < length (heap w))%nat →
        (o < length (heap w'))%nat ∧
        GDId (deref w' o) = GDId (deref w o) ∧ GDPId (deref w' o) = GDPId (deref w o)) ∧
  files w' = files w ∧
  ∃ l, calls w' = calls w ++ l ∧ Forall (λ c, ∀ k, call_tag c ≠ TagDelete k) l.
Proof.
  intros w'. destruct (run_poolWorker_kept E jobs w) as [M H I F C]. fold w' in M, H, I, F, C.
  split; [done|]. split; [| done].
  intros o Ho. split; [lia | by apply I].
Qed.

(** X11. An entry whose identifier is empty, as a creation that the backend
    answered with nothing leaves it, is never repaired by resolve tasks run
    one after the other: it stays as it is, every resolve of its path
    reports it locked and is put on the pending list again, and every
    resolve of a path directly below it reports locked as well. *)
Theorem empty_identifier_stays_locked (E : Env) loc (o : ptr) w jobs :
  loc ≠ binPath E → objectMap w !! loc = Some o → (o < length (heap w))%nat →
  GDId (deref w o) = "" →
  let w' := (run E (poolWorker E jobs) w).2 in
  objectMap w' !! loc = Some o ∧ GDId (deref w' o) = "" ∧
  (∀ fuel, run E (NewObject E (S fuel) loc) w'
           = (Some (mkResolved (Some o) true true None), w')) ∧
  (∀ fuel wr, wr_loc wr = loc →
     run E (resolveTask E (S fuel) wr) w' = (Some None, set_ntr (ntr w' ++ [wr]) w')) ∧
  (∀ fuel child, child ≠ binPath E → filepath_Dir E child = loc →
     objectMap w' !! child = None →
     run E (NewObject E (S fuel) child) w'
     = (Some (mkResolved (Some o) false true None), w')).
Proof.
  intros Hloc Ho Hlive Hg w'.
  destruct (run_poolWorker_kept E jobs w) as [M _ I _ _]. fold w' in M, I.
  assert (Ho' : objectMap w' !! loc = Some o) by (by apply M).
  assert (Hg' : GDId (deref w' o) = "") by (by rewrite (proj1 (I o Hlive))).
  clearbody w'. clear M I.
  assert (Hl : isLocked o w' = true) by (unfold isLocked; by apply bool_decide_eq_true).
  assert (Hrun : ∀ fuel, run E (NewObject E (S fuel) loc) w'
                         = (Some (mkResolved (Some o) true true None), w')).
  { intros fuel. rewrite (run_NewObject_loaded E fuel loc o) by done. by rewrite Hl. }
  split; [done|]. split; [done|]. split; [done|]. split.
  - intros fuel wr <-.
    rewrite (resolveTask_requeues E (S fuel) wr w' (mkResolved (Some o) true true None));
      [by rewrite Hrun | by rewrite Hrun | done | done].
  - intros fuel child Hc Hd Hn.
    rewrite run_NewObject_missing by done. rewrite Hd, loadObject_key by done.
    cbn [fst snd]. rewrite Ho'. by apply run_NewObject_rest_locked.
Qed.

Lemma empty_identifier_stays_locked_witness :
  let w' := (run ex_env (poolWorker ex_env [(3%nat, ex_wr_f); (3%nat, ex_wr_a)]) ex_w_stuck).2 in
  objectMap w' !! "/r/a" = Some 0%nat ∧ GDId (deref w' 0%nat) = "" ∧
  ntr w' = [ex_wr_f; ex_wr_a] ∧ calls w' = [].
Proof.
  destruct (empty_identifier_stays_locked ex_env "/r/a" 0%nat ex_w_stuck
              [(3%nat, ex_wr_f); (3%nat, ex_wr_a)]) as (H1 & H2 & _);
    [done | by vm_compute | simpl; lia | done |].
  split; [exact H1|]. split; [exact H2|]. split; by vm_compute.
Defined.

(** ** One pass of one worker *)

Section pass.
Context (E : Env).
Hypothesis backend_up :
  ∀ h c k, call_tag c = TagCreate k → ∃ id, backend E h c = inr id ∧ id ≠ "".

Lemma execCommand_up c k w :
  call_tag c = TagCreate k → ∃ id, (execCommand E c w).1 = inr id ∧ id ≠ "".
Proof.
  intros Hk. unfold execCommand. destruct (TestMode (cfg w)); [by exists "0"|].
  by eapply backend_up.
Qed.

Lemma creations_app loc l1 l2 : creations loc (l1 ++ l2) = (creations loc l1 + creations loc l2)%nat.
Proof. unfold creations. by rewrite calls_tagged_app, length_app. Qed.

Lemma store_resolved_loadObject key w :
  store_resolved w → store_resolved (loadObject E key w).2.
Proof.
  intros Hr k o Hk.
  destruct (loadObject_frame E key w) as (Hm & _ & _ & _ & _ & _ & [l Hh] & Hd).
  rewrite Hm in Hk. destruct (Hr k o Hk) as [Hl Hg].
  split; [rewrite Hh, length_app; lia | by rewrite Hd].
Qed.

Lemma UpdateObjectIfModTimeChanged_pass wr object w :
  store_resolved w →
  let r := run E (UpdateObjectIfModTimeChanged E wr object) w in
  r.1.2 = None ∧ store_resolved r.2 ∧ ntr r.2 = ntr w ∧ objectMap r.2 = objectMap w ∧
  ∀ loc, creations loc (calls r.2) = creations loc (calls w).
Proof.
  intros Hr r. subst r.
  destruct (UpdateObjectIfModTimeChanged_kept E wr object w) as (_ & He & Hm & Hn & Hl & Hg).
  split; [done|]. split.
  { intros k o Hk. rewrite Hm in Hk. destruct (Hr k o Hk) as [Hlive Hid].
    by rewrite Hl, Hg. }
  split; [done|]. split; [done|]. intros loc.
  destruct (decide (wr_isDir wr = false ∧ LastMod (deref w object) < wr_modTimeUnix wr ∧
                    wr_size wr ≠ Size (deref w object))) as [(Hd & Hmt & Hs) | Hno].
  2:{ by rewrite UpdateObjectIfModTimeChanged_skip by done. }
  rewrite (UpdateObjectIfModTimeChanged_attempt E wr object w Hd Hmt Hs).
  destruct ((execCommand E _ w).1); cbn [snd calls set_console updateStoredObject set_heap set_calls];
    by rewrite creations_app, Nat.add_0_r.
Qed.

Lemma run_resolveTask_loaded fuel wr w w1 object :
  run E (NewObject E fuel (wr_loc wr)) w
    = (Some (mkResolved (Some object) true false None), w1) →
  run E (resolveTask E fuel wr) w
    = (Some None, (run E (UpdateObjectIfModTimeChanged E wr object) w1).2).
Proof.
  intros Hrun. unfold resolveTask, Sync. rewrite !run_bind, Hrun.
  cbn [fst snd res_err res_locked res_loaded res_obj negb]. rewrite run_bind.
  destruct (UpdateObjectIfModTimeChanged_kept E wr object w1) as (_ & He & _).
  destruct (run E (UpdateObjectIfModTimeChanged E wr object) w1) as [[u e] w2].
  cbn [fst snd] in *. by subst e.
Qed.

Lemma run_resolveTask_created fuel wr w w1 o :
  run E (NewObject E fuel (wr_loc wr)) w
    = (Some (mkResolved (Some o) false false None), w1) →
  run E (resolveTask E fuel wr) w = (Some None, w1).
Proof. intros Hrun. unfold resolveTask, Sync. by rewrite !run_bind, Hrun. Qed.

(** One task of the pass. *)
Lemma resolveTask_pass fuel wr w :
  store_resolved w →
  (wr_loc wr ≠ binPath E → ∃ fi, os_Stat E (wr_loc wr) = inr fi) →
  wr_loc wr = binPath E ∨ filepath_Dir E (wr_loc wr) = binPath E ∨
    is_Some (objectMap w !! filepath_Dir E (wr_loc wr)) →
  let r := run E (resolveTask E (S fuel) wr) w in
  r.1 = Some None ∧ ntr r.2 = ntr w ∧ store_resolved r.2 ∧
  (∀ k o, objectMap w !! k = Some o → objectMap r.2 !! k = Some o) ∧
  (∀ k, k ≠ wr_loc wr → objectMap r.2 !! k = objectMap w !! k) ∧
  (wr_loc wr ≠ binPath E → is_Some (objectMap r.2 !! wr_loc wr)) ∧
  (∀ loc, creations loc (calls r.2)
          = (creations loc (calls w) +
             (if bool_decide (loc = wr_loc wr ∧ loc ≠ binPath E ∧ objectMap w !! loc = None)
              then 1 else 0))%nat).
Proof.
  intros Hr Hstat Hparent r. subst r.
  assert (Hloaded : ∀ w1 object,
            store_resolved w1 → ntr w1 = ntr w → objectMap w1 = objectMap w →
            (∀ loc, creations loc (calls w1) = creations loc (calls w)) →
            (wr_loc wr = binPath E ∨ is_Some (objectMap w !! wr_loc wr)) →
            run E (NewObject E (S fuel) (wr_loc wr)) w
              = (Some (mkResolved (Some object) true false None), w1) →
            let r := run E (resolveTask E (S fuel) wr) w in
            r.1 = Some None ∧ ntr r.2 = ntr w ∧ store_resolved r.2 ∧
            (∀ k o, objectMap w !! k = Some o → objectMap r.2 !! k = Some o) ∧
  (∀ k, k ≠ wr_loc wr → objectMap r.2 !! k = objectMap w !! k) ∧
            (wr_loc wr ≠ binPath E → is_Some (objectMap r.2 !! wr_loc wr)) ∧
            (∀ loc, creations loc (calls r.2)
               = (creations loc (calls w) +
                  (if bool_decide (loc = wr_loc wr ∧ loc ≠ binPath E ∧
                                   objectMap w !! loc = None) then 1 else 0))%nat)).
  { intros w1 object Hr1 Hn1 Hm1 Hc1 Htr Hrun r. subst r.
    rewrite (run_resolveTask_loaded (S fuel) wr w w1 object Hrun). cbn [fst snd].
    destruct (UpdateObjectIfModTimeChanged_pass wr object w1 Hr1) as (He & Hr2 & Hn2 & Hm2 & Hc2).
    split; [done|]. split; [congruence|]. split; [done|].
    split; [intros k o Hk; by rewrite Hm2, Hm1|].
    split; [intros k _; by rewrite Hm2, Hm1|].
    split.
    { intros Hne. rewrite Hm2, Hm1. by destruct Htr. }
    intros loc. rewrite Hc2, Hc1. rewrite bool_decide_eq_false_2; [lia|].
    intros (-> & Hne & Hnone). destruct Htr as [? | [? Hsome]]; congruence. }
  destruct (decide (wr_loc wr = binPath E)) as [Hroot | Hroot].
  { destruct (loadObject_frame E (binPath E) w) as (Hm & Hc & _ & Hn & _ & _ & _ & _).
    apply (Hloaded (loadObject E (binPath E) w).2 (length (heap w))).
    - by apply store_resolved_loadObject.
    - done.
    - done.
    - intros loc. by rewrite Hc.
    - by left.
    - rewrite Hroot. apply run_NewObject_root. }
  destruct (objectMap w !! wr_loc wr) as [o|] eqn:Ho.
  { destruct (Hr _ _ Ho) as [Hlive Hg].
    apply (Hloaded w o); try done.
    - right. by eexists.
    - rewrite (run_NewObject_loaded E fuel (wr_loc wr) o) by done.
      unfold isLocked. by rewrite bool_decide_eq_false_2. }
  clear Hloaded. destruct (Hstat Hroot) as [fi Hs].
  destruct (loadObject_frame E (filepath_Dir E (wr_loc wr)) w)
    as (Hm & Hc & _ & Hn & _ & _ & [l Hh] & Hd).
  assert (Hp : ∃ pObj, (loadObject E (filepath_Dir E (wr_loc wr)) w).1 = Some pObj ∧
                       GDId (deref (loadObject E (filepath_Dir E (wr_loc wr)) w).2 pObj) ≠ "").
  { destruct (decide (filepath_Dir E (wr_loc wr) = binPath E)) as [Hdr | Hdr].
    - rewrite Hdr, loadObject_root. cbn [fst snd].
      exists (length (heap w)). split; [done|].
      unfold deref. cbn [heap]. rewrite list_lookup_total_alt, lookup_app_r by lia.
      rewrite Nat.sub_diag. cbn. by case_decide.
    - destruct Hparent as [? | [? | [p Hpk]]]; [done | done |].
      exists p. rewrite loadObject_key by done. split; [done|]. apply (Hr _ _ Hpk). }
  destruct Hp as (pObj & Hp & Hg).
  destruct (execCommand_up (create_call E (wr_loc wr) (fi_IsDir fi)
              (GDId (deref (loadObject E (filepath_Dir E (wr_loc wr)) w).2 pObj)))
              (wr_loc wr) (loadObject E (filepath_Dir E (wr_loc wr)) w).2 eq_refl)
    as (id & Hid & Hne).
  destruct (run_NewObject_creates E fuel (wr_loc wr) w pObj fi id Hroot Ho Hp Hg Hs Hid)
    as (H1 & H2 & H3 & H4 & _ & H6 & _ & H8).
  cbn zeta in H1, H2, H3, H4, H6, H8.
  set (w0 := (loadObject E (filepath_Dir E (wr_loc wr)) w).2) in *.
  set (o1 := length (heap w0)) in *.
  rewrite (run_resolveTask_created (S fuel) wr w
             (run E (NewObject E (S fuel) (wr_loc wr)) w).2 o1).
  2:{ apply injective_projections; [exact H1 | done]. }
  cbn [fst snd].
  set (w1 := (run E (NewObject E (S fuel) (wr_loc wr)) w).2) in *. clearbody w1.
  assert (Hlen : (o1 < length (heap w1))%nat).
  { destruct (decide (o1 < length (heap w1))%nat) as [|Hge]; [done|]. exfalso.
    assert (Hdef : deref w1 o1 = inhabitant).
    { unfold deref. rewrite list_lookup_total_alt, lookup_ge_None_2; [done | lia]. }
    rewrite Hdef in H3. injection H3 as <- _. done. }
  assert (Hold : (length (heap w) ≤ o1)%nat).
  { unfold o1. rewrite Hh, length_app. lia. }
  split; [done|]. split; [done|]. split.
  { intros k o Hk. rewrite H2 in Hk.
    destruct (decide (k = wr_loc wr)) as [-> | Hkne].
    - rewrite lookup_insert_eq in Hk. injection Hk as <-. split; [done|]. by rewrite H3.
    - rewrite lookup_insert_ne in Hk by done. destruct (Hr k o Hk) as [Hlive Hgo].
      split; [lia | by rewrite H8]. }
  split.
  { intros k o Hk. rewrite H2, lookup_insert_ne; [done|]. intros <-. congruence. }
  split; [intros k Hk; by rewrite H2, lookup_insert_ne|].
  split; [intros _; rewrite H2, lookup_insert_eq; by eexists|].
  intros loc. rewrite H4, creations_app. f_equal.
  unfold creations, calls_tagged.
  case_bool_decide as Hb.
  - destruct Hb as (-> & _). by rewrite filter_cons_True.
  - rewrite filter_cons_False; [done|]. cbn. intros [= <-]. by apply Hb.
Qed.
Lemma poolWorker_pass fuel tr : ∀ w known,
  store_resolved w →
  (∀ k, k ∈ known → k = binPath E ∨ is_Some (objectMap w !! k)) →
  (∀ wr, wr ∈ tr → wr_loc wr ≠ binPath E → ∃ fi, os_Stat E (wr_loc wr) = inr fi) →
  parents_first E known tr = true →
  let r := run E (poolWorker E ((λ wr, (S fuel, wr)) <$> tr)) w in
  r.1 = Some tt ∧ ntr r.2 = ntr w ∧ store_resolved r.2 ∧
  (∀ k o, objectMap w !! k = Some o → objectMap r.2 !! k = Some o) ∧
  (∀ wr, wr ∈ tr → wr_loc wr ≠ binPath E → is_Some (objectMap r.2 !! wr_loc wr)) ∧
  (∀ loc, creations loc (calls r.2)
          = (creations loc (calls w) +
             (if bool_decide (loc ∈ wr_loc <$> tr ∧ loc ≠ binPath E ∧ objectMap w !! loc = None)
              then 1 else 0))%nat) ∧
  (∀ pre wr post, tr = pre ++ wr :: post →
     (run E (resolveTask E (S fuel) wr)
            (run E (poolWorker E ((λ wr, (S fuel, wr)) <$> pre)) w).2).1 = Some None).
Proof.
  induction tr as [| wr tr IH]; intros w known Hr Hknown Hstat Hpf r; subst r.
  { cbn [fmap list_fmap poolWorker]. rewrite run_ret. cbn [fst snd].
    do 4 (split; [done|]).
    split; [intros wr Hin; by apply elem_of_nil in Hin|].
    split; [| intros [| ? ?] ? ? ?; done].
    intros loc.
    rewrite bool_decide_eq_false_2; [lia|]. intros [Hin _]. by apply elem_of_nil in Hin. }
  cbn [parents_first] in Hpf. apply andb_true_iff in Hpf as [Hpar Hpf].
  assert (Hparent : wr_loc wr = binPath E ∨ filepath_Dir E (wr_loc wr) = binPath E ∨
                    is_Some (objectMap w !! filepath_Dir E (wr_loc wr))).
  { apply orb_true_iff in Hpar as [Hpar | Hpar].
    - apply orb_true_iff in Hpar as [Hpar | Hpar].
      + left. by apply bool_decide_eq_true in Hpar.
      + right. left. by apply bool_decide_eq_true in Hpar.
    - apply bool_decide_eq_true in Hpar. destruct (Hknown _ Hpar); auto. }
  destruct (resolveTask_pass fuel wr w Hr (Hstat wr ltac:(by left)) Hparent)
    as (H1 & H2 & H3 & H4 & H5 & H6 & H7).
  rewrite fmap_cons. cbn [poolWorker fst snd]. rewrite run_bind.
  destruct (run E (resolveTask E (S fuel) wr) w) as [r1 w1] eqn:Hrun1.
  cbn [fst snd] in *. subst r1.
  destruct (IH w1 ({[wr_loc wr]} ∪ known) H3) as (I1 & I2 & I3 & I4 & I5 & I6 & I7).
  { intros k [Hk%elem_of_singleton | Hk]%elem_of_union.
    - subst k. destruct (decide (wr_loc wr = binPath E)); [by left | right; auto].
    - destruct (Hknown k Hk) as [? | [o Ho]]; [by left|]. right. exists o. by apply H4. }
  { intros wr' Hin. apply Hstat. by right. }
  { done. }
  split; [done|]. split; [congruence|]. split; [done|].
  split; [intros k o Hk; by apply I4, H4|].
  split.
  { intros wr' [-> | Hin]%elem_of_cons Hne; [| by apply I5].
    destruct (H6 Hne) as [o Ho]. exists o. by apply I4. }
  split; cycle 1.
  { intros [| wr0 pre] wr' post Heq; cbn in Heq; injection Heq as -> ->.
    - cbn [fmap list_fmap poolWorker]. rewrite run_ret. cbn [snd]. by rewrite Hrun1.
    - rewrite fmap_cons. cbn [poolWorker fst snd]. rewrite run_bind, Hrun1. cbn [fst snd].
      by apply (I7 pre wr' post). }
  intros loc. rewrite I6, H7, <- Nat.add_assoc. f_equal.
  rewrite fmap_cons.
  destruct (decide (loc = wr_loc wr)) as [-> | Hne].
  - destruct (decide (wr_loc wr ≠ binPath E ∧ objectMap w !! wr_loc wr = None))
      as [[Hr1 Hn1] | Hno].
    + rewrite (bool_decide_eq_true_2 (_ = _ ∧ _ ∧ objectMap w !! _ = None)) by done.
      rewrite (bool_decide_eq_true_2 (_ ∈ _ :: _ ∧ _ ∧ objectMap w !! _ = None));
        [| split; [by left | done]].
      rewrite bool_decide_eq_false_2; [done|].
      intros (_ & _ & Hn2). destruct (H6 Hr1) as [o Ho]. congruence.
    + rewrite (bool_decide_eq_false_2 (_ = _ ∧ _ ∧ objectMap w !! _ = None)) by tauto.
      rewrite (bool_decide_eq_false_2 (_ ∈ _ :: _ ∧ _ ∧ objectMap w !! _ = None)) by tauto.
      rewrite bool_decide_eq_false_2; [done|].
      intros (_ & Hr1 & Hn2). apply Hno. split; [done|].
      destruct (objectMap w !! wr_loc wr) as [o|] eqn:Ho; [| done].
      apply H4 in Ho. congruence.
  - rewrite (bool_decide_eq_false_2 (_ = _ ∧ _)) by tauto. cbn [Nat.add].
    rewrite (bool_decide_ext (loc ∈ wr_loc <$> tr ∧ loc ≠ binPath E ∧ objectMap w1 !! loc = None)
               (loc ∈ wr_loc wr :: (wr_loc <$> tr) ∧ loc ≠ binPath E ∧ objectMap w !! loc = None));
      [done|].
    rewrite (H5 loc Hne), elem_of_cons. tauto.
Qed.
End pass.

(** X12. With one worker, one pass over a walk that lists every directory
    before what it holds resolves everything, provided every entry there is
    has its identifier set, [os.Stat] finds every path of the walk, and the
    backend answers every creation command with an identifier that is not
    empty: every task, run in the state that the tasks before it leave,
    returns without error; nothing is put on the pending list; every path
    of the walk other than the sync root has an entry; every entry has its
    identifier set; an entry that was there keeps its object, and an object
    that was there keeps its identifier and its parent's (the modification
    time and the size of a tracked file may be updated); and the creation
    command has been issued once more for each path of the walk that had no
    entry, and for no other. *)
Theorem single_worker_pass (E : Env) fuel tr w :
  (∀ h c k, call_tag c = TagCreate k → ∃ id, backend E h c = inr id ∧ id ≠ "") →
  store_resolved w →
  (∀ wr, wr ∈ tr → wr_loc wr ≠ binPath E → ∃ fi, os_Stat E (wr_loc wr) = inr fi) →
  parents_first E (dom (objectMap w)) tr = true →
  let r := run E (poolWorker E ((λ wr, (S fuel, wr)) <$> tr)) w in
  r.1 = Some tt ∧
  (∀ pre wr post, tr = pre ++ wr :: post →
     (run E (resolveTask E (S fuel) wr)
            (run E (poolWorker E ((λ wr, (S fuel, wr)) <$> pre)) w).2).1 = Some None) ∧
  ntr r.2 = ntr w ∧ store_resolved r.2 ∧
  (∀ k o, objectMap w !! k = Some o → objectMap r.2 !! k = Some o) ∧
  (∀ o, (o < length (heap w))%nat →
        GDId (deref r.2 o) = GDId (deref w o) ∧ GDPId (deref r.2 o) = GDPId (deref w o)) ∧
  (∀ wr, wr ∈ tr → wr_loc wr ≠ binPath E → is_Some (objectMap r.2 !! wr_loc wr)) ∧
  (∀ loc, creations loc (calls r.2)
          = (creations loc (calls w) +
             (if bool_decide (loc ∈ wr_loc <$> tr ∧ loc ≠ binPath E ∧ objectMap w !! loc = None)
              then 1 else 0))%nat).
Proof.
  intros Hup Hr Hstat Hpf r.
  destruct (poolWorker_pass E Hup fuel tr w (dom (objectMap w)) Hr)
    as (H1 & H2 & H3 & H4 & H5 & H6 & H7); [| done | done |].
  { intros k Hk. right. by apply elem_of_dom. }
  destruct (run_poolWorker_kept E ((λ wr, (S fuel, wr)) <$> tr) w) as [_ _ Hids _ _].
  done.
Qed.

Lemma single_worker_pass_witness :
  let r := run ex_env (poolWorker ex_env ((λ wr, (2%nat, wr)) <$> ex_walk)) ex_w0 in
  r.1 = Some tt ∧ ntr r.2 = [] ∧
  is_Some (objectMap r.2 !! "/r/a") ∧ is_Some (objectMap r.2 !! "/r/a/f") ∧
  creations "/r/a/f" (calls r.2) = 1%nat ∧
  (run ex_env (resolveTask ex_env 2 ex_wr_f)
       (run ex_env (poolWorker ex_env ((λ wr, (2%nat, wr)) <$>
                                         [mkWalkResp "/r" 10 true 4096; ex_wr_a])) ex_w0).2).1
    = Some None.
Proof.
  destruct (single_worker_pass ex_env 1 ex_walk ex_w0)
    as (H1 & H0 & H2 & _ & _ & _ & H5 & H6).
  - intros h c k Hk. cbn. unfold ex_backend. rewrite Hk. eexists. split; [done|]. done.
  - intros k o Hk. cbn in Hk. by rewrite lookup_empty in Hk.
  - intros wr Hin Hne. unfold ex_walk in Hin.
    repeat (apply elem_of_cons in Hin as [-> | Hin]); [done | by eexists | by eexists |].
    by apply elem_of_nil in Hin.
  - by vm_compute.
  - split; [exact H1|]. split; [exact H2|].
    split; [apply (H5 ex_wr_a); [by right; left | done]|].
    split; [apply (H5 ex_wr_f); [by right; right; left | done]|].
    split; [rewrite (H6 "/r/a/f"); by vm_compute|].
    exact (H0 [mkWalkResp "/r" 10 true 4096; ex_wr_a] ex_wr_f [] eq_refl).
Defined.

(** ** Test mode *)

Lemma sem_with_backend (E : Env) b {X} (e : event X) w :
  TestMode (cfg w) = true → sem (with_backend b E) e w = sem E e w.
Proof.
  intros Ht. destruct e; try done.
  cbn [sem]. unfold execCommand. by rewrite Ht.
Qed.

Lemma run_with_backend (E : Env) b {R} (p : prog R) : ∀ w,
  TestMode (cfg w) = true → run (with_backend b E) p w = run E p w.
Proof.
  induction p as [r | X e k IH]; intros w Ht; [done|].
  cbn [run]. rewrite sem_with_backend by done.
  pose proof (sem_TestMode E e w) as Hs.
  destruct (sem E e w) as [x w']. apply IH. cbn in Hs. congruence.
Qed.

Lemma turn_with_backend (E : Env) b {R} i (s : list (thread R) * World) :
  TestMode (cfg s.2) = true → turn (with_backend b E) i s = turn E i s.
Proof.
  intros Ht. unfold turn. destruct (s.1 !! i) as [[[r | X e k] | p] |]; try done.
  cbn [thread_step]. by rewrite sem_with_backend.
Qed.

Lemma turn_TestMode (E : Env) {R} i (s : list (thread R) * World) :
  TestMode (cfg (turn E i s).2) = TestMode (cfg s.2).
Proof.
  unfold turn. destruct (s.1 !! i) as [[[r | X e k] | p] |]; try done.
  cbn [thread_step]. pose proof (sem_TestMode E e s.2) as Hs.
  by destruct (sem E e s.2).
Qed.

(** X13. In test mode no command reaches the backend: every command is
    answered with the identifier [0], and what a program does, run alone or
    by the workers of a pool, is the same whatever the backend would
    answer. *)
Theorem TestMode_ignores_backend (E : Env) b w :
  TestMode (cfg w) = true →
  (∀ c, (execCommand E c w).1 = inr "0") ∧
  (∀ R (p : prog R), run (with_backend b E) p w = run E p w) ∧
  (∀ R sched (ts : list (thread R)),
     schedule (with_backend b E) sched (ts, w) = schedule E sched (ts, w)).
Proof.
  intros Ht. split; [| split].
  - intros c. unfold execCommand. by rewrite Ht.
  - intros R p. by apply run_with_backend.
  - intros R sched. unfold schedule.
    assert (∀ s : list (thread R) * World, TestMode (cfg s.2) = true →
              foldl (λ s i, turn (with_backend b E) i s) s sched
              = foldl (λ s i, turn E i s) s sched) as Hs.
    { induction sched as [| i sched IH]; intros s Hs; [done|].
      cbn [foldl]. rewrite turn_with_backend by done. apply IH.
      by rewrite turn_TestMode. }
    intros ts. by apply Hs.
Qed.

Lemma TestMode_ignores_backend_witness :
  TestMode (cfg ex_w_test) = true ∧
  run ex_env_down (NewObject ex_env 2 "/r/a") ex_w_test
  = run ex_env (NewObject ex_env 2 "/r/a") ex_w_test ∧
  deref (run ex_env (NewObject ex_env 2 "/r/a") ex_w_test).2 1%nat = mkObject "0" "." 0 4096.
Proof.
  split; [done|]. split; [| by vm_compute].
  destruct (TestMode_ignores_backend ex_env (λ _ _, inl "backend down") ex_w_test eq_refl)
    as (_ & H & _).
  exact (H _ (NewObject ex_env 2 "/r/a")).
Defined.

(** ** The copy through JSON, taken twice *)






(** Two tracked paths that differ in a byte that is not UTF-8 come out of
    the copy as one. *)
Example CopyObjects_merges :
  size (objectMap ex_w_twins) = 2%nat ∧ size (CopyObjects ex_w_twins) = 1%nat.
Proof. by vm_compute. Qed.

(** ** Resolved entries in a pass of the pool *)

Section pool_keeps.
Context (E : Env).

Lemma allowed_keeps_resolved {X} me (e : event X) w ret k (o : ptr) :
  allowed me e w ret → dead_ok w ret →
  objectMap w !! k = Some o → GDId (deref w o) ≠ "" →
  objectMap (sem E e w).2 !! k = Some o ∧ GDId (deref (sem E e w).2 o) = GDId (deref w o).
Proof.
  intros Hal Hd Hk Hg.
  destruct (step_rely E me Idle e w ret Hal) as [_ R M _ _ _]; [done|].
  pose proof (step_dead_ok E me e w ret Hal Hd) as Hd'.
  split; [| by apply R].
  destruct (M k o Hk) as [? | Hin]; [done|].
  destruct (Hd' o Hin) as [_ H0]. rewrite R in H0 by done. done.
Qed.

Lemma turn_keeps_resolved {R} (ts : list (thread R)) owns ret w i k (o : ptr) :
  conc_inv E ts owns ret w →
  objectMap w !! k = Some o → GDId (deref w o) ≠ "" →
  objectMap (turn E i (ts, w)).2 !! k = Some o ∧
  GDId (deref (turn E i (ts, w)).2 o) = GDId (deref w o).
Proof.
  intros [Hwp Hd _ _] Hk Hg.
  pose proof Hwp as [Hlen Hall]%Forall2_same_length_lookup.
  unfold turn. cbn [fst snd].
  destruct (ts !! i) as [t|] eqn:Ht; [| done].
  destruct (lookup_lt_is_Some_2 owns i) as [me Hme].
  { rewrite <- Hlen. by eapply lookup_lt_Some. }
  pose proof (Hall i t me Ht Hme) as Hi.
  destruct t as [[r | X e k0] | p]; cbn [thread_step]; [done | | done].
  cbn [thread_prog wp] in Hi.
  destruct (Hi w ret (rely_refl me w ret) Hd) as (_ & Hal & _).
  pose proof (allowed_keeps_resolved me e w ret k o Hal Hd Hk Hg) as Hkeep.
  by destruct (sem E e w).
Qed.

Lemma schedule_keeps_resolved {R} sched : ∀ (ts : list (thread R)) owns ret w k (o : ptr),
  conc_inv E ts owns ret w →
  objectMap w !! k = Some o → GDId (deref w o) ≠ "" →
  objectMap (schedule E sched (ts, w)).2 !! k = Some o ∧
  GDId (deref (schedule E sched (ts, w)).2 o) = GDId (deref w o).
Proof.
  induction sched as [| i sched IH]; intros ts owns ret w k o Hinv Hk Hg; [done|].
  unfold schedule. cbn [foldl].
  destruct (turn_keeps_resolved ts owns ret w i k o Hinv Hk Hg) as [Hk1 Hg1].
  destruct (turn_conc_inv E ts owns ret w i Hinv) as [_ (owns' & ret' & Hinv')].
  destruct (turn E i (ts, w)) as [ts' w']. cbn [fst snd] in *.
  destruct (IH ts' owns' ret' w' k o Hinv' Hk1) as [Hk2 Hg2]; [by rewrite Hg1|].
  split; [done | by rewrite <- Hg1].
Qed.
End pool_keeps.

(** X17. In a resolve pass of the pool, whatever tasks the workers take and
    however their steps and the backend's answers interleave, an entry
    whose identifier is set stays: it is neither removed nor pointed at
    another object, and its identifier is never changed. *)
Theorem resolve_pass_keeps_resolved (E : Env) (jobs : list (list (nat * WalkResp)))
    (w0 : World) (sched : list nat) k (o : ptr) :
  objectMap w0 !! k = Some o → GDId (deref w0 o) ≠ "" →
  let s := schedule E sched ((λ js, Running (poolWorker E js)) <$> jobs, w0) in
  objectMap s.2 !! k = Some o ∧ GDId (deref s.2 o) = GDId (deref w0 o).
Proof.
  intros Hk Hg s. subst s.
  replace ((λ js, Running (poolWorker E js)) <$> jobs)
    with (Running <$> (poolWorker E <$> jobs)) by (by rewrite <- list_fmap_compose).
  eapply schedule_keeps_resolved; [| done | done].
  apply conc_inv_init.
  apply Forall_fmap, Forall_forall. intros js _ w ret. apply poolWorker_wp.
Qed.

Lemma resolve_pass_keeps_resolved_witness :
  objectMap (schedule ex_env (concat (replicate 20 [0; 1]%nat))
     ((λ js, Running (poolWorker ex_env js)) <$>
        [[(3%nat, ex_wr_f)]; [(3%nat, ex_wr_a); (3%nat, ex_wr_f)]], ex_w1)).2
    !! "/r/a" = Some 0%nat ∧
  GDId (deref (schedule ex_env (concat (replicate 20 [0; 1]%nat))
     ((λ js, Running (poolWorker ex_env js)) <$>
        [[(3%nat, ex_wr_f)]; [(3%nat, ex_wr_a); (3%nat, ex_wr_f)]], ex_w1)).2 0%nat)
    = "idA".
Proof.
  destruct (resolve_pass_keeps_resolved ex_env
              [[(3%nat, ex_wr_f)]; [(3%nat, ex_wr_a); (3%nat, ex_wr_f)]] ex_w1
              (concat (replicate 20 [0; 1]%nat)) "/r/a" 0%nat) as [H1 H2];
    [by vm_compute | by vm_compute |].
  split; [exact H1 | exact H2].
Defined.

(** ** The results of [Sync] *)

(** What a call of [NewObject] that reports a creation has done. *)
Lemma run_NewObject_fresh_call (E : Env) fuel loc w r :
  (run E (NewObject E fuel loc) w).1 = Some r →
  res_err r = None → res_loaded r = false → res_locked r = false →
  loc ≠ binPath E ∧ objectMap w !! loc = None ∧
  ∃ l c, calls (run E (NewObject E fuel loc) w).2 = l ++ [c] ∧ call_tag c = TagCreate loc.
Proof.
  intros Hr He Hl Hk. destruct fuel as [| fuel]; [done |].
  destruct (decide (loc = binPath E)) as [-> | Hroot].
  { rewrite run_NewObject_root in Hr. cbn in Hr. by injection Hr as <-. }
  destruct (objectMap w !! loc) as [o |] eqn:Ho.
  { rewrite (run_NewObject_loaded E fuel loc o) in Hr by done.
    cbn in Hr. by injection Hr as <-. }
  split; [done|]. split; [done|].
  rewrite run_NewObject_missing in * by done.
  assert (Hrest : ∀ pObj w1,
            (run E (NewObject_rest E loc pObj) w1).1 = Some r →
            ∃ l c, calls (run E (NewObject_rest E loc pObj) w1).2 = l ++ [c] ∧
                   call_tag c = TagCreate loc).
  { intros pObj w1 Hr1.
    destruct (run_NewObject_rest_cases E loc pObj w1)
      as [(_ & _ & [H | (err & H & _)]) | (fi & _ & _ & _ & Hc)].
    - cbn zeta in H. rewrite H in Hr1. by injection Hr1 as <-.
    - cbn zeta in H. rewrite H in Hr1. by injection Hr1 as <-.
    - cbn zeta in Hc. rewrite Hc. by eexists _, _. }
  destruct ((loadObject E (filepath_Dir E loc) w).1) as [pObj|]; [by apply Hrest|].
  destruct (after_parent _) as [early | pObj] eqn:Hap; cbn [fst snd] in *; [| by apply Hrest].
  exfalso. subst early. unfold after_parent in Hap.
  destruct ((run E (NewObject E fuel (filepath_Dir E loc)) w).1) as [r1|]; [| done].
  destruct (res_err r1); [by injection Hap as <-|].
  destruct (res_loaded r1 || res_locked r1) eqn:Hor.
  - injection Hap as <-. cbn in *. by rewrite Hl, Hk in Hor.
  - by destruct (res_obj r1).
Qed.

(** X18. What the results of [Sync] mean when one worker runs alone. At
    most one of [created], [updated] and [locked] is set, and none with an
    error. [created] is reported only for a path that had no entry and has
    one now, the creation command for that path being the last command
    issued. [updated] is reported only for a file that was tracked (or is
    the sync root), the one command issued being the update command for
    that path. *)
Theorem Sync_alone_reports (E : Env) fuel wr w r :
  (run E (Sync E fuel wr) w).1 = Some r →
  let w' := (run E (Sync E fuel wr) w).2 in
  (syn_created r && syn_updated r || syn_created r && syn_locked r
     || syn_updated r && syn_locked r = false) ∧
  (is_Some (syn_err r) →
     syn_created r = false ∧ syn_updated r = false ∧ syn_locked r = false) ∧
  (syn_created r = true →
     wr_loc wr ≠ binPath E ∧ objectMap w !! wr_loc wr = None ∧
     is_Some (objectMap w' !! wr_loc wr) ∧
     ∃ l c, calls w' = l ++ [c] ∧ call_tag c = TagCreate (wr_loc wr)) ∧
  (syn_updated r = true →
     wr_isDir wr = false ∧
     (wr_loc wr = binPath E ∨ is_Some (objectMap w !! wr_loc wr)) ∧
     ∃ c, calls w' = calls w ++ [c] ∧ call_tag c = TagUpdate (wr_loc wr)).
Proof.
  unfold Sync. rewrite run_bind.
  pose proof (NewObject_fresh_result E fuel (wr_loc wr) w) as Hfresh.
  pose proof (run_NewObject_fresh_call E fuel (wr_loc wr) w) as Hcall.
  pose proof (NewObject_alone_not_loaded E fuel (wr_loc wr) w) as Hnl.
  destruct (run E (NewObject E fuel (wr_loc wr)) w) as [r0 w1] eqn:Hrun.
  cbn [fst snd] in *.
  destruct r0 as [r0|]; [| done].
  destruct (res_err r0) eqn:He; [intros [= <-]; cbn; by repeat split|].
  destruct (res_locked r0) eqn:Hk; [intros [= <-]; cbn; by repeat split|].
  destruct (res_loaded r0) eqn:Hl; cbn [negb].
  2:{ intros [= <-]. cbn.
      destruct (Hfresh r0 eq_refl He Hl Hk) as (o & _ & _ & Hm).
      destruct (Hcall r0 eq_refl He Hl Hk) as (Hroot & Hn & Hc).
      split; [done|]. split; [by intros [? ?]|]. split; [| done].
      intros _. split; [done|]. split; [done|]. split; [by eexists | done]. }
  destruct (res_obj r0) as [object|]; [| done].
  rewrite run_bind.
  assert (Htracked : wr_loc wr = binPath E ∨ is_Some (objectMap w !! wr_loc wr)).
  { destruct (decide (wr_loc wr = binPath E)) as [| Hroot]; [by left|]. right.
    destruct (objectMap w !! wr_loc wr) as [o|] eqn:Ho; [by eexists|].
    exfalso. assert (res_loaded r0 = false); [| congruence].
    apply Hnl; [| done]. by rewrite loadObject_key. }
  assert (Hcalls : calls w1 = calls w).
  { destruct fuel as [| fuel]; [done|].
    destruct Htracked as [Hroot | [o Ho]].
    - rewrite Hroot, run_NewObject_root in Hrun. injection Hrun as _ <-.
      rewrite loadObject_root. done.
    - destruct (decide (wr_loc wr = binPath E)) as [Hroot | Hroot].
      + rewrite Hroot, run_NewObject_root in Hrun. injection Hrun as _ <-.
        rewrite loadObject_root. done.
      + rewrite (run_NewObject_loaded E fuel _ o) in Hrun by done. by injection Hrun as _ <-. }
  destruct (decide (wr_isDir wr = false ∧ LastMod (deref w1 object) < wr_modTimeUnix wr ∧
                    wr_size wr ≠ Size (deref w1 object))) as [(Hd & Hm & Hs) | Hno].
  2:{ rewrite UpdateObjectIfModTimeChanged_skip by done. intros [= <-]. cbn.
      by repeat split. }
  rewrite (UpdateObjectIfModTimeChanged_attempt E wr object w1 Hd Hm Hs).
  destruct ((execCommand E _ w1).1); cbn [fst snd]; intros [= <-]; cbn.
  - by repeat split.
  - split; [done|]. split; [by intros [? ?]|]. split; [done|].
    intros _. split; [done|]. split; [done|]. rewrite Hcalls. by eexists.
Qed.

Lemma Sync_alone_reports_witness :
  (run ex_env (Sync ex_env 2 ex_wr_f) ex_w1).1 = Some (mkSynced true false false None) ∧
  objectMap ex_w1 !! "/r/a/f" = None ∧
  is_Some (objectMap (run ex_env (Sync ex_env 2 ex_wr_f) ex_w1).2 !! "/r/a/f").
Proof.
  assert (H : (run ex_env (Sync ex_env 2 ex_wr_f) ex_w1).1
              = Some (mkSynced true false false None)) by (by vm_compute).
  split; [exact H|].
  destruct (Sync_alone_reports ex_env 2 ex_wr_f ex_w1 _ H) as (_ & _ & H3 & _).
  destruct (H3 eq_refl) as (_ & H4 & H5 & _). split; [exact H4 | exact H5].
Defined.

(** ** The race for one path, with backend answers returning *)

Lemma grown_refl w : grown w w.
Proof. by split. Qed.

Lemma grown_trans w1 w2 w3 : grown w1 w2 → grown w2 w3 → grown w1 w3.
Proof. intros [L1 S1 M1] [L2 S2 M2]. split; [lia | auto | auto]. Qed.

Lemma ext_grown w w' : ext w w' → grown w w'.
Proof.
  intros [[l Hl] Hm _]. split.
  - rewrite Hl, length_app. lia.
  - intros o Ho. by rewrite (deref_grown w w' o l Hl (deref_live _ _ Ho)).
  - done.
Qed.

Lemma sem_grown (E : Env) {X : Type} (e : event X) w :
  benign e = true → grown w (sem E e w).2.
Proof. intros H. by apply ext_grown, sem_ext. Qed.

(** A step that the protocol allows and that removes nothing. *)
Lemma step_grown (E : Env) {X : Type} me (e : event X) w ret :
  allowed me e w ret → removes e = false → grown w (sem E e w).2.
Proof.
  intros Hal Hr. destruct (benign e) eqn:Hb; [by apply sem_grown|].
  destruct e; try done. cbn in *. split; cbn.
  - by rewrite length_alter.
  - intros o' Ho'. destruct Hal as [(key & -> & Hl & Hk & Hg & Hn) | (-> & Hg & Hf)].
    + rewrite deref_alter_ne; [done | congruence].
    + by rewrite deref_alter_GDId.
  - done.
Qed.

Lemma within_mono {A : Type} (p : prog A) : ∀ n m, (n ≤ m)%nat → within n p → within m p.
Proof.
  induction p as [r | X e k' IH]; intros n m Hnm; [done|].
  destruct n as [| n]; [done|]. destruct m as [| m]; [lia|].
  cbn. intros H x. apply (IH x n m); [lia | done].
Qed.

Lemma within_bind {A B : Type} (f : A → prog B) (p : prog A) m :
  (∀ x, within m (f x)) → ∀ n, within n p → within (n + m) (p ≫= f).
Proof.
  intros Hf. induction p as [r | X e k' IH]; intros n Hp.
  - apply (within_mono _ m); [lia | apply Hf].
  - change (Vis e k' ≫= f) with (Vis e (λ x, k' x ≫= f)).
    destruct n as [| n]; [done|]. cbn. intros x. by apply IH.
Qed.

Lemma within_call {X A : Type} (e : event X) (f : X → prog A) n :
  (∀ x, within n (f x)) → within (S n) (call e ≫= f).
Proof. intros H. exact H. Qed.

Section chain_facts.
Context (E : Env) (loc : string) (k : nat).
#[local] Abbreviation anc := (anc E loc).
#[local] Abbreviation present := (present E loc).
#[local] Abbreviation parents_present := (parents_present E loc k).
#[local] Abbreviation base_ok := (base_ok E loc k).
#[local] Abbreviation NRq := (NRq E loc k).
#[local] Abbreviation Tq := (Tq E loc k).

Lemma anc_S i : anc (S i) = filepath_Dir E (anc i).
Proof. done. Qed.

Lemma present_grown j w w' : present j w → grown w w' → present j w'.
Proof. intros [o Ho] Hg. exists o. by apply (g_map _ _ Hg). Qed.

Lemma base_ok_grown w w' : base_ok w → grown w w' → base_ok w'.
Proof.
  intros [Hb | (Hb & dp & Hdp & Hg)] Hgr; [by left|]. right. split; [done|].
  exists dp. split; [by apply (g_map _ _ Hgr) | by apply (g_set _ _ Hgr)].
Qed.

Lemma parents_present_up w i j :
  parents_present w → present i w → (i ≤ j)%nat → (j ≤ k)%nat → present j w.
Proof.
  intros Hpp Hi Hij Hjk. induction j as [| j IH].
  - by replace i with 0%nat in Hi by lia.
  - destruct (decide (i = S j)) as [-> | Hne]; [done|].
    apply Hpp; [lia|]. apply IH; lia.
Qed.

Lemma created_at_grown i r w w' : created_at E loc i r w → grown w w' → created_at E loc i r w'.
Proof.
  intros (r' & o & -> & Ho & Hl & Hk & He & Hm & Hg) Hgr.
  exists r', o. do 5 (split; [done|]).
  split; [by apply (g_map _ _ Hgr)|]. intros Hi. by apply (g_set _ _ Hgr), Hg.
Qed.

Lemma level_post_grown i r g w w' :
  level_post E loc i r g w → grown w w' → level_post E loc i r g w'.
Proof.
  intros [H | [Hg H]] Hgr; [by left|]. right. split; [done|]. by eapply created_at_grown.
Qed.

(** *** Not returning before an entry is there *)

Lemma NRq_present {A : Type} j w (p : prog A) Q : present j w → NRq j w p Q.
Proof. intros H. destruct p; by left. Qed.

Lemma NRq_call {X A : Type} (e : event X) (f : X → prog A) j w Q :
  (∀ w', grown w w' → parents_present w' → ¬ present j w' →
         NRq j (sem E e w').2 (f (sem E e w').1) Q) →
  NRq j w (call e ≫= f) Q.
Proof. intros H. right. exact H. Qed.

Lemma NRq_mono {A : Type} j w w1 (p : prog A) :
  NRq j w p (λ _ _, False) → grown w w1 → NRq j w1 p (λ _ _, False).
Proof.
  destruct p as [r | X e k']; cbn.
  - intros [H | []] Hg. left. by eapply present_grown.
  - intros [H | H] Hg; [left; by eapply present_grown|]. right.
    intros w' Hg' Hpp Hn. apply H; [by eapply grown_trans | done | done].
Qed.

Lemma NRq_bind {A B : Type} j (f : A → prog B) (p : prog A) Q Q' :
  ∀ w, NRq j w p Q' → (∀ x w', Q' x w' → NRq j w' (f x) Q) → NRq j w (p ≫= f) Q.
Proof.
  induction p as [r | X e k' IH]; intros w Hp Hf.
  - destruct Hp as [Hpr | HQ]; [by apply NRq_present | by apply Hf].
  - change (Vis e k' ≫= f) with (Vis e (λ x, k' x ≫= f)).
    destruct Hp as [Hpr | H]; [by left|]. right.
    intros w' Hg Hpp Hn. apply IH; [by apply H | done].
Qed.

Lemma NRq_conseq {A : Type} j (p : prog A) (Q Q' : A → World → Prop) :
  ∀ w, NRq j w p Q → (∀ x w', Q x w' → Q' x w') → NRq j w p Q'.
Proof.
  induction p as [r | X e k' IH]; intros w Hp HQ.
  - destruct Hp as [Hpr | H]; [by left | right; by apply HQ].
  - destruct Hp as [Hpr | H]; [by left|]. right.
    intros w' Hg Hpp Hn. apply IH; [by apply H | done].
Qed.

(** *** The phases of a worker *)

Lemma Tq_call {X A : Type} (e : event X) (f : X → prog A) g w Q Qn :
  (∀ w', grown w w' →
     removes e = false ∧
     (store_result loc e (sem E e w').1 = Some true → g = Seeking) ∧
     (creates loc e = true → g = Holding) ∧
     (∀ i, (i < k)%nat → store_result (anc i) e (sem E e w').1 = Some true →
           present (S i) w') ∧
     (∀ j, (j < k)%nat → store_result (anc (S j)) e (sem E e w').1 = Some true →
           NRq j (sem E e w').2 (f (sem E e w').1) (Qn j)) ∧
     Tq (next_phase loc g e (sem E e w').1) (sem E e w').2 (f (sem E e w').1) Q Qn) →
  Tq g w (call e ≫= f) Q Qn.
Proof. intros H. exact H. Qed.

Lemma Tq_mono {A : Type} g w w1 (p : prog A) Q Qn :
  (∀ r g w w', Q r g w → grown w w' → Q r g w') →
  Tq g w p Q Qn → grown w w1 → Tq g w1 p Q Qn.
Proof.
  intros HQ. destruct p as [r | X e k']; cbn.
  - apply HQ.
  - intros H Hg w' Hg'. apply H. by eapply grown_trans.
Qed.

Lemma Tq_bind {A B : Type} (f : A → prog B) (p : prog A) Q Q' Qn Qn' :
  ∀ g w,
  Tq g w p Q' Qn' →
  (∀ x g' w', Q' x g' w' → Tq g' w' (f x) Q Qn) →
  (∀ j x w', (j < k)%nat → Qn' j x w' → NRq j w' (f x) (Qn j)) →
  Tq g w (p ≫= f) Q Qn.
Proof.
  induction p as [r | X e k' IH]; intros g w Hp Hf Hn.
  - by apply Hf.
  - change (Vis e k' ≫= f) with (Vis e (λ x, k' x ≫= f)).
    cbn in *. intros w' Hg.
    destruct (Hp w' Hg) as (H1 & H2 & H3 & H4 & H5 & H6).
    do 4 (split; [done|]). split.
    + intros j Hj Hs. eapply NRq_bind; [by apply H5|]. intros x w'' HQ. by apply Hn.
    + by apply IH.
Qed.
End chain_facts.


Section chain_steps.
Context (E : Env) (loc : string) (k : nat).
#[local] Abbreviation anc := (anc E loc).
#[local] Abbreviation present := (present E loc).
#[local] Abbreviation parents_present := (parents_present E loc k).
#[local] Abbreviation base_ok := (base_ok E loc k).
#[local] Abbreviation NRq := (NRq E loc k).
#[local] Abbreviation Tq := (Tq E loc k).
#[local] Abbreviation level_post := (level_post E loc).
#[local] Abbreviation level_postn := (level_postn E loc).
#[local] Abbreviation created_at := (created_at E loc).
#[local] Abbreviation parent_post := (parent_post E loc).
#[local] Abbreviation parent_postn := (parent_postn E loc).
Hypothesis chain_root : ∀ i, (i ≤ k)%nat → anc i ≠ binPath E.
Hypothesis chain_stat : ∀ i, (i ≤ k)%nat → ∃ fi, os_Stat E (anc i) = inr fi.
Hypothesis chain_backend : ∀ i h c, (i ≤ k)%nat → call_tag c = TagCreate (anc i) →
  ∃ id, backend E h c = inr id ∧ ((1 ≤ i)%nat → id ≠ "").
Hypothesis chain_inj : ∀ i j, (i ≤ k)%nat → (j ≤ k)%nat → anc i = anc j → i = j.

Lemma execCommand_accepted i c w :
  (i ≤ k)%nat → call_tag c = TagCreate (anc i) →
  ∃ id, (execCommand E c w).1 = inr id ∧ ((1 ≤ i)%nat → id ≠ "").
Proof.
  intros Hi Hc. unfold execCommand. destruct (TestMode (cfg w)); [by exists "0"|].
  by apply (chain_backend i).
Qed.

Ltac nr_step w Hg Hpp Hn :=
  apply NRq_call; intros w Hg Hpp Hn; cbn [sem fst snd].

Ltac tq_plain w Hg :=
  apply Tq_call; intros w Hg;
  split; [done|]; split; [done|]; split; [done|]; split; [done|]; split; [done|];
  cbn [next_phase store_result creates sem fst snd].

(** Once the parent is seen with its identifier set, the rest of
    [NewObject] gets to the insert. *)
Lemma NRq_rest i p w (Q : option Resolved → World → Prop) :
  (i ≤ k)%nat → GDId (deref w p) ≠ "" → NRq i w (NewObject_rest E (anc i) p) Q.
Proof.
  intros Hi Hp. destruct (chain_stat i Hi) as [fi Hfi]. unfold NewObject_rest.
  nr_step w1 Hg1 Hpp1 Hn1.
  unfold isLocked. rewrite bool_decide_eq_false_2 by (by apply (g_set _ _ Hg1)).
  nr_step w2 Hg2 Hpp2 Hn2. rewrite Hfi.
  nr_step w3 Hg3 Hpp3 Hn3.
  nr_step w4 Hg4 Hpp4 Hn4.
  nr_step w5 Hg5 Hpp5 Hn5.
  apply NRq_present. unfold storeObject.
  destruct (objectMap w5 !! anc i) as [o'|] eqn:Ho; [by exists o'|].
  unfold present. cbn. rewrite lookup_insert_eq. by eexists.
Qed.
Lemma next_phase_store i o b :
  (i ≤ k)%nat →
  next_phase loc Seeking (EvStoreObject (anc i) o) b
  = if b then (if decide (i = 0%nat) then Holding else Seeking) else Seeking.
Proof.
  intros Hi. unfold next_phase. cbn.
  destruct (decide (anc i = loc)) as [Heq | Hne].
  - apply (chain_inj i 0%nat) in Heq; [| done | lia]. subst i. by destruct b.
  - destruct b; [| done]. rewrite decide_False; [done|]. by intros ->.
Qed.

(** The object that has been given its identifier is the result. *)
Lemma placed_created i o id w9 w10 line :
  (i ≤ k)%nat → objectMap w9 !! anc i = Some o → (o < length (heap w9))%nat →
  ((1 ≤ i)%nat → id ≠ "") →
  grown (updateStoredObject o (λ x, mkObject id (GDPId x) (LastMod x) (Size x)) w9) w10 →
  created_at i (Some (mkResolved (Some o) false false None))
             (set_console (console w10 ++ [line]) w10).
Proof.
  intros Hi Hm Hl Hid Hg. eexists _, o. do 5 (split; [done|]). split.
  - cbn. by apply (g_map _ _ Hg).
  - intros H1. change (GDId (deref w10 o) ≠ ""). apply (g_set _ _ Hg).
    unfold deref, updateStoredObject. cbn.
    rewrite list_lookup_total_alter_eq by done. cbn. by apply Hid.
Qed.

Lemma NRq_placed i j p o fi w :
  S j = i → (i ≤ k)%nat → objectMap w !! anc i = Some o → (o < length (heap w))%nat →
  NRq j w (NewObject_placed E (anc i) p o fi) (level_postn i j).
Proof.
  intros Hj Hi Hm Hl. unfold NewObject_placed.
  nr_step w6 Hg6 Hpp6 Hn6.
  nr_step w7 Hg7 Hpp7 Hn7.
  set (c := mkCall _ _ _).
  nr_step w8 Hg8 Hpp8 Hn8.
  destruct (execCommand_accepted i c w8 Hi eq_refl) as (id & Hid & Hne).
  pose proof (sem_grown E (EvExecCommand c) w8 eq_refl) as Hx8. cbn [sem] in Hx8.
  destruct (execCommand E c w8) as [r w8a]. cbn [fst snd] in *. subst r.
  nr_step w9 Hg9 Hpp9 Hn9.
  nr_step w10 Hg10 Hpp10 Hn10.
  right. split; [done|].
  assert (Hg : grown w w9).
  { eapply grown_trans; [exact Hg6|]. eapply grown_trans; [exact Hg7|].
    eapply grown_trans; [exact Hg8|]. by eapply grown_trans. }
  apply (placed_created i o id w9 w10); [done | by apply (g_map _ _ Hg) | | done | done].
  pose proof (g_len _ _ Hg). lia.
Qed.

Lemma Tq_placed i p o fi w :
  (i ≤ k)%nat → objectMap w !! anc i = Some o → (o < length (heap w))%nat →
  Tq (if decide (i = 0%nat) then Holding else Seeking) w
     (NewObject_placed E (anc i) p o fi) (level_post i) (level_postn i).
Proof.
  intros Hi Hm Hl. unfold NewObject_placed.
  tq_plain w6 Hg6.
  tq_plain w7 Hg7.
  set (c := mkCall _ _ _).
  apply Tq_call. intros w8 Hg8.
  split; [done|]. split; [done|]. split.
  { cbn. intros Hc%bool_decide_eq_true. injection Hc as Hc.
    apply (chain_inj i 0%nat) in Hc; [| done | lia]. by rewrite decide_True. }
  split; [done|]. split; [done|].
  assert (Hph : next_phase loc (if decide (i = 0%nat) then Holding else Seeking)
                  (EvExecCommand c) (sem E (EvExecCommand c) w8).1
                = if decide (i = 0%nat) then Issued else Seeking).
  { unfold next_phase. cbn [store_result creates sem]. case_bool_decide as Hc.
    - injection Hc as Hc. apply (chain_inj i 0%nat) in Hc; [| done | lia].
      subst i. done.
    - destruct (decide (i = 0%nat)) as [-> |]; [| done]. by exfalso; apply Hc. }
  rewrite Hph. clear Hph. cbn [sem].
  destruct (execCommand_accepted i c w8 Hi eq_refl) as (id & Hid & Hne).
  pose proof (sem_grown E (EvExecCommand c) w8 eq_refl) as Hx8. cbn [sem] in Hx8.
  destruct (execCommand E c w8) as [r w8a]. cbn [fst snd] in *. subst r.
  tq_plain w9 Hg9.
  tq_plain w10 Hg10.
  right. split; [done|].
  assert (Hg : grown w w9).
  { eapply grown_trans; [exact Hg6|]. eapply grown_trans; [exact Hg7|].
    eapply grown_trans; [exact Hg8|]. by eapply grown_trans. }
  apply (placed_created i o id w9 w10); [done | by apply (g_map _ _ Hg) | | done | done].
  pose proof (g_len _ _ Hg). lia.
Qed.

(** The rest of [NewObject] for [anc i], with the parent in hand. *)
Lemma Tq_rest i p w :
  (i ≤ k)%nat → ((i < k)%nat → present (S i) w) →
  Tq Seeking w (NewObject_rest E (anc i) p) (level_post i) (level_postn i).
Proof.
  intros Hi Hpar. destruct (chain_stat i Hi) as [fi Hfi]. unfold NewObject_rest.
  tq_plain w1 Hg1.
  destruct (isLocked p w1).
  { left. split; [done|]. eexists. split; [done|]. split; [done|]. by left. }
  tq_plain w2 Hg2. rewrite Hfi.
  tq_plain w3 Hg3.
  tq_plain w4 Hg4.
  set (v := mkObject _ _ _ _).
  pose proof (sem_grown E (EvNew v) w4 eq_refl) as Hx4. cbn [sem] in Hx4.
  assert (Hl4 : (length (heap w4) < length (heap (alloc v w4).2))%nat).
  { cbn. rewrite length_app. cbn. lia. }
  change (alloc v w4).1 with (length (heap w4)).
  set (o := length (heap w4)) in *.
  generalize dependent (alloc v w4).2. intros w4a Hx4 Hl4.
  assert (Hg : grown w w4a).
  { eapply grown_trans; [exact Hg1|]. eapply grown_trans; [exact Hg2|].
    eapply grown_trans; [exact Hg3|]. by eapply grown_trans. }
  apply Tq_call. intros w5 Hg5.
  assert (Hpar5 : (i < k)%nat → present (S i) w5).
  { intros Hik. eapply present_grown; [by apply Hpar|]. by eapply grown_trans. }
  rewrite next_phase_store by done. cbn [sem]. unfold storeObject.
  destruct (objectMap w5 !! anc i) as [o'|] eqn:Ho5; cbn [fst snd negb].
  { split; [done|]. split; [done|]. split; [done|].
    split; [intros i' _ Hs; cbn in Hs; by case_decide|].
    split; [intros j _ Hs; cbn in Hs; by case_decide|].
    left. split; [done|]. eexists. split; [done|]. split; [done|]. by left. }
  set (w5a := set_objectMap _ w5).
  assert (Hm5 : objectMap w5a !! anc i = Some o) by (cbn; by rewrite lookup_insert_eq).
  assert (Hl5 : (o < length (heap w5a))%nat).
  { cbn. pose proof (g_len _ _ Hg5). lia. }
  clearbody w5a.
  change (Tq ?g w5a _ ?Q ?Qn) with (Tq g w5a (NewObject_placed E (anc i) p o fi) Q Qn).
  split; [done|]. split; [done|]. split; [done|]. split.
  { intros i' Hi' Hs. cbn in Hs. case_decide as Heq; [| done].
    apply chain_inj in Heq; [| done | lia]. subst i'. by apply Hpar5. }
  split.
  { intros j Hj Hs. cbn [store_result] in Hs. case_decide as Heq; [| done].
    apply (chain_inj i (S j)) in Heq; [| done | lia].
    change (NRq j w5a (NewObject_placed E (anc i) p o fi) (level_postn i j)).
    by apply NRq_placed. }
  by apply Tq_placed.
Qed.

(** The parent that the second lookup finds at the top of the chain. *)
Lemma load_base w :
  base_ok w →
  ∃ p w', loadObject E (anc (S k)) w = (Some p, w') ∧ grown w w' ∧
          GDId (deref w' p) ≠ "".
Proof.
  intros [Hb | (Hb & dp & Hdp & Hg)]; unfold loadObject.
  - rewrite decide_True by done.
    set (w1 := if decide (RootFolderID (cfg w) = "") then _ else w).
    assert (H1 : grown w w1).
    { unfold w1. case_decide; [| apply grown_refl]. by split. }
    assert (Hr : RootFolderID (cfg w1) ≠ "").
    { unfold w1. case_decide; [by cbn | done]. }
    eexists _, _. split; [done|]. split.
    + eapply grown_trans; [exact H1|]. apply (sem_grown E (EvNew _) w1 eq_refl).
    + unfold deref. cbn. by rewrite lookup_total_app_r, Nat.sub_diag by lia.
  - rewrite decide_False by done. rewrite Hdp. eexists _, _. split; [done|].
    split; [apply grown_refl | done].
Qed.

Lemma Tq_level d : ∀ i f w,
  (i + d = k)%nat → (d < f)%nat → base_ok w →
  Tq Seeking w (NewObject E f (anc i)) (level_post i) (level_postn i).
Proof.
  induction d as [| d IH]; intros i f w Hid Hf Hb;
    (destruct f as [| f]; [lia|]); cbn [NewObject].
  all: tq_plain w1 Hg1; unfold loadObject at 1 2.
  all: rewrite decide_False by (apply chain_root; lia); cbn [fst snd].
  all: (destruct (objectMap w1 !! anc i) as [e|] eqn:He;
        [ tq_plain w1' Hg1'; left; split; [done|]; eexists; split; [done|];
          split; [done|]; by right |]).
  - assert (i = k) as -> by lia.
    tq_plain w2 Hg2. change (filepath_Dir E (anc k)) with (anc (S k)).
    destruct (load_base w2) as (p & w2' & Hl & Hg2' & Hp).
    { eapply base_ok_grown; [exact Hb|]. by eapply grown_trans. }
    rewrite Hl. cbn [fst snd]. apply Tq_rest; [done | lia].
  - tq_plain w2 Hg2. change (filepath_Dir E (anc i)) with (anc (S i)).
    unfold loadObject at 1 2. rewrite decide_False by (apply chain_root; lia).
    cbn [fst snd].
    destruct (objectMap w2 !! anc (S i)) as [p|] eqn:Hp.
    { apply Tq_rest; [lia|]. intros _. by eexists. }
    eapply (Tq_bind E loc k _ _ (level_post i) (parent_post i) (level_postn i) (parent_postn i)).
    + eapply (Tq_bind E loc k _ _ _ (level_post (S i)) _ (level_postn (S i))).
      * apply IH; [lia | lia |]. eapply base_ok_grown; [exact Hb|]. by eapply grown_trans.
      * intros x g' w' Hx. by exists x.
      * intros j x w' Hj Hx. right. by exists x.
    + intros x g' w' (r & -> & [[-> Hd] | [Hg Hc]]).
      * destruct Hd as (r' & -> & He' & Hor). cbn. rewrite He'.
        replace (res_loaded r' || res_locked r') with true
          by (destruct Hor as [-> | ->]; by rewrite ?orb_true_r).
        left. split; [done|]. eexists. split; [done|]. split; [done|]. cbn.
        destruct Hor as [-> | ->]; auto.
      * destruct Hc as (r' & o & -> & Ho & Hlo & Hlk & He' & Hm & Hgd). cbn in Hg.
        subst g'. cbn. rewrite He', Hlo, Hlk, Ho. cbn.
        apply Tq_rest; [lia|]. intros _. by eexists.
    + intros j x w' Hj (r & -> & [Hji Hc]).
      destruct Hc as (r' & o & -> & Ho & Hlo & Hlk & He' & Hm & Hgd).
      injection Hji as ->. cbn. rewrite He', Hlo, Hlk, Ho. cbn.
      apply NRq_rest; [lia|]. apply Hgd. lia.
Qed.

Lemma NRq_level d : ∀ i f w (Q : option Resolved → World → Prop),
  (i + d = k)%nat → (d < f)%nat → base_ok w →
  NRq k w (NewObject E f (anc i)) Q.
Proof.
  induction d as [| d IH]; intros i f w Q Hid Hf Hb;
    (destruct f as [| f]; [lia|]); cbn [NewObject].
  all: nr_step w1 Hg1 Hpp1 Hn1; unfold loadObject at 1 2.
  all: rewrite decide_False by (apply chain_root; lia); cbn [fst snd].
  all: (destruct (objectMap w1 !! anc i) as [e|] eqn:He;
        [ exfalso; apply Hn1;
          apply (parents_present_up E loc k w1 i k); [done | by eexists | lia | lia] |]).
  - assert (i = k) as -> by lia.
    nr_step w2 Hg2 Hpp2 Hn2. change (filepath_Dir E (anc k)) with (anc (S k)).
    destruct (load_base w2) as (p & w2' & Hl & Hg2' & Hp).
    { eapply base_ok_grown; [exact Hb|]. by eapply grown_trans. }
    rewrite Hl. cbn [fst snd]. by apply NRq_rest.
  - nr_step w2 Hg2 Hpp2 Hn2. change (filepath_Dir E (anc i)) with (anc (S i)).
    unfold loadObject at 1 2. rewrite decide_False by (apply chain_root; lia).
    cbn [fst snd].
    destruct (objectMap w2 !! anc (S i)) as [p|] eqn:Hp.
    { exfalso. apply Hn2.
      apply (parents_present_up E loc k w2 (S i) k); [done | by eexists | lia | lia]. }
    eapply (NRq_bind E loc k k _ _ Q (λ _ _, False)); [| done].
    eapply (NRq_bind E loc k k _ _ _ (λ _ _, False)); [| done].
    apply IH; [lia | lia |]. eapply base_ok_grown; [exact Hb|]. by eapply grown_trans.
Qed.

End chain_steps.

Section chain_run.
Context (E : Env) (loc : string) (k : nat).
#[local] Abbreviation anc := (anc E loc).
#[local] Abbreviation present := (present E loc).
#[local] Abbreviation parents_present := (parents_present E loc k).
#[local] Abbreviation NRq := (NRq E loc k).
#[local] Abbreviation Tq := (Tq E loc k).
#[local] Abbreviation chain_inv := (chain_inv E loc k).

Lemma present_dec j w : present j w ∨ ¬ present j w.
Proof.
  unfold present. destruct (objectMap w !! anc j); [left; eauto | right].
  by intros [? ?].
Qed.

Lemma removes_not_delete {X : Type} (e : event X) key :
  removes e = false → is_delete_of key (existT X e) = false.
Proof. by destruct e. Qed.

(** An entry that a step adds is the insert of that step. *)
Lemma step_adds {X : Type} (e : event X) j w :
  removes e = false → ¬ present j w → present j (sem E e w).2 →
  store_result (anc j) e (sem E e w).1 = Some true.
Proof.
  intros Hr Hn Hp.
  destruct (decide (store_result (anc j) e (sem E e w).1 = Some true)) as [| Hs]; [done|].
  exfalso. apply Hn. unfold present in *.
  by rewrite <- (sem_keeps_entry E e (anc j) w (removes_not_delete e _ Hr) Hs).
Qed.

Lemma creations_step {X : Type} (e : event X) w :
  creations loc (calls (sem E e w).2)
  = (creations loc (calls w) + if creates loc e then 1 else 0)%nat.
Proof.
  destruct (is_exec e) eqn:Hx.
  - destruct e; try done.
    destruct (sem_calls_exec E (EvExecCommand c) c w eq_refl) as [-> _].
    rewrite creations_app. f_equal. unfold creations, creates, calls_tagged.
    destruct (decide (call_tag c = TagCreate loc)) as [Hc | Hc].
    + by rewrite filter_cons_True, bool_decide_true by done.
    + by rewrite filter_cons_False, bool_decide_false by done.
  - rewrite sem_calls_other by done. destruct e; try done; cbn; lia.
Qed.

Lemma thread_prog_after {X : Type} (e : event X) (p : prog (option Resolved)) :
  thread_prog (if is_exec e then Waiting p else Running p) = p.
Proof. by destruct (is_exec e). Qed.

Lemma turn_chain_inv c0 ts h w i :
  chain_inv c0 ts h w →
  ∃ h', chain_inv c0 (turn E i (ts, w)).1 h' (turn E i (ts, w)).2 ∧
        ∀ me, issued_by h' me = (issued_by h me + step_made loc i me (ts !! i))%nat.
Proof.
  intros [(owns & ret & Hc) Hw Hpp Hh He Hcl Hl].
  pose proof (turn_conc_inv E ts owns ret w i Hc) as [_ Hprot].
  unfold turn in *. cbn [fst snd] in *.
  destruct (ts !! i) as [t|] eqn:Ht;
    [| exists h; split; [by split; eauto | intros me; cbn; lia]].
  destruct t as [[r | X e k'] | p]; cbn [thread_step] in *.
  - exists h. split; [by split; eauto | intros me; cbn; lia].
  - (* a step of the program *)
    pose proof (Hw i _ Ht w (grown_refl w)) as (Hrm & Hst & Hcr & Hpa & Hnr & Hnext).
    cbn [thread_prog] in Hnext.
    assert (Hal : allowed (default Idle (owns !! i)) e w ret).
    { destruct Hc as [Hwp Hd _ _].
      pose proof Hwp as [Hlen Hall]%Forall2_same_length_lookup.
      destruct (lookup_lt_is_Some_2 owns i) as [me Hme].
      { rewrite <- Hlen. by eapply lookup_lt_Some. }
      rewrite Hme. cbn. by destruct (Hall i _ _ Ht Hme w ret (rely_refl _ _ _) Hd) as (_ & ? & _). }
    pose proof (step_grown E _ e w ret Hal Hrm) as Hg.
    destruct (sem E e w) as [x w'] eqn:Hs. cbn [fst snd] in *.
    set (t' := if is_exec e then Waiting (k' x) else Running (k' x)) in *.
    assert (Ht' : thread_prog t' = k' x) by apply thread_prog_after.
    assert (Hsem1 : (sem E e w).1 = x) by (by rewrite Hs).
    assert (Hsem2 : (sem E e w).2 = w') by (by rewrite Hs).
    assert (F1 : store_result loc e x = Some true → h = None ∧ present 0 w').
    { intros Hsr. rewrite <- Hsem1 in Hsr.
      destruct (store_result_true E e loc w Hsr) as [Hnone Hsome]. split.
      - destruct h as [hh|]; [| done].
        destruct (proj2 He (mk_is_Some _ _ eq_refl)) as [o Ho].
        change (anc 0) with loc in Ho. congruence.
      - by rewrite <- Hsem2. }
    assert (F2 : store_result loc e x ≠ Some true → (present 0 w' ↔ present 0 w)).
    { intros Hsr. unfold present. change (anc 0) with loc.
      rewrite <- Hsem2, (sem_keeps_entry E e loc w); [done | by apply removes_not_delete |].
      by rewrite Hsem1. }
    assert (F3 : creates loc e = true → h = Some (i, false) ∧ store_result loc e x = None).
    { intros Hcre. split; [| by destruct e].
      specialize (Hcr Hcre). destruct h as [[j b]|]; cbn in Hcr; [| done].
      case_decide; [| done]. subst j. by destruct b. }
    assert (Hph : ∀ j, phase_of (next_holder loc h i e x) j
                       = if decide (j = i) then next_phase loc (phase_of h i) e x
                         else phase_of h j).
    { intros j. unfold next_holder, next_phase.
      destruct (decide (store_result loc e x = Some true)) as [Hsr | Hsr].
      - rewrite Hsr. destruct (F1 Hsr) as [-> _]. cbn. by case_decide.
      - destruct (creates loc e) eqn:Hcre.
        + destruct (F3 eq_refl) as [-> ->]. cbn. by case_decide.
        + case_decide; [subst j|]; by destruct (store_result loc e x) as [[|]|]. }
    exists (next_holder loc h i e x). split; [split|].
    + eauto.
    + intros j tj Hj. rewrite Hph. destruct (decide (j = i)) as [-> | Hne].
      * rewrite list_lookup_insert_eq in Hj by (by eapply lookup_lt_Some).
        injection Hj as <-. by rewrite Ht'.
      * rewrite list_lookup_insert_ne in Hj by done.
        eapply Tq_mono; [| by apply Hw | done].
        intros. by eapply level_post_grown.
    + intros j Hj Hpj. destruct (present_dec j w) as [Hpw | Hnw].
      * eapply present_grown; [by apply Hpp | done].
      * rewrite <- Hsem2 in Hpj. pose proof (step_adds e j w Hrm Hnw Hpj) as Hsr.
        eapply present_grown; [| done]. apply (Hpa j Hj). by rewrite <- Hsem1.
    + intros j b. unfold next_holder.
      destruct (store_result loc e x) as [[|]|]; [| destruct (creates loc e) | destruct (creates loc e)].
      all: try (intros [= <- <-]; apply lookup_lt_is_Some; rewrite length_insert;
                by eapply lookup_lt_Some).
      all: intros Hjb; destruct (Hh j b Hjb) as [tj Htj];
           apply lookup_lt_is_Some; rewrite length_insert; by eapply lookup_lt_Some.
    + unfold next_holder.
      destruct (decide (store_result loc e x = Some true)) as [Hsr | Hsr].
      * rewrite Hsr. destruct (F1 Hsr) as [_ Hp0]. split; [by eauto | done].
      * rewrite (F2 Hsr), He.
        destruct (creates loc e) eqn:Hcre.
        -- destruct (F3 eq_refl) as [-> ->]. split; by eauto.
        -- by destruct (store_result loc e x) as [[|]|].
    + rewrite <- Hsem2, creations_step, Hcl. unfold next_holder.
      destruct (decide (store_result loc e x = Some true)) as [Hsr | Hsr].
      * rewrite Hsr. destruct (F1 Hsr) as [-> _].
        replace (creates loc e) with false; [lia|]. by destruct e.
      * destruct (creates loc e) eqn:Hcre.
        -- destruct (F3 eq_refl) as [-> ->]. lia.
        -- destruct (store_result loc e x) as [[|]|]; try done; lia.
    + intros j Hj. destruct (Hl j Hj) as [Hp | [[Hjk Hn] | (i0 & t0 & Ht0 & Hnr0)]].
      * left. by eapply present_grown.
      * destruct (present_dec (S j) w') as [Hp' | Hn']; [| right; left; done].
        right. right. exists i, t'. split.
        { apply list_lookup_insert_eq. by eapply lookup_lt_Some. }
        rewrite Ht'. rewrite <- Hsem2 in Hp'.
        pose proof (step_adds e (S j) w Hrm Hn Hp') as Hsr.
        eapply NRq_conseq; [apply (Hnr j Hjk); by rewrite <- Hsem1|].
        intros r' w'' [Hbad _]. done.
      * destruct (decide (i0 = i)) as [-> | Hne].
        -- rewrite Ht in Ht0. injection Ht0 as <-. cbn [thread_prog] in Hnr0.
           destruct Hnr0 as [Hp | Hstep]; [left; by eapply present_grown|].
           destruct (present_dec j w) as [Hp | Hn]; [left; by eapply present_grown|].
           right. right. exists i, t'. split.
           { apply list_lookup_insert_eq. by eapply lookup_lt_Some. }
           rewrite Ht', <- Hsem1, <- Hsem2. apply Hstep; [apply grown_refl | done | done].
        -- right. right. exists i0, t0. split; [by rewrite list_lookup_insert_ne|].
           by eapply NRq_mono.
    + intros me. unfold issued_by, next_holder, step_made.
      destruct (decide (store_result loc e x = Some true)) as [Hsr | Hsr].
      * rewrite Hsr. destruct (F1 Hsr) as [-> _].
        replace (creates loc e) with false by (by destruct e). case_decide; lia.
      * destruct (creates loc e) eqn:Hcre.
        -- destruct (F3 eq_refl) as [-> ->]. repeat case_decide; try lia; congruence.
        -- destruct (store_result loc e x) as [[|]|]; try done; case_decide; lia.
  - (* the answer of the backend returns *)
    cbn [fst snd] in *. exists h. split; [split | intros me; cbn; lia]; try done.
    + intros j tj Hj. destruct (decide (j = i)) as [-> | Hne].
      * rewrite list_lookup_insert_eq in Hj by (by eapply lookup_lt_Some).
        injection Hj as <-. by apply (Hw i _ Ht).
      * rewrite list_lookup_insert_ne in Hj by done. by apply Hw.
    + intros j b Hjb. destruct (Hh j b Hjb) as [tj Htj].
      apply lookup_lt_is_Some. rewrite length_insert. by eapply lookup_lt_Some.
    + intros j Hj. destruct (Hl j Hj) as [Hp | [Hn | (i0 & t0 & Ht0 & Hnr0)]]; [by left | by right; left |].
      right. right. destruct (decide (i0 = i)) as [-> | Hne].
      * exists i, (Running p). split; [apply list_lookup_insert_eq; by eapply lookup_lt_Some|].
        rewrite Ht in Ht0. by injection Ht0 as <-.
      * exists i0, t0. split; [by rewrite list_lookup_insert_ne | done].
Qed.
End chain_run.

(** *** The run of a schedule *)

Lemma turn_other (E : Env) {R : Type} i j (s : list (thread R) * World) :
  i ≠ j → (turn E j s).1 !! i = s.1 !! i.
Proof.
  intros Hne. unfold turn. destruct (s.1 !! j) as [t|]; [| done].
  destruct (thread_step E t s.2) as [[t' w']|]; [| done].
  cbn. by rewrite list_lookup_insert_ne.
Qed.

Lemma turn_length (E : Env) {R : Type} j (s : list (thread R) * World) :
  length (turn E j s).1 = length s.1.
Proof.
  unfold turn. destruct (s.1 !! j) as [t|]; [| done].
  destruct (thread_step E t s.2) as [[t' w']|]; [| done].
  cbn. by rewrite length_insert.
Qed.

Lemma schedule_length (E : Env) {R : Type} sched : ∀ (s : list (thread R) * World),
  length (schedule E sched s).1 = length s.1.
Proof.
  induction sched as [| j rest IH]; intros s; [done|].
  change (schedule E (j :: rest) s) with (schedule E rest (turn E j s)).
  by rewrite IH, turn_length.
Qed.

(** A worker whose program returns within [n] steps has returned after
    [2 * n] turns: a command takes two, one to issue it and one for its
    answer. *)
Lemma schedule_returns (E : Env) {R : Type} sched :
  ∀ (s : list (thread R) * World) i t n,
  s.1 !! i = Some t → within n (thread_prog t) →
  (2 * n + (if is_waiting t then 1 else 0) ≤ length (filter (λ j, j = i) sched))%nat →
  ∃ r, (schedule E sched s).1 !! i = Some (Running (Ret r)).
Proof.
  induction sched as [| j rest IH]; intros s i t n Ht Hw Hn.
  - cbn in Hn. assert (n = 0%nat) as -> by lia.
    destruct t as [[r | X e k'] | p]; cbn in *; [by exists r | done | lia].
  - change (schedule E (j :: rest) s) with (schedule E rest (turn E j s)).
    destruct (decide (j = i)) as [-> | Hne].
    + rewrite filter_cons_True in Hn by done. cbn [length] in Hn.
      unfold turn. rewrite Ht.
      destruct t as [[r | X e k'] | p]; cbn [thread_step thread_prog is_waiting] in *.
      * apply (IH s i (Running (Ret r)) 0%nat); [done | done | cbn; lia].
      * destruct n as [| n]; [done|]. destruct (sem E e s.2) as [x w'] eqn:Hs.
        apply (IH _ i (if is_exec e then Waiting (k' x) else Running (k' x)) n).
        -- cbn. apply list_lookup_insert_eq. by eapply lookup_lt_Some.
        -- destruct (is_exec e); apply Hw.
        -- destruct (is_exec e); cbn; lia.
      * apply (IH _ i (Running p) n).
        -- cbn. apply list_lookup_insert_eq. by eapply lookup_lt_Some.
        -- done.
        -- cbn. lia.
    + rewrite filter_cons_False in Hn by done.
      apply (IH _ i t n); [by rewrite turn_other | done | done].
Qed.

Lemma within_rest (E : Env) loc p : within 10 (NewObject_rest E loc p).
Proof.
  unfold NewObject_rest. cbn. intros l. destruct l; [done|]. cbn.
  intros st. destruct st as [err | wr]; [done|]. cbn.
  intros x1 x2 stored. destruct stored; [| done]. cbn.
  intros x3 x4 r. by destruct r.
Qed.

Lemma within_NewObject (E : Env) fuel : ∀ loc, within (fuel * 12) (NewObject E fuel loc).
Proof.
  induction fuel as [| fuel IH]; intros loc; [done|].
  change (S fuel * 12)%nat with (S (S (10 + fuel * 12))). cbn [NewObject].
  intros x. cbn. destruct x as [eObj|]; [done|]. cbn.
  intros x. destruct x as [pObj|].
  - cbn. apply (within_mono _ 10); [lia | apply within_rest].
  - apply (within_mono _ (fuel * 12 + 0 + 10)); [lia|].
    apply within_bind.
    + intros [early | pObj]; [done | apply within_rest].
    + apply within_bind; [done | apply IH].
Qed.

Lemma made_cons (E : Env) loc me i rest s :
  made E loc me (i :: rest) s
  = (step_made loc i me (s.1 !! i) + made E loc me rest (turn E i s))%nat.
Proof.
  unfold made, step_made. cbn [taken_by].
  destruct (s.1 !! i) as [[[r | X e k'] | p]|]; try done.
  rewrite filter_app, length_app. f_equal.
  case_decide; [| done]. unfold creation_of.
  destruct (creates loc e) eqn:Hc.
  - by rewrite filter_cons_True.
  - rewrite filter_cons_False; [done|]. cbn. by rewrite Hc.
Qed.

Section chain_schedule.
Context (E : Env) (loc : string) (k : nat).

Lemma schedule_chain_inv c0 sched : ∀ ts h w,
  chain_inv E loc k c0 ts h w →
  ∃ h', chain_inv E loc k c0 (schedule E sched (ts, w)).1 h' (schedule E sched (ts, w)).2 ∧
        ∀ me, issued_by h' me = (issued_by h me + made E loc me sched (ts, w))%nat.
Proof.
  induction sched as [| i rest IH]; intros ts h w Hinv.
  - exists h. split; [done|]. intros me. cbn. lia.
  - change (schedule E (i :: rest) (ts, w)) with (schedule E rest (turn E i (ts, w))).
    destruct (turn_chain_inv E loc k c0 ts h w i Hinv) as (h1 & Hinv1 & Hm1).
    destruct (turn E i (ts, w)) as [ts1 w1] eqn:Hturn. cbn [fst snd] in Hinv1.
    destruct (IH ts1 h1 w1 Hinv1) as (h2 & Hinv2 & Hm2).
    exists h2. split; [done|]. intros me.
    rewrite Hm2, Hm1, made_cons, Hturn. cbn [fst]. lia.
Qed.

Lemma anc_add n i : anc E loc (n + i) = Nat.iter n (filepath_Dir E) (anc E loc i).
Proof.
  induction n as [| n IH]; [done|].
  change (filepath_Dir E (anc E loc (n + i))
          = filepath_Dir E (Nat.iter n (filepath_Dir E) (anc E loc i))).
  by rewrite IH.
Qed.

Lemma chain_ready_inj w0 :
  chain_ready E loc k w0 →
  ∀ i j, (i ≤ k)%nat → (j ≤ k)%nat → anc E loc i = anc E loc j → i = j.
Proof.
  intros [Hroot Habs _ _ Hbase].
  assert (Hlt : ∀ i j, (i < j)%nat → (j ≤ k)%nat → anc E loc i ≠ anc E loc j).
  { intros i j Hij Hj Heq.
    assert (Hup : anc E loc (S k - j + i) = anc E loc (S k)).
    { rewrite anc_add, Heq, <- anc_add. f_equal. lia. }
    destruct Hbase as [Hb | (_ & dp & Hdp & _)].
    - apply (Hroot (S k - j + i)%nat); [lia|]. by rewrite Hup.
    - rewrite <- Hup, Habs in Hdp; [done | lia]. }
  intros i j Hi Hj Heq.
  destruct (lt_eq_lt_dec i j) as [[Hlt' | ->] | Hlt']; [| done |].
  - by destruct (Hlt i j Hlt' Hj).
  - by destruct (Hlt j i Hlt' Hi).
Qed.

Lemma chain_inv_init w0 N fuel :
  chain_ready E loc k w0 → (k < fuel)%nat → (0 < N)%nat →
  chain_inv E loc k (creations loc (calls w0))
            (replicate N (Running (NewObject E fuel loc))) None w0.
Proof.
  intros Hr Hf HN. pose proof (chain_ready_inj w0 Hr) as Hinj.
  destruct Hr as [Hroot Habs Hstat Hback Hbase].
  assert (Hnone : ∀ j, (j ≤ k)%nat → ¬ present E loc j w0).
  { intros j Hj [o Ho]. by rewrite Habs in Ho. }
  split.
  - exists (replicate (length (replicate N (NewObject E fuel loc))) Idle), ∅.
    rewrite <- fmap_replicate. apply conc_inv_init.
    apply Forall_forall. intros p Hp%elem_of_replicate. destruct Hp as [-> _].
    intros w ret. eapply wp_conseq; [apply NewObject_wp | done].
  - intros i t [-> _]%lookup_replicate. cbn.
    apply (Tq_level E loc k Hroot Hstat Hback Hinj k 0%nat); [lia | done | done].
  - intros i Hi Hp. destruct (Hnone i); [lia | done].
  - done.
  - split; [intros Hp; by destruct (Hnone 0%nat ltac:(lia)) | by intros [? ?]].
  - lia.
  - intros j Hj. destruct (decide (j = k)) as [-> | Hne].
    + right. right. exists 0%nat, (Running (NewObject E fuel loc)).
      split; [by apply lookup_replicate_2|]. cbn.
      apply (NRq_level E loc k Hroot Hstat k 0%nat); [lia | done | done].
    + right. left. split; [lia|]. apply Hnone. lia.
Qed.
End chain_schedule.

Lemma ex_chain_ready : chain_ready ex_env "/r/a/f" 1 ex_w0.
Proof.
  split.
  - intros [| [| i]] Hi; [done | done | lia].
  - intros [| [| i]] Hi; [done | done | lia].
  - intros [| [| i]] Hi; [by eexists | by eexists | lia].
  - intros i h c Hi Hc. unfold ex_env, ex_backend. cbn. rewrite Hc.
    eexists. split; [done|]. done.
  - by left.
Qed.

(** C1, amended. The path [loc] and the directories above it up to
    [anc k] have no entry, none of them is the sync root, [os.Stat] finds
    each of them, and the backend accepts the creation command of each,
    with a non-empty identifier for the directories; the directory above
    [anc k] is the sync root or is tracked with its identifier set. [N]
    calls of [NewObject] for [loc] are started before any command is
    issued, and run in any interleaving [sched] of their atomic steps,
    backend answers returning. Then at every moment at most one creation
    command for [loc] has been issued, by at most one worker, and a worker
    that has returned either returns the new object and has issued that
    command, or returns with [locked] or [alreadyExisted] and has issued
    none. Once every worker has had [24 * fuel] turns, all have returned:
    exactly one creation command for [loc] has been issued, by the one
    worker that returns the new object; each of the others returns with
    [locked] or [alreadyExisted] and has issued none. *)
Theorem NewObject_race (E : Env) (loc : string) (k N fuel : nat) (w0 : World)
    (sched : list nat) :
  chain_ready E loc k w0 → (k < fuel)%nat → (0 < N)%nat →
  let s0 := (replicate N (Running (NewObject E fuel loc)), w0) in
  let s := schedule E sched s0 in
  (creations loc (calls s.2) ≤ creations loc (calls w0) + 1)%nat ∧
  (∀ i j, (made E loc i sched s0 ≤ 1)%nat ∧
          (made E loc i sched s0 = 1%nat → made E loc j sched s0 = 1%nat → i = j)) ∧
  (∀ i r, s.1 !! i = Some (Running (Ret r)) →
          (created r ∧ made E loc i sched s0 = 1%nat) ∨
          (deferred r ∧ made E loc i sched s0 = 0%nat)) ∧
  ((∀ i, (i < N)%nat → (24 * fuel ≤ length (filter (λ j, j = i) sched))%nat) →
   creations loc (calls s.2) = (creations loc (calls w0) + 1)%nat ∧
   ∃ i r, (i < N)%nat ∧ s.1 !! i = Some (Running (Ret r)) ∧ created r ∧
          made E loc i sched s0 = 1%nat ∧
          ∀ j, (j < N)%nat → j ≠ i →
               ∃ r', s.1 !! j = Some (Running (Ret r')) ∧ deferred r' ∧
                     made E loc j sched s0 = 0%nat).
Proof.
  intros Hr Hf HN s0 s.
  pose proof (chain_inv_init E loc k w0 N fuel Hr Hf HN) as Hinit.
  destruct (schedule_chain_inv E loc k _ sched _ _ _ Hinit) as (h & Hinv & Hmade).
  fold s0 in Hinv, Hmade. fold s in Hinv.
  assert (Hm : ∀ me, made E loc me sched s0 = issued_by h me).
  { intros me. rewrite Hmade. cbn. lia. }
  destruct Hinv as [_ Hw Hpp Hh He Hcl Hl].
  assert (Hlen : length s.1 = N).
  { unfold s. rewrite schedule_length. cbn. by rewrite length_replicate. }
  assert (Hcreated : ∀ r w, created_at E loc 0 r w → created r).
  { intros r w (r' & o & -> & Ho & Hlo & Hlk & He' & _). by exists r', o. }
  assert (Hret : ∀ i r, s.1 !! i = Some (Running (Ret r)) →
                        (phase_of h i = Seeking ∧ deferred r) ∨
                        (phase_of h i = Issued ∧ created r)).
  { intros i r Hi. destruct (Hw i _ Hi) as [[Hph Hd] | [Hph Hc]]; [by left|].
    right. split; [done | by eapply Hcreated]. }
  assert (Hiss : ∀ i, issued_by h i = if decide (phase_of h i = Issued) then 1%nat else 0%nat).
  { intros i. unfold issued_by, phase_of. destruct h as [[j b]|]; [| done].
    destruct b; repeat case_decide; congruence. }
  split; [rewrite Hcl; destruct h as [[? []]|]; lia|].
  split.
  { intros i j. rewrite !Hm. unfold issued_by. destruct h as [[j0 []]|].
    - repeat case_decide; split; try lia; intros; congruence.
    - split; [lia | done].
    - split; [lia | done]. }
  split.
  { intros i r Hi. rewrite Hm, Hiss.
    destruct (Hret i r Hi) as [[Hph Hd] | [Hph Hc]]; rewrite Hph.
    - right. by rewrite decide_False.
    - left. by rewrite decide_True. }
  intros Hfair.
  assert (Hall : ∀ i, (i < N)%nat → ∃ r, s.1 !! i = Some (Running (Ret r))).
  { intros i Hi.
    apply (schedule_returns E sched s0 i (Running (NewObject E fuel loc)) (fuel * 12)).
    - by apply lookup_replicate_2.
    - apply within_NewObject.
    - specialize (Hfair i Hi). cbn [is_waiting]. lia. }
  assert (Hfin : ∀ j i t, s.1 !! i = Some t →
                   NRq E loc k j s.2 (thread_prog t) (λ _ _, False) → present E loc j s.2).
  { intros j i t Ht Hnr. destruct (Hall i) as [r Hi].
    - rewrite <- Hlen. by eapply lookup_lt_Some.
    - rewrite Hi in Ht. injection Ht as <-. by destruct Hnr. }
  assert (Hpres : ∀ d j, (j + d = k)%nat → present E loc j s.2).
  { induction d as [| d IH]; intros j Hj.
    - destruct (Hl j ltac:(lia)) as [Hp | [[Hjk _] | (i & t & Ht & Hnr)]];
        [done | lia | by eapply Hfin].
    - destruct (Hl j ltac:(lia)) as [Hp | [[_ Hn] | (i & t & Ht & Hnr)]];
        [done | | by eapply Hfin].
      destruct Hn. apply IH. lia. }
  pose proof (Hpres k 0%nat eq_refl) as Hp0. apply He in Hp0 as [[i b] ->].
  destruct (Hh i b eq_refl) as [t Ht]. assert (Hi : (i < N)%nat).
  { rewrite <- Hlen. by eapply lookup_lt_Some. }
  destruct (Hall i Hi) as [r Hir].
  assert (Hb : b = true ∧ created r).
  { destruct (Hret i r Hir) as [[Hph _] | [Hph Hc]]; cbn in Hph;
      rewrite decide_True in Hph by done; destruct b; done. }
  destruct Hb as [-> Hc].
  split; [rewrite Hcl; lia|].
  exists i, r. split; [done|]. split; [done|]. split; [done|]. split.
  { rewrite Hm. cbn. by rewrite decide_True. }
  intros j Hj Hne. destruct (Hall j Hj) as [r' Hjr]. exists r'. split; [done|].
  destruct (Hret j r' Hjr) as [[Hph Hd] | [Hph _]]; cbn in Hph;
    rewrite decide_False in Hph by done; [| done].
  split; [done|]. rewrite Hm. cbn. by rewrite decide_False.
Qed.

Lemma NewObject_race_witness :
  chain_ready ex_env "/r/a/f" 1 ex_w0 ∧
  creations "/r/a/f"
    (calls (schedule ex_env ex_round_robin3_long
              (replicate 3 (Running (NewObject ex_env 2 "/r/a/f")), ex_w0)).2) = 1%nat ∧
  ∃ i r, (i < 3)%nat ∧
    (schedule ex_env ex_round_robin3_long
       (replicate 3 (Running (NewObject ex_env 2 "/r/a/f")), ex_w0)).1 !! i
    = Some (Running (Ret r)) ∧ created r ∧
    made ex_env "/r/a/f" i ex_round_robin3_long
         (replicate 3 (Running (NewObject ex_env 2 "/r/a/f")), ex_w0) = 1%nat ∧
    ∀ j, (j < 3)%nat → j ≠ i →
      ∃ r', (schedule ex_env ex_round_robin3_long
               (replicate 3 (Running (NewObject ex_env 2 "/r/a/f")), ex_w0)).1 !! j
            = Some (Running (Ret r')) ∧ deferred r' ∧
            made ex_env "/r/a/f" j ex_round_robin3_long
                 (replicate 3 (Running (NewObject ex_env 2 "/r/a/f")), ex_w0) = 0%nat.
Proof.
  split; [exact ex_chain_ready|].
  pose proof (NewObject_race ex_env "/r/a/f" 1 3 2 ex_w0 ex_round_robin3_long
                ex_chain_ready ltac:(lia) ltac:(lia)) as H.
  cbv zeta in H. destruct H as (_ & _ & _ & H).
  apply H. intros i Hi.
  destruct i as [| [| [| i]]]; [vm_compute; lia | vm_compute; lia | vm_compute; lia | lia].
Defined.

(** C1 as the specification words it fails wherever the amended statement
    has a condition. Workers are started together and run, backend answers
    returning, until each has returned. The path is tracked: no creation
    command, each worker returns
    [alreadyExisted]. The path is the sync root: the same. [os.Stat] does
    not find the path: no command, each worker returns the error. The
    parent directory is tracked with no identifier set: no command, each
    worker returns [locked]. The backend accepts the creation of the
    parent directory without an identifier: no creation command for the
    path is ever issued, each worker returns [locked]. The backend refuses
    the first creation command, two workers, the second has taken its
    first step before the answer returns: two creation commands for the
    path, one by each worker. *)
Theorem NewObject_race_counterexample :
  outcome (schedule ex_env ex_round_robin3_long
             (replicate 3 (Running (NewObject ex_env 2 "/r/a/f")), ex_w2))
  = (replicate 3 (Some (Some (mkResolved (Some 1%nat) true false None))), []) ∧
  outcome (schedule ex_env ex_round_robin3_long
             (replicate 3 (Running (NewObject ex_env 2 "/r")), ex_w0))
  = ([Some (Some (mkResolved (Some 0%nat) true false None));
      Some (Some (mkResolved (Some 1%nat) true false None));
      Some (Some (mkResolved (Some 2%nat) true false None))], []) ∧
  outcome (schedule ex_env ex_round_robin3_long
             (replicate 3 (Running (NewObject ex_env 2 "/r/gone")), ex_w0))
  = (replicate 3 (Some (Some (mkResolved None false false
                                (Some "stat: no such file or directory")))), []) ∧
  outcome (schedule ex_env ex_round_robin3_long
             (replicate 3 (Running (NewObject ex_env 2 "/r/a/f")), ex_w_stuck))
  = (replicate 3 (Some (Some (mkResolved (Some 0%nat) false true None))), []) ∧
  outcome (schedule ex_env_mute ex_round_robin3_long
             (replicate 3 (Running (NewObject ex_env_mute 2 "/r/a/f")), ex_w0))
  = ([Some (Some (mkResolved (Some 3%nat) false true None));
      Some (Some (mkResolved (Some 1%nat) false true None));
      Some (Some (mkResolved (Some 2%nat) false true None))], [TagCreate "/r/a"]) ∧
  outcome (schedule ex_env_flaky ex_late
             (replicate 2 (Running (NewObject ex_env_flaky 2 "/r/a/f")), ex_w1))
  = ([Some (Some (mkResolved None false false (Some "quota exceeded")));
      Some (Some (mkResolved (Some 2%nat) false false None))],
     [TagCreate "/r/a/f"; TagCreate "/r/a/f"]) ∧
  made ex_env_flaky "/r/a/f" 0 ex_late
       (replicate 2 (Running (NewObject ex_env_flaky 2 "/r/a/f")), ex_w1) = 1%nat ∧
  made ex_env_flaky "/r/a/f" 1 ex_late
       (replicate 2 (Running (NewObject ex_env_flaky 2 "/r/a/f")), ex_w1) = 1%nat.
Proof. by vm_compute. Qed.
